(** * Legion-SNAP: the KBA sweep kernel, the outer source and convergence
      test, and the MMS diagnostics

    A shallow embedding of [src/sweep.cc], [src/outer.cc] and [src/mms.cc].

    The C++ code computes on [double].  The embedding is written once over
    an interface [DoubleOps] of the operations the code uses, and read at two
    instances:
    - [binary64]: IEEE 754 binary64 through the kernel's primitive floats,
      which is what the compiled program computes;
    - [exactQ]: exact rational arithmetic, the idealisation in which the
      numerical method is designed (no rounding, no NaN, no infinity).
    A theorem stated for every instance holds in particular of [binary64]. *)

From Stdlib Require Import ZArith List Bool Lia Arith Permutation.
From Stdlib Require Import Floats Uint63.
From Stdlib Require Import QArith Qabs Lqa.
Import ListNotations.

Set Implicit Arguments.

(* ================================================================== *)
(** * Part I. The model *)
(* ================================================================== *)

(** ** The arithmetic of [double] *)

Declare Scope dbl_scope.
Delimit Scope dbl_scope with dbl.

Class DoubleOps (D : Type) : Type := {
  d_0    : D;                 (* 0.0 *)
  d_1    : D;                 (* 1.0 *)
  d_2    : D;                 (* 2.0 *)
  d_half : D;                 (* 0.5 *)
  d_100  : D;                 (* 100.0 *)
  d_tolr : D;                 (* 1.0e-12 *)
  dadd   : D -> D -> D;
  dsub   : D -> D -> D;
  dmul   : D -> D -> D;
  ddiv   : D -> D -> D;
  dneg   : D -> D;            (* unary minus *)
  fabs   : D -> D;
  dlt    : D -> D -> bool;    (* x < y *)
  dle    : D -> D -> bool;    (* x <= y *)
  deq    : D -> D -> bool;    (* x == y *)
  of_int : Z -> D             (* double(n) *)
}.

(** [INFINITY] of <cmath>; only the diagnostics and the convergence test
    use it. *)
Class DoubleInf (D : Type) : Type := { INFINITY : D }.

Notation "x + y" := (dadd x y) : dbl_scope.
Notation "x - y" := (dsub x y) : dbl_scope.
Notation "x * y" := (dmul x y) : dbl_scope.
Notation "x / y" := (ddiv x y) : dbl_scope.
Notation "- x" := (dneg x) : dbl_scope.
Notation "x <? y" := (dlt x y) : dbl_scope.
Notation "x <=? y" := (dle x y) : dbl_scope.
Notation "x >? y" := (dlt y x) (only parsing) : dbl_scope.
Notation "x >=? y" := (dle y x) (only parsing) : dbl_scope.
Notation "x =? y" := (deq x y) : dbl_scope.
Notation "x !=? y" := (negb (deq x y)) (at level 70) : dbl_scope.

(** IEEE 754 binary64.  [0x1.19799812dea11p-40] is the double nearest to
    the decimal literal [1.0e-12].  [float_of_int] converts a 64-bit signed
    integer ([int], [coord_t]): a magnitude below 2^63 goes through the
    63-bit unsigned conversion, and -2^63, the one value whose magnitude
    that conversion does not hold, is a double itself. *)
Definition float_of_int (z : Z) : float :=
  if (0 <=? z)%Z then PrimFloat.of_uint63 (Uint63.of_Z z)
  else if (z =? -9223372036854775808)%Z then (-9223372036854775808)%float
  else PrimFloat.opp (PrimFloat.of_uint63 (Uint63.of_Z (- z))).

#[export] Instance binary64 : DoubleOps float := {|
  d_0 := 0%float;
  d_1 := 1%float;
  d_2 := 2%float;
  d_half := 0.5%float;
  d_100 := 100%float;
  d_tolr := 0x1.19799812dea11p-40%float;
  dadd := PrimFloat.add;
  dsub := PrimFloat.sub;
  dmul := PrimFloat.mul;
  ddiv := PrimFloat.div;
  dneg := PrimFloat.opp;
  fabs := PrimFloat.abs;
  dlt := PrimFloat.ltb;
  dle := PrimFloat.leb;
  deq := PrimFloat.eqb;
  of_int := float_of_int
|}.

#[export] Instance binary64_inf : DoubleInf float :=
  {| INFINITY := PrimFloat.infinity |}.

(** Exact rational arithmetic. *)
#[export] Instance exactQ : DoubleOps Q := {|
  d_0 := 0%Q;
  d_1 := 1%Q;
  d_2 := 2%Q;
  d_half := (1 # 2)%Q;
  d_100 := 100%Q;
  d_tolr := (1 # 1000000000000)%Q;
  dadd := Qplus;
  dsub := Qminus;
  dmul := Qmult;
  ddiv := Qdiv;
  dneg := Qopp;
  fabs := Qabs;
  dlt := fun x y => negb (Qle_bool y x);
  dle := Qle_bool;
  deq := Qeq_bool;
  of_int := inject_Z
|}.

(** What the negative-flux fixup needs of the signs of products, quotients
    and differences.  A value [x] is negative when [x < 0.0] holds; a NaN
    is neither negative nor [>= 0.0].  Both instances have these
    properties (Part II). *)
Class SignLaws {D : Type} (ops : DoubleOps D) : Prop := {
  zero_not_negative : (d_0 <? d_0)%dbl = false;
  zero_below_tolr : (d_0 <? d_tolr)%dbl = true;
  times_zero_not_negative : forall x, (x * d_0 <? d_0)%dbl = false;
  times_one_not_negative :
    forall x, (x <? d_0)%dbl = false -> (x * d_1 <? d_0)%dbl = false;
  quotient_not_negative :
    forall x y, (x <=? d_0)%dbl = false -> (y <? d_tolr)%dbl = false ->
                (x / y <? d_0)%dbl = false;
  half_not_negative :
    forall x y, (d_0 <=? y)%dbl = true -> (d_2 * x - y <? d_0)%dbl = false ->
                (x <? d_0)%dbl = false
}.

(** ** Buffers

    A [double*] buffer is a list.  A loop [for (ang = 0; ang < n; ang++)
    a[ang] = e(ang)] that writes each slot once from slots of the same index
    is [tabulate n e]; [get] reads a slot the loop bounds keep in range. *)

Section Buffers.
Context {D : Type} {ops : DoubleOps D}.

Definition get (l : list D) (a : nat) : D := nth a l d_0.

Definition tabulate (n : nat) (f : nat -> D) : list D := map f (seq 0 n).

(** [total = 0.0; for (ang...) total += e(ang)] *)
Definition sum_loop (n : nat) (f : nat -> D) : D :=
  fold_left (fun total a => (total + f a)%dbl) (seq 0 n) d_0.

(** Number of indices below [n] at which [p] holds. *)
Definition count_loop (n : nat) (p : nat -> bool) : Z :=
  fold_left (fun c a => if p a then (c + 1)%Z else c) (seq 0 n) 0%Z.
End Buffers.

(** A read through an index the code computes: outside the buffer the C++
    program has undefined behaviour, which the model reports as [None]. *)
Definition zget {A : Type} (l : list A) (i : Z) : option A :=
  if (i <? 0)%Z then None else nth_error l (Z.to_nat i).

(** [unsigned] arithmetic wraps modulo 2^32. *)
Definition u32 (z : Z) : Z := (z mod 4294967296)%Z.

(** What running a piece of code can come to.  [OutOfBounds] marks the
    first access outside a buffer.  The code has no bounds check: the C++
    program has undefined behaviour there, the source does not determine
    what a build does next, and the model follows it no further. *)
Inductive outcome (A : Type) : Type :=
| Returns (a : A)       (* the code ran to its end *)
| OutOfFuel             (* still looping when the step budget ran out *)
| OutOfBounds           (* an access outside a buffer: undefined behaviour *)
| Aborted.              (* an [assert] failed, in a build that keeps them *)
Arguments OutOfFuel {A}.
Arguments OutOfBounds {A}.
Arguments Aborted {A}.

Definition bind {A B : Type} (m : outcome A) (k : A -> outcome B) : outcome B :=
  match m with
  | Returns a => k a
  | OutOfFuel => OutOfFuel
  | OutOfBounds => OutOfBounds
  | Aborted => Aborted
  end.

Definition checked {A : Type} (o : option A) : outcome A :=
  match o with Some a => Returns a | None => OutOfBounds end.

(** [for (ang = 0; ang < n; ang++) a[ang] = e(ang)] where [e] reads through
    computed indices: stops at the first read outside a buffer. *)
Fixpoint tabulate_checked {A : Type} (f : nat -> option A) (idx : list nat)
  : option (list A) :=
  match idx with
  | [] => Some []
  | a :: rest =>
      match f a with
      | None => None
      | Some v =>
          match tabulate_checked f rest with
          | None => None
          | Some vs => Some (v :: vs)
          end
      end
  end.

(** Modelled from the spec: [MomentQuad] is declared in snap.h, which is not
    among the sources.  The specification calls it the moment quad: the four
    moments of a source or of a scattering cross-section.  Reading an entry
    past the fourth leaves the object. *)
Definition MomentQuad (D : Type) : Type := (D * D * D * D)%type.

Definition quad_at {D : Type} (q : MomentQuad D) (l : Z) : option D :=
  let '(q0, q1, q2, q3) := q in
  if (l =? 0)%Z then Some q0
  else if (l =? 1)%Z then Some q1
  else if (l =? 2)%Z then Some q2
  else if (l =? 3)%Z then Some q3
  else None.

(** [quad[0]] *)
Definition quad_0 {D : Type} (q : MomentQuad D) : D :=
  let '(q0, _, _, _) := q in q0.

(* ------------------------------------------------------------------ *)
(** ** mms.cc *)
(* ------------------------------------------------------------------ *)

Module MMS.
Section MMS.
Context {D : Type} {ops : DoubleOps D}.
Local Open Scope dbl_scope.

(** *** Cell boundaries ([MMSInitFlux] and [MMSInitSource])

    [cb[0] = b0; for (i = 1; i <= n; i++) cb[i] = cb[i-1] + step]. *)
Fixpoint boundary_fill (prev step : D) (n : nat) : list D :=
  match n with
  | O => []
  | S n' => let v := prev + step in v :: boundary_fill v step n'
  end.

Definition boundary_array (b0 step : D) (n : nat) : list D :=
  b0 :: boundary_fill b0 step n.

Record Grid : Type := {
  lx : D; ly : D; lz : D;
  nx : Z; ny : Z; nz : Z;
  nx_per_chunk : nat; ny_per_chunk : nat; nz_per_chunk : nat
}.

Record Boundaries : Type := { ib : list D; jb : list D; kb : list D }.

(** mms.cc 103-114.  All three loops add [dx]. *)
Definition MMSInitFlux_boundaries (g : Grid) (lo : Z * Z * Z) : Boundaries :=
  let '(lo0, lo1, lo2) := lo in
  let dx := lx g / of_int (nx g) in
  let dy := ly g / of_int (ny g) in
  let dz := lz g / of_int (nz g) in
  {| ib := boundary_array (of_int lo0 * dx) dx (nx_per_chunk g);
     jb := boundary_array (of_int lo1 * dy) dx (ny_per_chunk g);
     kb := boundary_array (of_int lo2 * dz) dx (nz_per_chunk g) |}.

(** mms.cc 230-246: the same three loops. *)
Definition MMSInitSource_boundaries (g : Grid) (lo : Z * Z * Z) : Boundaries :=
  let '(lo0, lo1, lo2) := lo in
  let dx := lx g / of_int (nx g) in
  let dy := ly g / of_int (ny g) in
  let dz := lz g / of_int (nz g) in
  {| ib := boundary_array (of_int lo0 * dx) dx (nx_per_chunk g);
     jb := boundary_array (of_int lo1 * dy) dx (ny_per_chunk g);
     kb := boundary_array (of_int lo2 * dz) dx (nz_per_chunk g) |}.

(** The cell widths the two tasks compute. *)
Definition cell_dx (g : Grid) : D := lx g / of_int (nx g).
Definition cell_dy (g : Grid) : D := ly g / of_int (ny g).
Definition cell_dz (g : Grid) : D := lz g / of_int (nz g).

(** *** [MMSCompare::cpu_implementation]

    [MomentTriple] is three doubles, here [(t[0], t[1], t[2])]. *)
Definition MomentTriple : Type := (D * D * D)%type.

(** The error value of one cell, mms.cc 522-532.  The variable [df] is
    first the subtrahend (1.0, or 0.0 on underflow of the reference) and
    then the result. *)
Definition compare_df (flux ref_flux : D) : D :=
  let '(ref_flux, df) :=
    if ref_flux <? d_tolr then (d_1, d_0) else (ref_flux, d_1) in
  fabs (flux / ref_flux - df).

(** One iteration of the cell loop on the running [(max, min, sum)]. *)
Definition compare_cell (acc : MomentTriple) (cell : D * D) : MomentTriple :=
  let '(max, min, sum) := acc in
  let df := compare_df (fst cell) (snd cell) in
  let max := if df >? max then df else max in
  let min := if df <? min then df else min in
  (max, min, sum + df).

Context {inf : DoubleInf D}.

(** [fields]: for each energy-group field, the [(flux, ref_flux)] pairs of
    the cells in the order of the domain iterator. *)
Definition MMSCompare_cpu_implementation (fields : list (list (D * D)))
  : MomentTriple :=
  fold_left (fun acc field => fold_left compare_cell field acc)
            fields (- INFINITY, INFINITY, d_0).

(** *** [MMSReduction] *)
Definition MMSReduction_identity : MomentTriple :=
  (- INFINITY, INFINITY, d_0).

(** [apply<true>] and [fold<true>]: the conditional assignments. *)
Definition MMSReduction_apply_exclusive (lhs rhs : MomentTriple)
  : MomentTriple :=
  let '(l0, l1, l2) := lhs in
  let '(r0, r1, r2) := rhs in
  (if r0 >? l0 then r0 else l0,
   if r1 <? l1 then r1 else l1,
   l2 + r2).

Definition MMSReduction_fold_exclusive (rhs1 rhs2 : MomentTriple)
  : MomentTriple :=
  let '(l0, l1, l2) := rhs1 in
  let '(r0, r1, r2) := rhs2 in
  (if r0 >? l0 then r0 else l0,
   if r1 <? l1 then r1 else l1,
   l2 + r2).

(** The macros of mms.cc 24-29. *)
Definition MAX (x y : D) : D := if x >? y then x else y.
Definition MIN (x y : D) : D := if x <? y then x else y.

(** [apply<false>] and [fold<false>]: three compare-and-swap loops.  Run
    without interference each loop succeeds at its first attempt and
    stores the new value computed from the old one. *)
Definition MMSReduction_apply_atomic (lhs rhs : MomentTriple)
  : MomentTriple :=
  let '(l0, l1, l2) := lhs in
  let '(r0, r1, r2) := rhs in
  (MAX l0 r0, MIN l1 r1, l2 + r2).

Definition MMSReduction_fold_atomic (rhs1 rhs2 : MomentTriple)
  : MomentTriple :=
  let '(l0, l1, l2) := rhs1 in
  let '(r0, r1, r2) := rhs2 in
  (MAX l0 r0, MIN l1 r1, l2 + r2).
End MMS.

(** Two doubles are the same value when they are identical or compare equal
    under [==], which identifies -0.0 with +0.0. *)
Definition same_value (a b : float) : Prop :=
  a = b \/ (a =? b)%float = true.

Definition same_triple (x y : float * float * float) : Prop :=
  let '(x0, x1, x2) := x in
  let '(y0, y1, y2) := y in
  same_value x0 y0 /\ same_value x1 y1 /\ same_value x2 y2.

(** [x == x], false of NaN only. *)
Definition not_nan (a : float) : Prop := (a =? a)%float = true.

Definition triple_not_nan (x : float * float * float) : Prop :=
  let '(x0, x1, x2) := x in not_nan x0 /\ not_nan x1 /\ not_nan x2.

(** The reading of the specification's sentence on reference-flux
    underflow: the cell's error value is zero. *)
Definition spec_compare_df {D : Type} {ops : DoubleOps D} (flux ref_flux : D) : D :=
  if (ref_flux <? d_tolr)%dbl then d_0
  else fabs (flux / ref_flux - d_1)%dbl.

(** The error values [df] of the cells, in the order [MMSCompare] visits
    them. *)
Definition compare_dfs {D : Type} {ops : DoubleOps D}
           (fields : list (list (D * D))) : list D :=
  map (fun cell => compare_df (fst cell) (snd cell)) (concat fields).

(** The step of a running extreme, [if (d beyond m) m = d]: for the
    maximum [beyond m d] is [d > m], for the minimum [d < m]. *)
Definition keep {A : Type} (beyond : A -> A -> bool) (m d : A) : A :=
  if beyond m d then d else m.

(** What a running extreme needs of its comparisons: [upto x y] says that
    [y] is at least as far out as [x], and [ok] singles out the values
    that compare (of the doubles, all but NaN).  The comparisons of
    binary64 have these properties, for the maximum and for the minimum
    (Part II). *)
Class ExtremeLaws {A : Type} (beyond upto : A -> A -> bool) (ok : A -> Prop)
  : Prop := {
  upto_refl : forall x, ok x -> upto x x = true;
  upto_total :
    forall x y, ok x -> ok y -> beyond y x = false -> upto x y = true;
  beyond_upto : forall x y, beyond x y = true -> upto x y = true;
  upto_trans :
    forall x y z, upto x y = true -> upto y z = true -> upto x z = true;
  upto_not_beyond : forall x y, upto x y = true -> beyond y x = false;
  beyond_ok : forall x y, beyond x y = true -> ok x /\ ok y
}.
End MMS.

(* ------------------------------------------------------------------ *)
(** ** outer.cc *)
(* ------------------------------------------------------------------ *)

Module Outer.

(** outer.cc 103-108, on [int].  The recursion subtracts the smaller from the
    larger argument; [fuel] bounds its depth. *)
Fixpoint gcd (fuel : nat) (a b : Z) : option Z :=
  match fuel with
  | O => None
  | S fuel' =>
      if (a <? b)%Z then gcd fuel' a (b - a)
      else if (a >? b)%Z then gcd fuel' (a - b) b
      else Some a
  end.

Section Outer.
Context {D : Type} {ops : DoubleOps D}.
Local Open Scope dbl_scope.

(** [buf[k] = v] on a [malloc]ed buffer. *)
Fixpoint upd (buf : list D) (k : nat) (v : D) : list D :=
  match buf, k with
  | [], _ => []
  | _ :: t, O => v :: t
  | h :: t, S k' => h :: upd t k' v
  end.

(** A sequence of stores [buf[pos k] = val k]. *)
Definition store_all {K : Type} (pos : K -> nat) (val : K -> D)
           (ks : list K) (buf : list D) : list D :=
  fold_left (fun b k => upd b (pos k) (val k)) ks buf.

Definition slot_index (strip : nat) (p : nat * nat) : nat :=
  (fst p * strip + snd p)%nat.

(** *** [CalcOuterSource::cpu_implementation], the scalar part
        (outer.cc 151-182) *)
Section CalcOuterSource.
Variable num_groups : nat.
Variables max_x max_y max_z : nat.
Variable fa_qi0 : nat -> nat -> nat -> nat -> D.     (* fa_qi0[g][x][y][z] *)
Variable fa_flux0 : nat -> nat -> nat -> nat -> D.   (* fa_flux0[g][x][y][z] *)
Variable fa_slgg : nat -> Z -> nat -> MomentQuad D.   (* fa_slgg[g1][mat][g2] *)
Variable fa_mat : nat -> nat -> nat -> Z.            (* fa_mat[x][y][z] *)

(** A store [fa_qo0[g1][x][y][z] = v]: group [g1], and the point
    [(x, y, z)] of the grid the accessor is written at. *)
Definition write : Type := ((nat * nat * nat * nat) * D)%type.

(** outer.cc 161-163 *)
Definition load_strip (strip_size x y z : nat) (flux_strip : list D)
  : list D :=
  fold_left (fun buf g =>
    fold_left (fun buf i =>
      upd buf (g * strip_size + i) (fa_flux0 g (x + i)%nat y z))
      (seq 0 strip_size) buf)
    (seq 0 num_groups) flux_strip.

(** outer.cc 170-175 *)
Definition scatter_loop (strip_size g1 i : nat) (mat : Z)
           (flux_strip : list D) (qo0 : D) : D :=
  fold_left (fun qo0 g2 =>
    if (g1 =? g2)%nat then qo0
    else
      let cs := fa_slgg g1 mat g2 in
      qo0 + quad_0 cs * get flux_strip (g2 * strip_size + i))
    (seq 0 num_groups) qo0.

(** outer.cc 165-178 *)
Definition compute_strip (strip_size x y z : nat) (flux_strip : list D)
           (qo0s : list write) : list write :=
  fold_left (fun out g1 =>
    fold_left (fun out i =>
      let qo0 := fa_qi0 g1 (x + i)%nat y z in
      let mat := fa_mat (x + i)%nat y z in
      let qo0 := scatter_loop strip_size g1 i mat flux_strip qo0 in
      out ++ [((g1, (x + i)%nat, y, z), qo0)])
      (seq 0 strip_size) out)
    (seq 0 num_groups) qo0s.

(** The state the loop nest threads: the strip buffer and the stores
    made so far, oldest first. *)
Definition strip_state : Type := (list D * list write)%type.

(** outer.cc 159: [for (int x = 0; x < max_x; x += strip_size)] *)
Fixpoint x_loop (fuel strip_size x y z : nat) (st : strip_state)
  : outcome strip_state :=
  match fuel with
  | O => OutOfFuel
  | S fuel' =>
      if (x <? max_x)%nat then
        let flux_strip := load_strip strip_size x y z (fst st) in
        let qo0s := compute_strip strip_size x y z flux_strip (snd st) in
        x_loop fuel' strip_size (x + strip_size) y z (flux_strip, qo0s)
      else Returns st
  end.

Definition y_loop (fuel strip_size z : nat) (st : strip_state)
  : outcome strip_state :=
  fold_left (fun r y => bind r (x_loop fuel strip_size 0 y z))
            (seq 0 max_y) (Returns st).

Definition z_loop (fuel strip_size : nat) (st : strip_state)
  : outcome strip_state :=
  fold_left (fun r z => bind r (y_loop fuel strip_size z))
            (seq 0 max_z) (Returns st).

(** The stores to [fa_qo0], in program order.  The strip buffer is
    [malloc]ed, so its first content is arbitrary: [junk]. *)
Definition CalcOuterSource_cpu_implementation (fuel : nat) (junk : D)
  : outcome (list write) :=
  match gcd fuel (Z.of_nat max_x) 32 with
  | None => OutOfFuel
  | Some strip_size =>
      let s := Z.to_nat strip_size in
      let flux_strip := repeat junk (num_groups * s) in
      bind (z_loop fuel s (flux_strip, []))
           (fun st => Returns (snd st))
  end.

(** The value the specification gives [qo0[g1, cell]]: [qi] plus the
    scattering from every other group, added in group order. *)
Definition spec_qo0 (g1 x y z : nat) : D :=
  fold_left (fun acc g2 =>
    if (g1 =? g2)%nat then acc
    else acc + quad_0 (fa_slgg g1 (fa_mat x y z) g2) * fa_flux0 g2 x y z)
    (seq 0 num_groups) (fa_qi0 g1 x y z).

(** The stores of the loop nest when the row is [strips] strips of
    [strip] cells: of one strip, one row, one plane, and all of them, in
    program order. *)
Definition strip_writes (strip x y z : nat) : list write :=
  flat_map (fun g1 =>
    map (fun i => ((g1, (x + i)%nat, y, z), spec_qo0 g1 (x + i)%nat y z))
        (seq 0 strip))
    (seq 0 num_groups).

Definition row_writes (strip strips y z : nat) : list write :=
  flat_map (fun j => strip_writes strip (j * strip) y z) (seq 0 strips).

Definition plane_writes (strip strips z : nat) : list write :=
  flat_map (fun y => row_writes strip strips y z) (seq 0 max_y).

Definition all_writes (strip strips : nat) : list write :=
  flat_map (plane_writes strip strips) (seq 0 max_z).

(** The slots of the strip buffer, in the order the loading loops visit
    them, and the index of a slot. *)
Definition strip_slots (strip : nat) : list (nat * nat) :=
  flat_map (fun g => map (pair g) (seq 0 strip)) (seq 0 num_groups).
End CalcOuterSource.

(** *** The chunk of the task (outer.cc 117-118, 153-155)

    [dom.bounds] is the box of points of the chunk.  An accessor takes
    the coordinates of a point of the grid, not an offset into the chunk:
    the same accessors are read at the points of [dom] in
    [TestOuterConvergence] (outer.cc 382-390), and the sweep adds the lower
    bound of its subgrid to its loop counters (sweep.cc 238-249).  The
    loops of [CalcOuterSource] use their counters as they are. *)
Definition point : Type := (Z * Z * Z)%type.

Record Domain : Type := {
  dom_lo : point;              (* dom.bounds.lo *)
  dom_hi : point               (* dom.bounds.hi *)
}.

Definition px (p : point) : Z := fst (fst p).
Definition py (p : point) : Z := snd (fst p).
Definition pz (p : point) : Z := snd p.

(** [hi - lo + 1]; a box with [hi < lo] has no point. *)
Definition width (lo hi : Z) : nat := Z.to_nat (hi - lo + 1).

(** The point an accessor is read at with the counters [x], [y], [z]. *)
Definition at_point (x y z : nat) : point :=
  (Z.of_nat x, Z.of_nat y, Z.of_nat z).

(** The cells of the chunk. *)
Definition in_domain (dom : Domain) (p : point) : bool :=
  (px (dom_lo dom) <=? px p)%Z && (px p <=? px (dom_hi dom))%Z &&
  (py (dom_lo dom) <=? py p)%Z && (py p <=? py (dom_hi dom))%Z &&
  (pz (dom_lo dom) <=? pz p)%Z && (pz p <=? pz (dom_hi dom))%Z.

(** outer.cc 153-181 on the chunk [dom]. *)
Definition CalcOuterSource_on_domain (num_groups : nat) (dom : Domain)
           (fa_qi0 fa_flux0 : nat -> nat -> nat -> nat -> D)
           (fa_slgg : nat -> Z -> nat -> MomentQuad D)
           (fa_mat : nat -> nat -> nat -> Z)
           (fuel : nat) (junk : D) : outcome (list write) :=
  let max_x := width (px (dom_lo dom)) (px (dom_hi dom)) in
  let max_y := width (py (dom_lo dom)) (py (dom_hi dom)) in
  let max_z := width (pz (dom_lo dom)) (pz (dom_hi dom)) in
  CalcOuterSource_cpu_implementation num_groups max_x max_y max_z
    fa_qi0 fa_flux0 fa_slgg fa_mat fuel junk.

(** *** [TestOuterConvergence::cpu_implementation] (outer.cc 354-403) *)

(** outer.cc 384-391: [df] is first the subtrahend, then the result. *)
Definition convergence_df (flux0 flux0po : D) : D :=
  let '(flux0po, df) :=
    if fabs flux0po <? d_tolr then (d_1, d_0) else (flux0po, d_1) in
  fabs (flux0 / flux0po - df).

Context {inf : DoubleInf D}.

(** The cell loop of one field on its [(flux0, flux0po)] pairs.  The
    result is [false] when the loop returns early; [reads] counts the
    accessor reads made. *)
Fixpoint scan_cells (epsi : D) (cells : list (D * D)) (reads : nat)
  : bool * nat :=
  match cells with
  | [] => (true, reads)
  | (flux0, flux0po) :: rest =>
      let df := convergence_df flux0 flux0po in
      let reads := (reads + 2)%nat in
      if df <? - INFINITY then scan_cells epsi rest reads
      else if df >? epsi then (false, reads)
      else scan_cells epsi rest reads
  end.

Fixpoint scan_fields (epsi : D) (fields : list (list (D * D))) (reads : nat)
  : bool * nat :=
  match fields with
  | [] => (true, reads)
  | field :: rest =>
      let '(ok, reads) := scan_cells epsi field reads in
      if ok then scan_fields epsi rest reads else (false, reads)
  end.

(** The returned flag, and the number of flux values read. *)
Definition TestOuterConvergence_cpu_implementation
           (inner_converged : bool) (convergence_eps : D)
           (fields : list (list (D * D))) : bool * nat :=
  if negb inner_converged then (false, O)
  else
    let epsi := d_100 * convergence_eps in
    scan_fields epsi fields O.

(** What a cell must satisfy for the scan to go on past it. *)
Definition cell_passes (epsi : D) (cell : D * D) : Prop :=
  (convergence_df (fst cell) (snd cell) >? epsi) = false.

(** The test as the specification words it: a cell whose previous flux
    is below the tolerance has [df = 0] and cannot fail. *)
Definition spec_convergence_df (flux0 flux0po : D) : D :=
  if fabs flux0po <? d_tolr then d_0
  else fabs (flux0 / flux0po - d_1).

Definition spec_outer_converged (inner_converged : bool)
           (convergence_eps : D) (fields : list (list (D * D))) : bool :=
  inner_converged &&
  forallb (forallb (fun c =>
    spec_convergence_df (fst c) (snd c) <=? d_100 * convergence_eps)) fields.
End Outer.
End Outer.

(* ------------------------------------------------------------------ *)
(** ** sweep.cc *)
(* ------------------------------------------------------------------ *)

Module Sweep.

(** The value an [unsigned] takes when it is stored in an [int]. *)
Definition to_int (z : Z) : Z :=
  (if z <? 2147483648 then z else z - 4294967296)%Z.

Section Sweep.
Context {D : Type} {ops : DoubleOps D}.
Local Open Scope dbl_scope.

(** The [Snap::] globals the kernels read. *)
Record Snap : Type := {
  num_angles : nat;
  num_moments : Z;
  ec : list D; mu : list D; eta : list D; xi : list D; w : list D;
  hi : D; hj : D; hk : D;
  flux_fixup : bool;
  MMS_SOURCE : bool            (* source_layout == MMS_SOURCE *)
}.

(** What one iteration of the triple loop reads for its cell. *)
Record Cell : Type := {
  corner : Z;                  (* args->corner *)
  quad : MomentQuad D;         (* fa_qtot.read(dp) *)
  qim : list D;
  psii : list D;               (* incoming x face *)
  psij : list D;               (* incoming y face *)
  psik : list D;               (* incoming z face *)
  time_flux_in : list D;
  dinv : list D;
  t_xs : D;
  vdelt : D
}.

(** What it leaves behind. *)
Record CellResult : Type := {
  out_psii : list D;
  out_psij : list D;
  out_psik : list D;
  time_flux_out : option (list D);   (* [None]: not written *)
  flux_total : D;                    (* folded into flux *)
  fluxm_total : option (list D)      (* quad[1..], folded into fluxm *)
}.

Variable s : Snap.
Variable c : Cell.

Local Abbreviation N := (num_angles s).

(** *** The angular source, sweep.cc 251-265 *)

(** One pass of the inner angle loop for moment [l]. *)
Definition moment_pass (l : Z) (psi : list D) : option (list D) :=
  let corner_offset := (corner c * Z.of_nat N * num_moments s)%Z in
  let moment_offset := to_int (u32 (corner_offset + l * Z.of_nat N)) in
  tabulate_checked
    (fun ang =>
       match zget (ec s) (moment_offset + Z.of_nat ang), quad_at (quad c) l with
       | Some e, Some q => Some (get psi ang + e * q)
       | _, _ => None
       end)
    (seq 0 N).

(** [for (unsigned l = 1; 1 < Snap::num_moments; l++)]: the test reads
    the constant 1, not [l]. *)
Fixpoint cpu_moment_loop (fuel : nat) (l : Z) (psi : list D)
  : outcome (list D) :=
  match fuel with
  | O => OutOfFuel
  | S fuel' =>
      if (1 <? num_moments s)%Z then
        match moment_pass l psi with
        | Some psi' => cpu_moment_loop fuel' (u32 (l + 1)) psi'
        | None => OutOfBounds
        end
      else Returns psi
  end.

Definition cpu_angular_source (fuel : nat) : outcome (list D) :=
  let psi := tabulate N (fun _ => quad_0 (quad c)) in
  if (num_moments s >? 1)%Z then cpu_moment_loop fuel 1 psi
  else Returns psi.

(** The loop as the SSE and AVX kernels write it (sweep.cc 774, 1339):
    [for (unsigned l = 1; l < Snap::num_moments; l++)]. *)
Fixpoint bounded_moment_loop (fuel : nat) (l : Z) (psi : list D)
  : outcome (list D) :=
  match fuel with
  | O => OutOfFuel
  | S fuel' =>
      if (l <? u32 (num_moments s))%Z then
        match moment_pass l psi with
        | Some psi' => bounded_moment_loop fuel' (u32 (l + 1)) psi'
        | None => OutOfBounds
        end
      else Returns psi
  end.

(** sweep.cc 267-274 *)
Definition add_mms_source (psi : list D) : list D :=
  if MMS_SOURCE s then tabulate N (fun ang => get psi ang + get (qim c) ang)
  else psi.

(** *** The initial solution, sweep.cc 276-379 *)
Definition initial_solution (psi : list D) : list D :=
  let pc := tabulate N (fun ang => get psi ang) in
  let pc := tabulate N (fun ang =>
              get pc ang + get (psii c) ang * get (mu s) ang * hi s) in
  let pc := tabulate N (fun ang =>
              get pc ang + get (psij c) ang * get (eta s) ang * hj s) in
  let pc := tabulate N (fun ang =>
              get pc ang + get (psik c) ang * get (xi s) ang * hk s) in
  let pc := if vdelt c !=? d_0
            then tabulate N (fun ang =>
                   get pc ang + vdelt c * get (time_flux_in c) ang)
            else pc in
  tabulate N (fun ang => get pc ang * get (dinv c) ang).

(** *** The fixup, sweep.cc 381-475 *)
Record fixup_state : Type := {
  pc : list D;
  hv_x : list D; hv_y : list D; hv_z : list D; hv_t : list D;
  fx_hv_x : list D; fx_hv_y : list D; fx_hv_z : list D; fx_hv_t : list D;
  old_negative_fluxes : Z
}.

(** The [hv] start at 1.0.  The [fx_hv] buffers are [malloc]ed; each slot
    is written before it is read, so their first content is immaterial. *)
Definition fixup_init (pc0 : list D) : fixup_state :=
  let ones := tabulate N (fun _ => d_1) in
  let blank := tabulate N (fun _ => d_0) in
  {| pc := pc0;
     hv_x := ones; hv_y := ones; hv_z := ones; hv_t := ones;
     fx_hv_x := blank; fx_hv_y := blank; fx_hv_z := blank; fx_hv_t := blank;
     old_negative_fluxes := 0 |}.

(** One of the counting loops (396-402): the outgoing flux of a face, the
    flags cleared where it is negative, and how many were negative. *)
Definition face_flux (pc incoming : list D) : list D :=
  tabulate N (fun ang => d_2 * get pc ang - get incoming ang).

Definition clear_flags (fx hv : list D) : list D :=
  tabulate N (fun ang => if get fx ang <? d_0 then d_0 else get hv ang).

Definition count_negative (fx : list D) : Z :=
  count_loop N (fun ang => get fx ang <? d_0).

(** sweep.cc 394-425: the state after the four counting loops, and
    [negative_fluxes] (an [unsigned]). *)
Definition count_pass (st : fixup_state) : fixup_state * Z :=
  let fx := face_flux (pc st) (psii c) in
  let fy := face_flux (pc st) (psij c) in
  let fz := face_flux (pc st) (psik c) in
  let ft := face_flux (pc st) (time_flux_in c) in
  let timed := vdelt c !=? d_0 in
  let negative_fluxes :=
    u32 (count_negative fx + count_negative fy + count_negative fz
         + (if timed then count_negative ft else 0)) in
  ({| pc := pc st;
      hv_x := clear_flags fx (hv_x st);
      hv_y := clear_flags fy (hv_y st);
      hv_z := clear_flags fz (hv_z st);
      hv_t := if timed then clear_flags ft (hv_t st) else hv_t st;
      fx_hv_x := fx; fx_hv_y := fy; fx_hv_z := fz;
      fx_hv_t := if timed then ft else fx_hv_t st;
      old_negative_fluxes := old_negative_fluxes st |},
   negative_fluxes).

(** sweep.cc 429-460: the solution recomputed from the flags. *)
Definition recompute_pc (psi hx hy hz ht : list D) : list D :=
  tabulate N (fun ang =>
    let pc :=
      if vdelt c !=? d_0 then
        get psi ang + d_half * (
          get (psii c) ang * get (mu s) ang * hi s * (d_1 + get hx ang) +
          get (psij c) ang * get (eta s) ang * hj s * (d_1 + get hy ang) +
          get (psik c) ang * get (xi s) ang * hk s * (d_1 + get hz ang) +
          get (time_flux_in c) ang * vdelt c * (d_1 + get ht ang))
      else
        get psi ang + d_half * (
          get (psii c) ang * get (mu s) ang * hi s * (d_1 + get hx ang) +
          get (psij c) ang * get (eta s) ang * hj s * (d_1 + get hy ang) +
          get (psik c) ang * get (xi s) ang * hk s * (d_1 + get hz ang)) in
    let den :=
      if pc <=? d_0 then d_0
      else if vdelt c !=? d_0 then
        t_xs c + get (mu s) ang * hi s * get hx ang +
                 get (eta s) ang * hj s * get hy ang +
                 get (xi s) ang * hk s * get hz ang + vdelt c * get ht ang
      else
        t_xs c + get (mu s) ang * hi s * get hx ang +
                 get (eta s) ang * hj s * get hy ang +
                 get (xi s) ang * hk s * get hz ang in
    if den <? d_tolr then d_0 else pc / den).

(** The rest of a pass that does not break (428-460). *)
Definition next_pass (psi : list D) (flagged : fixup_state)
           (negative_fluxes : Z) : fixup_state :=
  {| pc := recompute_pc psi (hv_x flagged) (hv_y flagged)
                        (hv_z flagged) (hv_t flagged);
     hv_x := hv_x flagged; hv_y := hv_y flagged;
     hv_z := hv_z flagged; hv_t := hv_t flagged;
     fx_hv_x := fx_hv_x flagged; fx_hv_y := fx_hv_y flagged;
     fx_hv_z := fx_hv_z flagged; fx_hv_t := fx_hv_t flagged;
     old_negative_fluxes := negative_fluxes |}.

(** [while (true)], sweep.cc 393-461; returns the state at the [break]. *)
Fixpoint fixup_loop (fuel : nat) (psi : list D) (st : fixup_state)
  : outcome fixup_state :=
  match fuel with
  | O => OutOfFuel
  | S fuel' =>
      let '(flagged, negative_fluxes) := count_pass st in
      if (negative_fluxes =? old_negative_fluxes st)%Z then Returns flagged
      else fixup_loop fuel' psi (next_pass psi flagged negative_fluxes)
  end.

(** The passes of the loop one by one: whether the pass that starts in
    [st] breaks, the state it otherwise hands to the next pass, and the
    state in which pass [k] starts (passes are numbered from 0). *)
Definition breaks (st : fixup_state) : bool :=
  (snd (count_pass st) =? old_negative_fluxes st)%Z.

Definition fixup_step (psi : list D) (st : fixup_state) : fixup_state :=
  next_pass psi (fst (count_pass st)) (snd (count_pass st)).

Fixpoint state_before_pass (psi : list D) (k : nat) (st : fixup_state)
  : fixup_state :=
  match k with
  | O => st
  | S k' => state_before_pass psi k' (fixup_step psi st)
  end.

(** Notions of the termination argument.  The flags as booleans: the
    buffer an assignment stands for, the assignment after a counting loop,
    a state whose four flag buffers stand for four assignments, and how
    many flags are still set. *)
Definition flag_buffer (b : nat -> bool) : list D :=
  tabulate N (fun a => if b a then d_1 else d_0).

Definition cleared (fx : list D) (b : nat -> bool) : nat -> bool :=
  fun a => b a && negb (get fx a <? d_0).

Record flagged_by (st : fixup_state) (bx by_ bz bt : nat -> bool) : Prop := {
  fb_x : hv_x st = flag_buffer bx;
  fb_y : hv_y st = flag_buffer by_;
  fb_z : hv_z st = flag_buffer bz;
  fb_t : hv_t st = flag_buffer bt
}.

Definition set_among (b : nat -> bool) (l : list nat) : nat :=
  length (filter b l).

(** What a pass is said to count: the angles of a face whose outgoing
    flux [2 pc - incoming] is negative, and how many there are over the
    three faces and, when [vdelt != 0], the time term. *)
Definition negative_angles (pc incoming : list D) : list nat :=
  filter (fun ang => d_2 * get pc ang - get incoming ang <? d_0) (seq 0 N).

Definition negative_outgoing (pc : list D) : nat :=
  (length (negative_angles pc (psii c))
   + length (negative_angles pc (psij c))
   + length (negative_angles pc (psik c))
   + (if vdelt c !=? d_0
      then length (negative_angles pc (time_flux_in c)) else 0))%nat.

Definition weight (bx by_ bz bt : nat -> bool) : nat :=
  (set_among bx (seq 0 N) + set_among by_ (seq 0 N)
   + set_among bz (seq 0 N) + set_among bt (seq 0 N))%nat.

(** From the second pass on, [pc] is the solution recomputed from the
    flags. *)
Definition recomputed (psi : list D) (st : fixup_state) : Prop :=
  pc st = recompute_pc psi (hv_x st) (hv_y st) (hv_z st) (hv_t st).

(** Every flag is 0.0 or 1.0. *)
Definition flags_01 (hv : list D) : Prop :=
  forall a, (a < N)%nat -> get hv a = d_0 \/ get hv a = d_1.

Definition all_flags_01 (st : fixup_state) : Prop :=
  flags_01 (hv_x st) /\ flags_01 (hv_y st) /\
  flags_01 (hv_z st) /\ flags_01 (hv_t st).

(** The faces a branch hands on: [psii], [psij], [psik] and, when it is
    written, [time_flux_out]. *)
Definition faces : Type :=
  (list D * list D * list D * option (list D))%type.

(** sweep.cc 462-475 *)
Definition fixup_faces (st : fixup_state) : faces :=
  (tabulate N (fun ang => get (fx_hv_x st) ang * get (hv_x st) ang),
   tabulate N (fun ang => get (fx_hv_y st) ang * get (hv_y st) ang),
   tabulate N (fun ang => get (fx_hv_z st) ang * get (hv_z st) ang),
   if vdelt c !=? d_0
   then Some (tabulate N (fun ang => get (fx_hv_t st) ang * get (hv_t st) ang))
   else None).

(** sweep.cc 476-492 *)
Definition no_fixup (pc : list D) : faces :=
  (tabulate N (fun ang => d_2 * get pc ang - get (psii c) ang),
   tabulate N (fun ang => d_2 * get pc ang - get (psij c) ang),
   tabulate N (fun ang => d_2 * get pc ang - get (psik c) ang),
   if vdelt c !=? d_0
   then Some (tabulate N (fun ang =>
                d_2 * get pc ang - get (time_flux_in c) ang))
   else None).

(** *** The reductions, sweep.cc 565-590 *)
Definition cpu_flux_total (pc : list D) : list D * D :=
  let psi := tabulate N (fun ang => get (w s) ang * get pc ang) in
  (psi, sum_loop N (fun ang => get psi ang)).

(** [quad[l] = sum over ang of ec[offset+ang] * psi[ang]] for one [l]. *)
Definition moment_total (psi : list D) (l : Z) : option D :=
  let offset := u32 (l * Z.of_nat N
                     + corner c * Z.of_nat N * num_moments s) in
  match quad_at (quad c) l with
  | None => None                      (* quad[l] = total, past the quad *)
  | Some _ =>
      fold_left (fun total ang =>
        match total, zget (ec s) (offset + Z.of_nat ang) with
        | Some t, Some e => Some (t + e * get psi ang)
        | _, _ => None
        end) (seq 0 N) (Some d_0)
  end.

Definition cpu_fluxm_total (psi : list D) : outcome (option (list D)) :=
  if (num_moments s >? 1)%Z then
    match tabulate_checked
            (fun l => moment_total psi (Z.of_nat l))
            (seq 1 (Z.to_nat (num_moments s) - 1)) with
    | Some qs => Returns (Some qs)
    | None => OutOfBounds
    end
  else Returns None.

(** *** One cell of [MiniKBATask::cpu_implementation] *)
Definition cpu_implementation_cell (fuel : nat) : outcome CellResult :=
  bind (cpu_angular_source fuel) (fun psi =>
  let psi := add_mms_source psi in
  let pc0 := initial_solution psi in
  bind (if flux_fixup s
        then bind (fixup_loop fuel psi (fixup_init pc0))
                  (fun st => Returns (pc st, fixup_faces st))
        else Returns (pc0, no_fixup pc0)) (fun r =>
  let '(pc, (oi, oj, ok, tfo)) := r in
  let '(wpsi, total) := cpu_flux_total pc in
  bind (cpu_fluxm_total wpsi) (fun qs =>
  Returns {| out_psii := oi; out_psij := oj; out_psik := ok;
             time_flux_out := tfo;
             flux_total := total; fluxm_total := qs |}))).

(** *** The SSE and AVX kernels, sweep.cc 628-1177 and 1193-1794

    The two functions are one text but for the width of a vector (two
    lanes of [__m128d], four of [__m256d]), the intrinsics' prefix, and
    the horizontal sum that ends a reduction.  The model is written once
    over the width [W] and that sum.  A vector is the list of its lanes,
    lane 0 first; a comparison mask is a [bool] for each lane. *)
Section Simd.
Variable W : nat.
Variable hsum : list D -> D.

Definition vec : Type := list D.

Definition lanewise (op : D -> D -> D) (a b : vec) : vec :=
  map (fun p : D * D => op (fst p) (snd p)) (combine a b).

Definition v_add : vec -> vec -> vec := lanewise dadd.   (* _add_pd *)
Definition v_sub : vec -> vec -> vec := lanewise dsub.   (* _sub_pd *)
Definition v_mul : vec -> vec -> vec := lanewise dmul.   (* _mul_pd *)
Definition v_div : vec -> vec -> vec := lanewise ddiv.   (* _div_pd *)
Definition v_set1 (x : D) : vec := repeat x W.           (* _set1_pd *)

(** [_cmp_pd(a, b, _CMP_GE_OS)] *)
Definition v_cmp_ge (a b : vec) : list bool :=
  map (fun p : D * D => fst p >=? snd p) (combine a b).

(** [_and_pd(mask, v)]: lanes where the mask is clear become +0.0. *)
Definition v_and (m : list bool) (v : vec) : vec :=
  map (fun p : bool * D => if fst p then snd p else d_0) (combine m v).

(** [_or_pd(_and_pd(m, a), _andnot_pd(m, b))] *)
Definition v_select (m : list bool) (a b : vec) : vec :=
  map (fun p : bool * (D * D) =>
         if fst p then fst (snd p) else snd (snd p))
      (combine m (combine a b)).

(** The lanes of the mask that are clear, as the [_extract_epi32] sums
    count them. *)
Definition v_count_clear (m : list bool) : Z :=
  fold_left (fun (n : Z) (b : bool) => if b then n else (n + 1)%Z) m 0%Z.

(** [_set_pd(t[base+W-1], ..., t[base])], reads checked. *)
Definition v_load (t : list D) (base : Z) : option vec :=
  tabulate_checked (fun j => zget t (base + Z.of_nat j)) (seq 0 W).

(** [num_vec_angles] *)
Definition nv : nat := (N / W)%nat.

(** The cell's doubles seen through a vector pointer. *)
Definition vectors (l : list D) : list vec :=
  map (fun ang => map (fun j => get l (W * ang + j)) (seq 0 W)) (seq 0 nv).

Definition vtab (f : nat -> vec) : list vec := map f (seq 0 nv).
Definition vget (a : list vec) (ang : nat) : vec := nth ang a [].

(** The angular source, 767-791 *)
Definition simd_moment_pass (l : Z) (psi : list vec) : option (list vec) :=
  let corner_offset := (corner c * Z.of_nat N * num_moments s)%Z in
  let moment_offset := to_int (u32 (corner_offset + l * Z.of_nat N)) in
  tabulate_checked
    (fun ang =>
       match v_load (ec s) (moment_offset + Z.of_nat (W * ang)),
             quad_at (quad c) l with
       | Some e, Some q => Some (v_add (vget psi ang) (v_mul e (v_set1 q)))
       | _, _ => None
       end)
    (seq 0 nv).

Fixpoint simd_moment_loop (fuel : nat) (l : Z) (psi : list vec)
  : outcome (list vec) :=
  match fuel with
  | O => OutOfFuel
  | S fuel' =>
      if (l <? u32 (num_moments s))%Z then
        match simd_moment_pass l psi with
        | Some psi' => simd_moment_loop fuel' (u32 (l + 1)) psi'
        | None => OutOfBounds
        end
      else Returns psi
  end.

Definition simd_angular_source (fuel : nat) : outcome (list vec) :=
  let psi := vtab (fun _ => v_set1 (quad_0 (quad c))) in
  bind (if (num_moments s >? 1)%Z then simd_moment_loop fuel 1 psi
        else Returns psi) (fun psi =>
  Returns (if MMS_SOURCE s
           then vtab (fun ang => v_add (vget psi ang)
                                       (vget (vectors (qim c)) ang))
           else psi)).

(** One of the three loops that add a face term to [pc] (819-822,
    851-854, 883-886), run for [ang] below [bound]:
    [pc[ang] = pc[ang] + incoming[ang] * table[W*ang ..] * h]. *)
Definition axis_loop (bound : nat) (pc incoming : list vec)
           (table : list D) (h : D) : option (list vec) :=
  tabulate_checked
    (fun ang =>
       match nth_error pc ang, nth_error incoming ang,
             v_load table (Z.of_nat (W * ang)) with
       | Some p, Some i, Some t =>
           Some (v_add p (v_mul (v_mul i t) (v_set1 h)))
       | _, _, _ => None
       end)
    (seq 0 bound).

(** The initial solution, 793-900.  The x and y loops run to
    [num_vec_angles]; the z loop runs to [Snap::num_angles] over the
    [num_vec_angles] vectors of [pc], so that it reads and writes
    [pc[ang]] past the allocation. *)
Definition simd_initial_solution (psi : list vec) : outcome (list vec) :=
  let pc := vtab (fun ang => vget psi ang) in
  bind (checked (axis_loop nv pc (vectors (psii c)) (mu s) (hi s)))
       (fun pc =>
  bind (checked (axis_loop nv pc (vectors (psij c)) (eta s) (hj s)))
       (fun pc =>
  bind (checked (axis_loop N pc (vectors (psik c)) (xi s) (hk s)))
       (fun pc =>
  let pc := if vdelt c !=? d_0
            then vtab (fun ang =>
                   v_add (vget pc ang)
                         (v_mul (v_set1 (vdelt c))
                                (vget (vectors (time_flux_in c)) ang)))
            else pc in
  Returns (vtab (fun ang =>
             v_mul (vget pc ang) (vget (vectors (dinv c)) ang)))))).

(** The fixup, 902-1051 *)
Record vfixup_state : Type := {
  vpc : list vec;
  vhv_x : list vec; vhv_y : list vec; vhv_z : list vec; vhv_t : list vec;
  vfx_x : list vec; vfx_y : list vec; vfx_z : list vec; vfx_t : list vec;
  vold_negative_fluxes : Z
}.

Definition vfixup_init (pc0 : list vec) : vfixup_state :=
  let ones := vtab (fun _ => v_set1 d_1) in
  let blank := vtab (fun _ => v_set1 d_0) in
  {| vpc := pc0;
     vhv_x := ones; vhv_y := ones; vhv_z := ones; vhv_t := ones;
     vfx_x := blank; vfx_y := blank; vfx_z := blank; vfx_t := blank;
     vold_negative_fluxes := 0 |}.

Definition vface_flux (pc incoming : list vec) : list vec :=
  vtab (fun ang => v_sub (v_mul (v_set1 d_2) (vget pc ang))
                         (vget incoming ang)).

Definition vclear_flags (fx hv : list vec) : list vec :=
  vtab (fun ang =>
          v_and (v_cmp_ge (vget fx ang) (v_set1 d_0)) (vget hv ang)).

Definition vcount_negative (fx : list vec) : Z :=
  fold_left (fun n ang =>
               (n + v_count_clear (v_cmp_ge (vget fx ang) (v_set1 d_0)))%Z)
            (seq 0 nv) 0%Z.

Definition vcount_pass (st : vfixup_state) : vfixup_state * Z :=
  let fx := vface_flux (vpc st) (vectors (psii c)) in
  let fy := vface_flux (vpc st) (vectors (psij c)) in
  let fz := vface_flux (vpc st) (vectors (psik c)) in
  let ft := vface_flux (vpc st) (vectors (time_flux_in c)) in
  let timed := vdelt c !=? d_0 in
  let negative_fluxes :=
    u32 (vcount_negative fx + vcount_negative fy + vcount_negative fz
         + (if timed then vcount_negative ft else 0)) in
  ({| vpc := vpc st;
      vhv_x := vclear_flags fx (vhv_x st);
      vhv_y := vclear_flags fy (vhv_y st);
      vhv_z := vclear_flags fz (vhv_z st);
      vhv_t := if timed then vclear_flags ft (vhv_t st) else vhv_t st;
      vfx_x := fx; vfx_y := fy; vfx_z := fz;
      vfx_t := if timed then ft else vfx_t st;
      vold_negative_fluxes := vold_negative_fluxes st |},
   negative_fluxes).

(** [_set_pd] of a table in the recomputation; the loop bound keeps
    the reads inside the table, a short table reads as 0.0. *)
Definition v_table (t : list D) (ang : nat) : vec :=
  map (fun j => get t (W * ang + j)) (seq 0 W).

(** 968-1033 *)
Definition vrecompute_pc (psi hx hy hz ht : list vec) : list vec :=
  vtab (fun ang =>
    let one := v_set1 d_1 in
    let term (incoming : list D) (table : list D) (h : D) (hv : list vec) :=
      v_mul (vget (vectors incoming) ang)
            (v_mul (v_table table ang)
                   (v_mul (v_set1 h) (v_add one (vget hv ang)))) in
    let sum := term (psii c) (mu s) (hi s) hx in
    let sum := v_add sum (term (psij c) (eta s) (hj s) hy) in
    let sum := v_add sum (term (psik c) (xi s) (hk s) hz) in
    let sum :=
      if vdelt c !=? d_0
      then v_add sum (v_mul (vget (vectors (time_flux_in c)) ang)
                            (v_mul (v_set1 (vdelt c))
                                   (v_add one (vget ht ang))))
      else sum in
    let pc := v_add (vget psi ang) (v_mul (v_set1 d_half) sum) in
    let dterm (table : list D) (h : D) (hv : list vec) :=
      v_mul (v_mul (v_table table ang) (v_set1 h)) (vget hv ang) in
    let faces := v_add (v_add (dterm (mu s) (hi s) hx)
                              (dterm (eta s) (hj s) hy))
                       (dterm (xi s) (hk s) hz) in
    let den :=
      if vdelt c !=? d_0
      then v_add (v_set1 (t_xs c))
                 (v_add faces (v_mul (v_set1 (vdelt c)) (vget ht ang)))
      else v_add (v_set1 (t_xs c)) faces in
    let pc_ge := v_cmp_ge pc (v_set1 d_0) in
    let den := v_and pc_ge den in
    let den_ge := v_cmp_ge den (v_set1 d_tolr) in
    v_select den_ge (v_div pc den) (v_set1 d_0)).

Fixpoint simd_fixup_loop (fuel : nat) (psi : list vec) (st : vfixup_state)
  : outcome vfixup_state :=
  match fuel with
  | O => OutOfFuel
  | S fuel' =>
      let '(flagged, negative_fluxes) := vcount_pass st in
      if (negative_fluxes =? vold_negative_fluxes st)%Z
      then Returns flagged
      else simd_fixup_loop fuel' psi
             {| vpc := vrecompute_pc psi (vhv_x flagged) (vhv_y flagged)
                                     (vhv_z flagged) (vhv_t flagged);
                vhv_x := vhv_x flagged; vhv_y := vhv_y flagged;
                vhv_z := vhv_z flagged; vhv_t := vhv_t flagged;
                vfx_x := vfx_x flagged; vfx_y := vfx_y flagged;
                vfx_z := vfx_z flagged; vfx_t := vfx_t flagged;
                vold_negative_fluxes := negative_fluxes |}
  end.

Definition vfaces : Type :=
  (list vec * list vec * list vec * option (list vec))%type.

(** 1035-1051 *)
Definition simd_fixup_faces (st : vfixup_state) : vfaces :=
  (vtab (fun ang => v_mul (vget (vfx_x st) ang) (vget (vhv_x st) ang)),
   vtab (fun ang => v_mul (vget (vfx_y st) ang) (vget (vhv_y st) ang)),
   vtab (fun ang => v_mul (vget (vfx_z st) ang) (vget (vhv_z st) ang)),
   if vdelt c !=? d_0
   then Some (vtab (fun ang =>
                v_mul (vget (vfx_t st) ang) (vget (vhv_t st) ang)))
   else None).

(** 1053-1069 *)
Definition simd_no_fixup (pc : list vec) : vfaces :=
  (vface_flux pc (vectors (psii c)),
   vface_flux pc (vectors (psij c)),
   vface_flux pc (vectors (psik c)),
   if vdelt c !=? d_0
   then Some (vface_flux pc (vectors (time_flux_in c)))
   else None).

(** The reductions, 1140-1158: the sums run over [psi], which still
    holds the angular source. *)
Definition simd_flux_total (psi : list vec) : D :=
  hsum (fold_left (fun vec_total ang => v_add vec_total (vget psi ang))
                  (seq 0 nv) (v_set1 d_0)).

Definition simd_moment_total (psi : list vec) (l : Z) : option D :=
  let offset := u32 (l * Z.of_nat N
                     + corner c * Z.of_nat N * num_moments s) in
  match quad_at (quad c) l with
  | None => None
  | Some _ =>
      option_map hsum
        (fold_left (fun vec_total ang =>
           match vec_total,
                 v_load (ec s) (offset + Z.of_nat (W * ang)) with
           | Some t, Some e => Some (v_add t (v_mul (vget psi ang) e))
           | _, _ => None
           end) (seq 0 nv) (Some (v_set1 d_0)))
  end.

Definition simd_fluxm_total (psi : list vec) : outcome (option (list D)) :=
  if (num_moments s >? 1)%Z then
    match tabulate_checked
            (fun l => simd_moment_total psi (Z.of_nat l))
            (seq 1 (Z.to_nat (num_moments s) - 1)) with
    | Some qs => Returns (Some qs)
    | None => OutOfBounds
    end
  else Returns None.

(** One cell of the vector kernel. *)
Definition simd_implementation_cell (fuel : nat) : outcome CellResult :=
  if negb (N mod W =? 0)%nat then Aborted      (* assert, 725 and 1290 *)
  else
  bind (simd_angular_source fuel) (fun psi =>
  bind (simd_initial_solution psi) (fun pc0 =>
  bind (if flux_fixup s
        then bind (simd_fixup_loop fuel psi (vfixup_init pc0))
                  (fun st => Returns (simd_fixup_faces st))
        else Returns (simd_no_fixup pc0)) (fun r =>
  let '(oi, oj, ok, tfo) := r in
  let total := simd_flux_total psi in
  bind (simd_fluxm_total psi) (fun qs =>
  Returns {| out_psii := concat oi; out_psij := concat oj;
             out_psik := concat ok;
             time_flux_out := option_map (@concat D) tfo;
             flux_total := total; fluxm_total := qs |})))).
End Simd.

(** [_mm_cvtsd_f64(_mm_hadd_pd(v, v))], sweep.cc 1144 *)
Definition _mm_hadd_pd (a b : list D) : list D :=
  [get a 0 + get a 1; get b 0 + get b 1].

Definition _mm_cvtsd_f64 (v : list D) : D := get v 0.

Definition sse_hsum (v : list D) : D := _mm_cvtsd_f64 (_mm_hadd_pd v v).

(** sweep.cc 1756-1758 *)
Definition _mm256_hadd_pd (a b : list D) : list D :=
  [get a 0 + get a 1; get b 0 + get b 1;
   get a 2 + get a 3; get b 2 + get b 3].

Definition _mm256_extractf128_pd_0 (v : list D) : list D :=
  [get v 0; get v 1].

Definition avx_hsum (v : list D) : D :=
  let vec_total := _mm256_hadd_pd v v in
  _mm_cvtsd_f64 (_mm256_extractf128_pd_0 (_mm256_hadd_pd vec_total vec_total)).

Definition sse_implementation_cell : nat -> outcome CellResult :=
  simd_implementation_cell 2 sse_hsum.

Definition avx_implementation_cell : nat -> outcome CellResult :=
  simd_implementation_cell 4 avx_hsum.
End Sweep.

(** *** The sweep of a chunk, [MiniKBATask::cpu_implementation]
        (sweep.cc 117-614)

    The task runs the cell kernel on every cell of its subgrid, walking
    pencils along x, then y, then z from the corner the sweep starts in.
    The flux leaving a cell through its x face stays in [psii] for the
    next cell, through its y face it is parked in [yflux_pencil], through
    its z face in [zflux_plane]; on the first cells of an axis the
    incoming flux is read from the ghost regions, on the last cells the
    outgoing flux is written to them. *)
Section Chunk.
Context {D : Type} {ops : DoubleOps D}.

Definition point : Type := (Z * Z * Z)%type.

(** The regions the task reads, by point. *)
Record Regions : Type := {
  fa_qtot : point -> MomentQuad D;
  fa_qim : point -> list D;
  fa_dinv : point -> list D;
  fa_t_xs : point -> D;
  fa_time_flux_in : point -> list D;
  fa_ghostx_in : point -> list D;
  fa_ghosty_in : point -> list D;
  fa_ghostz_in : point -> list D
}.

(** The task's arguments, its subgrid and the globals of the launch. *)
Record Launch : Type := {
  args_corner : Z;                 (* args->corner *)
  bounds_lo : point;               (* subgrid_bounds.lo *)
  bounds_hi : point;               (* subgrid_bounds.hi *)
  num_dims : Z;
  nx_per_chunk : Z; ny_per_chunk : Z; nz_per_chunk : Z;
  region_vdelt : D                 (* the vdelt region, read once *)
}.

(** What the task writes: the stores to [time_flux_out] and to the
    outgoing ghost regions, and the folds into [flux] and [fluxm]. *)
Inductive store : Type :=
| write_time_flux_out (p : point) (v : list D)
| write_ghostx_out (p : point) (v : list D)
| write_ghosty_out (p : point) (v : list D)
| write_ghostz_out (p : point) (v : list D)
| fold_flux (p : point) (total : D)
| fold_fluxm (p : point) (quad : list D).

Variable s : Snap (D := D).
Variable l : Launch.
Variable R : Regions.

Definition stride_x_positive : bool := negb (Z.land (args_corner l) 1 =? 0)%Z.
Definition stride_y_positive : bool := negb (Z.land (args_corner l) 2 =? 0)%Z.
Definition stride_z_positive : bool := negb (Z.land (args_corner l) 4 =? 0)%Z.

Definition x_range : nat :=
  Z.to_nat (fst (fst (bounds_hi l)) - fst (fst (bounds_lo l)) + 1).
Definition y_range : nat :=
  Z.to_nat (snd (fst (bounds_hi l)) - snd (fst (bounds_lo l)) + 1).
Definition z_range : nat :=
  Z.to_nat (snd (bounds_hi l) - snd (bounds_lo l) + 1).

(** sweep.cc 237-249: the origin is the low or the high end of each axis,
    and [x], [y], [z] are added to it or taken from it. *)
Definition axis_point (positive : bool) (lo hi : Z) (k : nat) : Z :=
  if positive then (lo + Z.of_nat k)%Z else (hi - Z.of_nat k)%Z.

Definition local_point (x y z : nat) : point :=
  let '(lo0, lo1, lo2) := bounds_lo l in
  let '(hi0, hi1, hi2) := bounds_hi l in
  (axis_point stride_x_positive lo0 hi0 x,
   axis_point stride_y_positive lo1 hi1 y,
   axis_point stride_z_positive lo2 hi2 z).

(** The ghost cell a first cell reads: one step against the sweep. *)
Definition upstream (positive : bool) (k : Z) : Z :=
  if positive then (k - 1)%Z else (k + 1)%Z.

Definition ghostx_point (p : point) : point :=
  let '(p0, p1, p2) := p in (upstream stride_x_positive p0, p1, p2).
Definition ghosty_point (p : point) : point :=
  let '(p0, p1, p2) := p in (p0, upstream stride_y_positive p1, p2).
Definition ghostz_point (p : point) : point :=
  let '(p0, p1, p2) := p in (p0, p1, upstream stride_z_positive p2).

(** The cell at [local_point x y z] with the fluxes that enter it. *)
Definition cell_of (x y z : nat) (psii_in psij_in psik_in : list D) : Cell (D := D) :=
  let p := local_point x y z in
  {| corner := args_corner l;
     quad := fa_qtot R p;
     qim := fa_qim R p;
     psii := psii_in;
     psij := psij_in;
     psik := psik_in;
     time_flux_in := fa_time_flux_in R p;
     dinv := fa_dinv R p;
     t_xs := fa_t_xs R p;
     vdelt := region_vdelt l |}.

(** The flux entering a first cell of an axis (sweep.cc 281-299, 303-329,
    333-359). *)
Definition ghostx_in (x y z : nat) : list D :=
  fa_ghostx_in R (ghostx_point (local_point x y z)).
Definition ghosty_in (x y z : nat) : list D :=
  fa_ghosty_in R (ghosty_point (local_point x y z)).
Definition ghostz_in (x y z : nat) : list D :=
  fa_ghostz_in R (ghostz_point (local_point x y z)).

(** What the task stores for one cell, in program order (sweep.cc 469-474
    or 485-491, 493-563, 565-590). *)
Definition cell_stores (x y z : nat) (r : CellResult (D := D)) : list store :=
  let p := local_point x y z in
  (match time_flux_out r with
   | Some t => [write_time_flux_out p t]
   | None => []
   end)
  ++ (if (Z.of_nat x =? nx_per_chunk l - 1)%Z
      then [write_ghostx_out p (out_psii r)] else [])
  ++ (if (Z.of_nat y =? ny_per_chunk l - 1)%Z
      then [write_ghosty_out p (out_psij r)] else [])
  ++ (if (Z.of_nat z =? nz_per_chunk l - 1)%Z
      then [write_ghostz_out p (out_psik r)] else [])
  ++ [fold_flux p (flux_total r)]
  ++ (match fluxm_total r with
      | Some q => [fold_fluxm p q]
      | None => []
      end).

(** The buffers that live across cells, and the stores made so far.
    [yflux_pencil] holds a block of [num_angles] doubles for every [x],
    [zflux_plane] one for every [(y, x)] at index [y * x_range + x]. *)
Record sweep_state : Type := {
  buf_psii : list D;
  yflux_pencil : list (list D);
  zflux_plane : list (list D);
  stores : list store
}.

(** One iteration of the triple loop. *)
Definition cell_step (fuel : nat) (x y z : nat) (st : sweep_state)
  : outcome sweep_state :=
  let psii_in :=
    if (x =? 0)%nat then ghostx_in x y z else buf_psii st in
  let psij_in :=
    if (y =? 0)%nat then ghosty_in x y z
    else nth x (yflux_pencil st) [] in
  let psik_in :=
    if (z =? 0)%nat then ghostz_in x y z
    else nth (y * x_range + x) (zflux_plane st) [] in
  bind (cpu_implementation_cell s (cell_of x y z psii_in psij_in psik_in) fuel)
       (fun r =>
  Returns
    {| buf_psii := out_psii r;
       yflux_pencil :=
         if (Z.of_nat y =? ny_per_chunk l - 1)%Z then yflux_pencil st
         else Outer.upd (yflux_pencil st) x (out_psij r);
       zflux_plane :=
         if (Z.of_nat z =? nz_per_chunk l - 1)%Z then zflux_plane st
         else Outer.upd (zflux_plane st) (y * x_range + x) (out_psik r);
       stores := stores st ++ cell_stores x y z r |}).

Definition sweep_row (fuel : nat) (y z : nat) (st : sweep_state)
  : outcome sweep_state :=
  fold_left (fun r x => bind r (cell_step fuel x y z))
            (seq 0 x_range) (Returns st).

Definition sweep_plane (fuel : nat) (z : nat) (st : sweep_state)
  : outcome sweep_state :=
  fold_left (fun r y => bind r (sweep_row fuel y z))
            (seq 0 y_range) (Returns st).

(** The task: its stores, in program order.  The buffers are [malloc]ed,
    so their first content is arbitrary: blocks [junk]. *)
Definition cpu_implementation (fuel : nat) (junk : list D)
  : outcome (list store) :=
  if negb (num_dims l =? 3)%Z then Aborted          (* assert, 128 *)
  else
    let st0 := {| buf_psii := junk;
                  yflux_pencil := repeat junk x_range;
                  zflux_plane := repeat junk (y_range * x_range);
                  stores := [] |} in
    bind (fold_left (fun r z => bind r (sweep_plane fuel z))
                    (seq 0 z_range) (Returns st0))
         (fun st => Returns (stores st)).

(** The flux that enters the cell at [(x, y, z)] when the cells before it
    have left the results [res]. *)
Definition entering_x (res : nat -> nat -> nat -> CellResult (D := D))
           (x y z : nat) : list D :=
  match x with
  | O => ghostx_in x y z
  | S x' => out_psii (res x' y z)
  end.

Definition entering_y (res : nat -> nat -> nat -> CellResult (D := D))
           (x y z : nat) : list D :=
  match y with
  | O => ghosty_in x y z
  | S y' => out_psij (res x y' z)
  end.

Definition entering_z (res : nat -> nat -> nat -> CellResult (D := D))
           (x y z : nat) : list D :=
  match z with
  | O => ghostz_in x y z
  | S z' => out_psik (res x y z')
  end.

(** The stores of the cells of a row, a plane and the chunk, in the order
    of the loops. *)
Definition chunk_stores (res : nat -> nat -> nat -> CellResult (D := D))
  : list store :=
  flat_map (fun z =>
    flat_map (fun y =>
      flat_map (fun x => cell_stores x y z (res x y z)) (seq 0 x_range))
      (seq 0 y_range))
    (seq 0 z_range).

(** The cells in the order the loops visit them, and the folds into
    [flux] among a list of stores. *)
Definition sweep_order : list (nat * nat * nat) :=
  flat_map (fun z =>
    flat_map (fun y => map (fun x => (x, y, z)) (seq 0 x_range))
             (seq 0 y_range))
    (seq 0 z_range).

Definition flux_folds (sts : list store) : list (point * D) :=
  flat_map (fun st => match st with
                      | fold_flux p total => [(p, total)]
                      | _ => []
                      end) sts.

Definition in_subgrid (p : point) : Prop :=
  let '(p0, p1, p2) := p in
  let '(lo0, lo1, lo2) := bounds_lo l in
  let '(hi0, hi1, hi2) := bounds_hi l in
  (lo0 <= p0 <= hi0)%Z /\ (lo1 <= p1 <= hi1)%Z /\ (lo2 <= p2 <= hi2)%Z.
End Chunk.
End Sweep.

(* ------------------------------------------------------------------ *)
(** ** Inputs on which the kernels are run below *)
(* ------------------------------------------------------------------ *)

Module Inputs.
Import Sweep.
Local Open Scope float_scope.

(** Four angles, isotropic weights; [ec] holds the 8 corners' tables. *)
Definition snap4 (moments : Z) (fixup mms : bool) : Snap (D := float) :=
  {| num_angles := 4;
     num_moments := moments;
     ec := repeat 0.5 (8 * 4 * Z.to_nat moments);
     mu := [0.25; 0.25; 0.25; 0.25];
     eta := [0.25; 0.25; 0.25; 0.25];
     xi := [0.25; 0.25; 0.25; 0.25];
     w := [0.25; 0.25; 0.25; 0.25];
     hi := 2; hj := 2; hk := 2;
     flux_fixup := fixup;
     MMS_SOURCE := mms |}.

(** A cell with a unit source, an MMS source on the last two angles, and
  incoming fluxes of 0.5 on every face;
  [dinv = 1 / (t_xs + mu*hi + eta*hj + xi*hk)]. *)
Definition cell4 : Cell (D := float) :=
{| corner := 0;
   quad := (1, 0.5, 0, 0);
   qim := [0; 0; 1; 1];
   psii := [0.5; 0.5; 0.5; 0.5];
   psij := [0.5; 0.5; 0.5; 0.5];
   psik := [0.5; 0.5; 0.5; 0.5];
   time_flux_in := [0; 0; 0; 0];
   dinv := [0.25; 0.25; 0.25; 0.25];
   t_xs := 2.5;
   vdelt := 0 |}.

(** One angle, fixup on. *)
Definition snap1 : Snap (D := float) :=
{| num_angles := 1;
   num_moments := 1;
   ec := repeat 0.5 8;
   mu := [0.25]; eta := [0.25]; xi := [0.25]; w := [1];
   hi := 2; hj := 2; hk := 2;
   flux_fixup := true;
   MMS_SOURCE := false |}.

(** A cell with a unit source whose incoming face fluxes are negative. *)
Definition cell_negative_incoming : Cell (D := float) :=
{| corner := 0;
   quad := (1, 0, 0, 0);
   qim := [];
   psii := [-8]; psij := [-8]; psik := [-8];
   time_flux_in := [0];
   dinv := [0.25];
   t_xs := 2.5;
   vdelt := 0 |}.

(** A cell with a negative source and vacuum faces (Scn-C of the
  specification). *)
Definition cell_negative_source : Cell (D := float) :=
{| corner := 0;
   quad := (-1, 0, 0, 0);
   qim := [];
   psii := [0]; psij := [0]; psik := [0];
   time_flux_in := [0];
   dinv := [0.25];
   t_xs := 2.5;
   vdelt := 0 |}.

(** A subgrid of 2 x 2 x 2 cells swept from its high corner in x, with the
  same data in every cell and vacuum around it. *)
Definition launch_2x2x2 : Launch (D := float) :=
{| args_corner := 6;
   bounds_lo := (4, 0, 0)%Z;
   bounds_hi := (5, 1, 1)%Z;
   num_dims := 3;
   nx_per_chunk := 2; ny_per_chunk := 2; nz_per_chunk := 2;
   region_vdelt := 0 |}.

Definition regions_uniform : Regions (D := float) :=
{| fa_qtot := fun _ => (1, 0, 0, 0);
   fa_qim := fun _ => [0; 0; 1; 1];
   fa_dinv := fun _ => [0.25; 0.25; 0.25; 0.25];
   fa_t_xs := fun _ => 2.5;
   fa_time_flux_in := fun _ => [0; 0; 0; 0];
   fa_ghostx_in := fun _ => [0; 0; 0; 0];
   fa_ghosty_in := fun _ => [0; 0; 0; 0];
   fa_ghostz_in := fun _ => [0; 0; 0; 0] |}.

(** The same sort of run in exact arithmetic: one angle, fixup on, a row
  of three cells with a negative source and vacuum around it. *)
Definition snap1_exact : Snap (D := Q) :=
{| num_angles := 1;
   num_moments := 1;
   ec := repeat (1 # 2)%Q 8;
   mu := [(1 # 4)%Q]; eta := [(1 # 4)%Q]; xi := [(1 # 4)%Q]; w := [1%Q];
   hi := 2%Q; hj := 2%Q; hk := 2%Q;
   flux_fixup := true;
   MMS_SOURCE := false |}.

Definition launch_row_exact : Launch (D := Q) :=
{| args_corner := 7;
   bounds_lo := (0, 0, 0)%Z;
   bounds_hi := (2, 0, 0)%Z;
   num_dims := 3;
   nx_per_chunk := 3; ny_per_chunk := 1; nz_per_chunk := 1;
   region_vdelt := 0%Q |}.

Definition regions_negative_source : Regions (D := Q) :=
{| fa_qtot := fun _ => ((-1)%Q, 0%Q, 0%Q, 0%Q);
   fa_qim := fun _ => [];
   fa_dinv := fun _ => [(2 # 5)%Q];
   fa_t_xs := fun _ => 1%Q;
   fa_time_flux_in := fun _ => [0%Q];
   fa_ghostx_in := fun _ => [0%Q];
   fa_ghosty_in := fun _ => [0%Q];
   fa_ghostz_in := fun _ => [0%Q] |}.

(** A unit cube of one cell per axis with extents 1, 2 and 4. *)
Definition grid_1_2_4 : MMS.Grid (D := float) :=
  {| MMS.lx := 1; MMS.ly := 2; MMS.lz := 4;
     MMS.nx := 1; MMS.ny := 1; MMS.nz := 1;
     MMS.nx_per_chunk := 1; MMS.ny_per_chunk := 1; MMS.nz_per_chunk := 1 |}.
End Inputs.

(* ================================================================== *)
(** * Part II. Properties *)
(* ================================================================== *)

(** ** Buffers *)

Section BufferFacts.
Context {D : Type} {ops : DoubleOps D}.

Lemma tabulate_length (n : nat) (f : nat -> D) :
  length (tabulate n f) = n.
Proof. unfold tabulate. now rewrite length_map, length_seq. Qed.

Lemma get_tabulate (n : nat) (f : nat -> D) (a : nat) :
  (a < n)%nat -> get (tabulate n f) a = f a.
Proof.
  intros Ha. unfold get, tabulate.
  rewrite (nth_indep _ d_0 (f 0%nat)) by (now rewrite length_map, length_seq).
  rewrite map_nth, seq_nth by assumption. reflexivity.
Qed.

Lemma tabulate_ext (n : nat) (f g : nat -> D) :
  (forall a, (a < n)%nat -> f a = g a) -> tabulate n f = tabulate n g.
Proof.
  intros H. unfold tabulate. apply map_ext_in.
  intros a Ha. apply in_seq in Ha. apply H. lia.
Qed.

Lemma count_loop_ext (n : nat) (p q : nat -> bool) :
  (forall a, (a < n)%nat -> p a = q a) -> count_loop n p = count_loop n q.
Proof.
  intros H. unfold count_loop.
  assert (G : forall l c, (forall a, In a l -> p a = q a) ->
            fold_left (fun c a => if p a then (c + 1)%Z else c) l c =
            fold_left (fun c a => if q a then (c + 1)%Z else c) l c).
  { induction l as [|a l IH]; intros c0 Hl; simpl; [reflexivity|].
    rewrite (Hl a) by now left. apply IH. intros b Hb. apply Hl. now right. }
  apply G. intros a Ha. apply in_seq in Ha. apply H. lia.
Qed.
End BufferFacts.

(* ------------------------------------------------------------------ *)
(** ** The moment loop of the CPU angular source *)
(* ------------------------------------------------------------------ *)

Section MomentLoop.
Context {D : Type} {ops : DoubleOps D}.
Variable s : Sweep.Snap (D := D).
Variable c : Sweep.Cell (D := D).

(** With more than one moment the loop test [1 < num_moments] holds at
    every iteration, whatever [l] has become. *)
Lemma cpu_moment_loop_step (fuel : nat) (l : Z) (psi : list D) :
  (1 < Sweep.num_moments s)%Z ->
  Sweep.cpu_moment_loop s c (S fuel) l psi =
  match Sweep.moment_pass s c l psi with
  | Some psi' => Sweep.cpu_moment_loop s c fuel (u32 (l + 1)) psi'
  | None => OutOfBounds
  end.
Proof.
  intros H. simpl. apply Z.ltb_lt in H. now rewrite H.
Qed.

Lemma cpu_moment_loop_stuck (fuel : nat) :
  (1 < Sweep.num_moments s)%Z ->
  forall l psi r, Sweep.cpu_moment_loop s c fuel l psi <> Returns r.
Proof.
  intros H. induction fuel as [|fuel IH]; intros l psi r.
  - discriminate.
  - rewrite cpu_moment_loop_step by assumption.
    destruct (Sweep.moment_pass s c l psi) as [psi'|].
    + apply IH.
    + discriminate.
Qed.
End MomentLoop.

(** C1 (the code departs from the claim).  In the CPU kernel, with
    [num_moments > 1], the moment loop of the angular source does not run
    [l] over [1, num_moments) and stop: for every step budget, every start
    [l] and every [psi] it is still looping or has read outside a buffer, and
    so the angular source and the whole cell never return. *)
Theorem cpu_angular_source_never_returns
        {D : Type} {ops : DoubleOps D}
        (s : Sweep.Snap (D := D)) (c : Sweep.Cell (D := D)) (fuel : nat) :
  (1 < Sweep.num_moments s)%Z ->
  (forall l psi r, Sweep.cpu_moment_loop s c fuel l psi <> Returns r) /\
  (forall psi, Sweep.cpu_angular_source s c fuel <> Returns psi) /\
  (forall r, Sweep.cpu_implementation_cell s c fuel <> Returns r).
Proof.
  intros H.
  assert (A : forall psi, Sweep.cpu_angular_source s c fuel <> Returns psi).
  { intros psi. unfold Sweep.cpu_angular_source.
    assert (G : (Sweep.num_moments s >? 1)%Z = true) by (apply Z.gtb_lt; lia).
    rewrite G. now apply cpu_moment_loop_stuck. }
  split; [now apply cpu_moment_loop_stuck|]. split; [exact A|].
  intros r. unfold Sweep.cpu_implementation_cell.
  destruct (Sweep.cpu_angular_source s c fuel) as [psi| | |] eqn:E;
    [now destruct (A psi) | discriminate ..].
Qed.

(* ------------------------------------------------------------------ *)
(** ** The fixup loop terminates *)
(* ------------------------------------------------------------------ *)

(** Flags as booleans: how many of the indices in [l] are still set. *)
Section Flags.
Import Sweep.
Variables b b' : nat -> bool.

Lemma set_among_mono (l : list nat) :
  (forall a, In a l -> b' a = true -> b a = true) ->
  (set_among b' l <= set_among b l)%nat.
Proof.
  unfold set_among. induction l as [|a l IH]; intros H; simpl; [lia|].
  assert (IH' : (length (filter b' l) <= length (filter b l))%nat).
  { apply IH. intros x Hx. apply H. now right. }
  destruct (b' a) eqn:E'.
  - rewrite (H a (or_introl eq_refl) E'). simpl. lia.
  - destruct (b a); simpl; lia.
Qed.

Lemma set_among_drop (l : list nat) :
  (forall a, In a l -> b' a = true -> b a = true) ->
  (forall a, In a l -> b' a = b a) \/
  (set_among b' l < set_among b l)%nat.
Proof.
  induction l as [|a l IH]; intros H.
  - left. intros a [].
  - assert (Hl : forall x, In x l -> b' x = true -> b x = true).
    { intros x Hx. apply H. now right. }
    pose proof (set_among_mono l Hl) as M.
    unfold set_among in *. simpl.
    destruct (b' a) eqn:E'.
    + rewrite (H a (or_introl eq_refl) E'). simpl.
      destruct (IH Hl) as [Eq|Lt].
      * left. intros x [<-|Hx].
        -- rewrite E'. symmetry. now apply H; [left|].
        -- now apply Eq.
      * right. lia.
    + destruct (b a) eqn:E.
      * right. simpl. lia.
      * destruct (IH Hl) as [Eq|Lt].
        -- left. intros x [<-|Hx]; [congruence | now apply Eq].
        -- right. lia.
Qed.
End Flags.

Section FixupTermination.
Context {D : Type} {ops : DoubleOps D}.
Variable s : Sweep.Snap (D := D).
Variable c : Sweep.Cell (D := D).
Variable psi : list D.

Local Abbreviation N := (Sweep.num_angles s).
Local Abbreviation fixup_state := (Sweep.fixup_state (D := D)).

Import Sweep.

Local Abbreviation flag_buffer := (Sweep.flag_buffer s).
Local Abbreviation flagged_by := (Sweep.flagged_by s).
Local Abbreviation weight := (Sweep.weight s).
Local Abbreviation recomputed := (Sweep.recomputed s c psi).

Lemma flag_buffer_ext (b b' : nat -> bool) :
  (forall a, In a (seq 0 N) -> b' a = b a) ->
  flag_buffer b' = flag_buffer b.
Proof.
  intros H. apply tabulate_ext. intros a Ha.
  rewrite H; [reflexivity | apply in_seq; lia].
Qed.

Lemma clear_flags_buffer (fx : list D) (b : nat -> bool) :
  clear_flags s fx (flag_buffer b) = flag_buffer (cleared fx b).
Proof.
  unfold clear_flags, Sweep.flag_buffer. apply tabulate_ext. intros a Ha.
  rewrite get_tabulate by assumption. unfold cleared.
  destruct (get fx a <? d_0)%dbl; destruct (b a); reflexivity.
Qed.

Lemma cleared_below (fx : list D) (b : nat -> bool) (a : nat) :
  cleared fx b a = true -> b a = true.
Proof. unfold cleared. now intros [H _]%andb_prop. Qed.

Lemma recomputed_step (st : fixup_state) : recomputed (fixup_step s c psi st).
Proof. reflexivity. Qed.

(** The count of a pass is a function of [pc]. *)
Lemma count_pass_pc (st st' : fixup_state) :
  pc st = pc st' -> snd (count_pass s c st) = snd (count_pass s c st').
Proof. intros H. unfold count_pass. simpl. now rewrite H. Qed.

Lemma fixup_loop_unfold (fuel : nat) (st : fixup_state) :
  fixup_loop s c (S fuel) psi st =
  if breaks s c st then Returns (fst (count_pass s c st))
  else fixup_loop s c fuel psi (fixup_step s c psi st).
Proof.
  unfold breaks, fixup_step. simpl.
  destruct (count_pass s c st) as [flagged n]. reflexivity.
Qed.

(** A pass that clears no flag is followed by a pass that breaks. *)
Lemma idle_pass_then_break (st : fixup_state) :
  recomputed st ->
  hv_x (fst (count_pass s c st)) = hv_x st ->
  hv_y (fst (count_pass s c st)) = hv_y st ->
  hv_z (fst (count_pass s c st)) = hv_z st ->
  hv_t (fst (count_pass s c st)) = hv_t st ->
  breaks s c (fixup_step s c psi st) = true.
Proof.
  intros R Hx Hy Hz Ht. unfold breaks. apply Z.eqb_eq.
  transitivity (snd (count_pass s c st)); [|reflexivity].
  apply count_pass_pc.
  change (pc (fixup_step s c psi st))
    with (recompute_pc s c psi (hv_x (fst (count_pass s c st)))
            (hv_y (fst (count_pass s c st)))
            (hv_z (fst (count_pass s c st)))
            (hv_t (fst (count_pass s c st)))).
  rewrite Hx, Hy, Hz, Ht. symmetry. exact R.
Qed.

(** One pass on the boolean flags. *)
Lemma pass_flags (st : fixup_state) (bx by_ bz bt : nat -> bool) :
  flagged_by st bx by_ bz bt ->
  exists bx' by' bz' bt',
    flagged_by (fixup_step s c psi st) bx' by' bz' bt' /\
    (weight bx' by' bz' bt' <= weight bx by_ bz bt)%nat /\
    ((hv_x (fst (count_pass s c st)) = hv_x st /\
      hv_y (fst (count_pass s c st)) = hv_y st /\
      hv_z (fst (count_pass s c st)) = hv_z st /\
      hv_t (fst (count_pass s c st)) = hv_t st) \/
     (weight bx' by' bz' bt' < weight bx by_ bz bt)%nat).
Proof.
  intros [Hx Hy Hz Ht].
  set (fx := face_flux s (pc st) (psii c)).
  set (fy := face_flux s (pc st) (psij c)).
  set (fz := face_flux s (pc st) (psik c)).
  set (ft := face_flux s (pc st) (time_flux_in c)).
  set (timed := (vdelt c !=? d_0)%dbl).
  exists (cleared fx bx), (cleared fy by_), (cleared fz bz),
         (if timed then cleared ft bt else bt).
  assert (Ex : hv_x (fst (count_pass s c st)) = flag_buffer (cleared fx bx)).
  { simpl. rewrite Hx. apply clear_flags_buffer. }
  assert (Ey : hv_y (fst (count_pass s c st)) = flag_buffer (cleared fy by_)).
  { simpl. rewrite Hy. apply clear_flags_buffer. }
  assert (Ez : hv_z (fst (count_pass s c st)) = flag_buffer (cleared fz bz)).
  { simpl. rewrite Hz. apply clear_flags_buffer. }
  assert (Et : hv_t (fst (count_pass s c st)) =
               flag_buffer (if timed then cleared ft bt else bt)).
  { simpl. fold timed. destruct timed.
    - rewrite Ht. apply clear_flags_buffer.
    - exact Ht. }
  split; [constructor; assumption|].
  pose proof (set_among_mono bx (cleared fx bx) (seq 0 N)
                (fun a _ => cleared_below fx bx a)) as Mx.
  pose proof (set_among_mono by_ (cleared fy by_) (seq 0 N)
                (fun a _ => cleared_below fy by_ a)) as My.
  pose proof (set_among_mono bz (cleared fz bz) (seq 0 N)
                (fun a _ => cleared_below fz bz a)) as Mz.
  assert (Bt : forall a, In a (seq 0 N) ->
                 (if timed then cleared ft bt else bt) a = true -> bt a = true).
  { intros a _. destruct timed; [apply cleared_below | trivial]. }
  pose proof (set_among_mono bt _ (seq 0 N) Bt) as Mt.
  split; [unfold Sweep.weight; lia|].
  destruct (set_among_drop bx (cleared fx bx) (seq 0 N)
              (fun a _ => cleared_below fx bx a)) as [Qx|Lx];
    [|right; unfold Sweep.weight; lia].
  destruct (set_among_drop by_ (cleared fy by_) (seq 0 N)
              (fun a _ => cleared_below fy by_ a)) as [Qy|Ly];
    [|right; unfold Sweep.weight; lia].
  destruct (set_among_drop bz (cleared fz bz) (seq 0 N)
              (fun a _ => cleared_below fz bz a)) as [Qz|Lz];
    [|right; unfold Sweep.weight; lia].
  destruct (set_among_drop bt _ (seq 0 N) Bt) as [Qt|Lt];
    [|right; unfold Sweep.weight; lia].
  left. rewrite Ex, Ey, Ez, Et, Hx, Hy, Hz, Ht.
  repeat split; now apply flag_buffer_ext.
Qed.

(** Once [pc] is recomputed from the flags, a pass breaks after at most
    one more pass than there are flags still set. *)
Lemma break_within (m : nat) :
  forall (st : fixup_state) (bx by_ bz bt : nat -> bool),
    flagged_by st bx by_ bz bt -> recomputed st ->
    (weight bx by_ bz bt <= m)%nat ->
    exists k, (k <= m + 1)%nat /\
      breaks s c (state_before_pass s c psi k st) = true /\
      forall j, (j < k)%nat ->
        breaks s c (state_before_pass s c psi j st) = false.
Proof.
  induction m as [|m IH]; intros st bx by_ bz bt F R W.
  - destruct (breaks s c st) eqn:B.
    + exists 0%nat. repeat split; [lia | exact B | lia].
    + exists 1%nat. split; [lia|]. split.
      * simpl.
        destruct (pass_flags F) as (bx' & by' & bz' & bt' & _ & _ & [E|L]);
          [|lia].
        destruct E as (Ex & Ey & Ez & Et).
        now apply idle_pass_then_break.
      * intros j Hj. assert (j = 0)%nat as -> by lia. exact B.
  - destruct (breaks s c st) eqn:B.
    + exists 0%nat. repeat split; [lia | exact B | lia].
    + destruct (pass_flags F) as (bx' & by' & bz' & bt' & F' & Wle & [E|L]).
      * exists 1%nat. split; [lia|]. split.
        -- simpl. destruct E as (Ex & Ey & Ez & Et).
           now apply idle_pass_then_break.
        -- intros j Hj. assert (j = 0)%nat as -> by lia. exact B.
      * destruct (IH _ _ _ _ _ F' (recomputed_step st)) as (k & Hk & Bk & Min);
          [lia|].
        exists (S k). split; [lia|]. split; [exact Bk|].
        intros [|j] Hj; [exact B | apply Min; lia].
Qed.

Lemma fixup_init_flagged (pc0 : list D) :
  flagged_by (fixup_init s pc0) (fun _ => true) (fun _ => true)
             (fun _ => true) (fun _ => true).
Proof. constructor; reflexivity. Qed.

Lemma set_among_all (n : nat) : set_among (fun _ => true) (seq 0 n) = n.
Proof.
  unfold set_among.
  rewrite forallb_filter_id.
  - apply length_seq.
  - apply forallb_forall. reflexivity.
Qed.

Lemma break_exists (pc0 : list D) :
  exists k, (k <= 4 * N + 2)%nat /\
    breaks s c (state_before_pass s c psi k (fixup_init s pc0)) = true /\
    forall j, (j < k)%nat ->
      breaks s c (state_before_pass s c psi j (fixup_init s pc0)) = false.
Proof.
  set (st0 := fixup_init s pc0).
  destruct (breaks s c st0) eqn:B.
  - exists 0%nat. repeat split; [lia | exact B | lia].
  - destruct (pass_flags (fixup_init_flagged pc0))
      as (bx' & by' & bz' & bt' & F' & Wle & _).
    unfold Sweep.weight in Wle at 2. rewrite !set_among_all in Wle.
    destruct (@break_within (4 * N) _ _ _ _ _ F' (recomputed_step st0))
      as (k & Hk & Bk & Min); [lia|].
    exists (S k). split; [lia|]. split; [exact Bk|].
    intros [|j] Hj; [exact B | apply Min; lia].
Qed.

(** The loop returns at the first pass that breaks. *)
Lemma fixup_loop_runs (k : nat) :
  forall (st : fixup_state) (fuel : nat),
    (forall j, (j < k)%nat ->
       breaks s c (state_before_pass s c psi j st) = false) ->
    breaks s c (state_before_pass s c psi k st) = true ->
    (k < fuel)%nat ->
    fixup_loop s c fuel psi st =
    Returns (fst (count_pass s c (state_before_pass s c psi k st))).
Proof.
  induction k as [|k IH]; intros st [|fuel] Min Bk Hf; try lia.
  - rewrite fixup_loop_unfold. simpl in Bk. now rewrite Bk.
  - rewrite fixup_loop_unfold.
    pose proof (Min 0%nat ltac:(lia)) as B0. simpl in B0. rewrite B0.
    apply IH; [|exact Bk|lia].
    intros j Hj. apply (Min (S j)). lia.
Qed.

(** A pass leaves each flag as it was or clears it. *)
Lemma flags_only_cleared (fx hv : list D) (a : nat) :
  (a < N)%nat ->
  get (clear_flags s fx hv) a = get hv a \/
  get (clear_flags s fx hv) a = d_0.
Proof.
  intros Ha. unfold clear_flags. rewrite get_tabulate by assumption.
  destruct (get fx a <? d_0)%dbl; [now right | now left].
Qed.
(** The loop does not return before the first pass that breaks. *)
Lemma fixup_loop_short (k : nat) :
  forall (st : fixup_state) (fuel : nat),
    (forall j, (j < k)%nat ->
       breaks s c (state_before_pass s c psi j st) = false) ->
    (fuel <= k)%nat ->
    fixup_loop s c fuel psi st = OutOfFuel.
Proof.
  induction k as [|k IH]; intros st [|fuel] Min Hf; try reflexivity; try lia.
  rewrite fixup_loop_unfold.
  pose proof (Min 0%nat ltac:(lia)) as B0. simpl in B0. rewrite B0.
  apply IH; [|lia].
  intros j Hj. apply (Min (S j)). lia.
Qed.

Lemma state_before_pass_succ (k : nat) :
  forall st : fixup_state,
    state_before_pass s c psi (S k) st =
    fixup_step s c psi (state_before_pass s c psi k st).
Proof.
  induction k as [|k IH]; intros st; [reflexivity|].
  change (state_before_pass s c psi (S (S k)) st)
    with (state_before_pass s c psi (S k) (fixup_step s c psi st)).
  rewrite IH. reflexivity.
Qed.

(** A counting loop counts the indices at which its test holds. *)
Lemma count_fold_filter (p : nat -> bool) (l : list nat) (c0 : Z) :
  fold_left (fun n a => if p a then (n + 1)%Z else n) l c0 =
  (c0 + Z.of_nat (length (filter p l)))%Z.
Proof.
  revert c0. induction l as [|a l IH]; intros c0; simpl; [lia|].
  rewrite IH. destruct (p a); simpl; lia.
Qed.

Lemma count_negative_face (pc0 incoming : list D) :
  count_negative s (face_flux s pc0 incoming) =
  Z.of_nat (length (negative_angles s pc0 incoming)).
Proof.
  unfold count_negative, negative_angles.
  rewrite count_loop_ext
    with (q := fun ang => (d_2 * get pc0 ang - get incoming ang <? d_0)%dbl).
  - unfold count_loop. now rewrite count_fold_filter.
  - intros a Ha. unfold face_flux. now rewrite get_tabulate.
Qed.

(** The count of a pass is the number of negative outgoing fluxes of its
    [pc], as an [unsigned]. *)
Lemma count_pass_negative_outgoing (st : fixup_state) :
  snd (count_pass s c st) = u32 (Z.of_nat (negative_outgoing s c (pc st))).
Proof.
  unfold count_pass, negative_outgoing. cbn [snd].
  rewrite !count_negative_face. f_equal.
  destruct (vdelt c !=? d_0)%dbl; lia.
Qed.

Lemma old_count_of_pass (k : nat) (pc0 : list D) :
  old_negative_fluxes (state_before_pass s c psi k (fixup_init s pc0)) =
  match k with
  | O => 0%Z
  | S j => snd (count_pass s c
                  (state_before_pass s c psi j (fixup_init s pc0)))
  end.
Proof.
  destruct k as [|j]; [reflexivity|].
  rewrite state_before_pass_succ. reflexivity.
Qed.
End FixupTermination.

(** C7.  The negative-flux fixup loop of the CPU kernel terminates on every
    input, in any arithmetic.  Pass [k] (from 0) computes on each face the
    outgoing flux [2 pc - incoming] of every angle, clears the [hv] flag of
    the angle where that flux is negative and leaves it otherwise (the time
    term only when [vdelt != 0]), and counts the negative ones, as an
    [unsigned]; the flags start at 1.0 and the solution of the next pass is
    recomputed from them.  The loop returns at the first pass whose count
    equals the count of the pass before (0 before the first), not earlier,
    and such a pass exists among the first [4 * num_angles + 3]. *)
Theorem fixup_loop_terminates
        {D : Type} {ops : DoubleOps D}
        (s : Sweep.Snap (D := D)) (c : Sweep.Cell (D := D))
        (psi pc0 : list D) :
  let st0 := Sweep.fixup_init s pc0 in
  let before k := Sweep.state_before_pass s c psi k st0 in
  let flagged k := fst (Sweep.count_pass s c (before k)) in
  let count k :=
    u32 (Z.of_nat (Sweep.negative_outgoing s c (Sweep.pc (before k)))) in
  let previous k := match k with O => 0%Z | S j => count j end in
  let timed := (Sweep.vdelt c !=? d_0)%dbl in
  (forall k,
     snd (Sweep.count_pass s c (before k)) = count k /\
     Sweep.old_negative_fluxes (before k) = previous k /\
     Sweep.pc (flagged k) = Sweep.pc (before k) /\
     Sweep.pc (before (S k)) =
       Sweep.recompute_pc s c psi
         (Sweep.hv_x (flagged k)) (Sweep.hv_y (flagged k))
         (Sweep.hv_z (flagged k)) (Sweep.hv_t (flagged k)) /\
     forall a, (a < Sweep.num_angles s)%nat ->
       let out incoming :=
         (d_2 * get (Sweep.pc (before k)) a - get incoming a)%dbl in
       (get (Sweep.fx_hv_x (flagged k)) a = out (Sweep.psii c) /\
        get (Sweep.fx_hv_y (flagged k)) a = out (Sweep.psij c) /\
        get (Sweep.fx_hv_z (flagged k)) a = out (Sweep.psik c) /\
        (timed = true ->
         get (Sweep.fx_hv_t (flagged k)) a = out (Sweep.time_flux_in c))) /\
       (get (Sweep.hv_x (flagged k)) a =
          (if (out (Sweep.psii c) <? d_0)%dbl then d_0
           else get (Sweep.hv_x (before k)) a) /\
        get (Sweep.hv_y (flagged k)) a =
          (if (out (Sweep.psij c) <? d_0)%dbl then d_0
           else get (Sweep.hv_y (before k)) a) /\
        get (Sweep.hv_z (flagged k)) a =
          (if (out (Sweep.psik c) <? d_0)%dbl then d_0
           else get (Sweep.hv_z (before k)) a) /\
        get (Sweep.hv_t (flagged k)) a =
          (if timed && (out (Sweep.time_flux_in c) <? d_0)%dbl then d_0
           else get (Sweep.hv_t (before k)) a)) /\
       (get (Sweep.hv_x (before 0%nat)) a = d_1 /\
        get (Sweep.hv_y (before 0%nat)) a = d_1 /\
        get (Sweep.hv_z (before 0%nat)) a = d_1 /\
        get (Sweep.hv_t (before 0%nat)) a = d_1) /\
       (get (Sweep.hv_x (before (S k))) a = get (Sweep.hv_x (flagged k)) a /\
        get (Sweep.hv_y (before (S k))) a = get (Sweep.hv_y (flagged k)) a /\
        get (Sweep.hv_z (before (S k))) a = get (Sweep.hv_z (flagged k)) a /\
        get (Sweep.hv_t (before (S k))) a = get (Sweep.hv_t (flagged k)) a)) /\
  (exists k,
     (k <= 4 * Sweep.num_angles s + 2)%nat /\
     count k = previous k /\
     (forall j, (j < k)%nat -> count j <> previous j) /\
     (forall fuel,
        Sweep.fixup_loop s c fuel psi st0 =
        if (k <? fuel)%nat then Returns (flagged k) else OutOfFuel)).
Proof.
  intros st0 before flagged count previous timed.
  assert (Cnt : forall k, snd (Sweep.count_pass s c (before k)) = count k).
  { intros k. apply count_pass_negative_outgoing. }
  assert (Old : forall k, Sweep.old_negative_fluxes (before k) = previous k).
  { intros k. unfold before, st0. rewrite old_count_of_pass.
    destruct k as [|j]; [reflexivity | apply Cnt]. }
  assert (Brk : forall k, Sweep.breaks s c (before k)
                          = (count k =? previous k)%Z).
  { intros k. unfold Sweep.breaks. now rewrite Cnt, Old. }
  split.
  - intros k. split; [apply Cnt|]. split; [apply Old|].
    split; [reflexivity|]. split.
    { unfold before. now rewrite state_before_pass_succ. }
    intros a Ha out.
    assert (Fx : forall incoming,
               get (Sweep.face_flux s (Sweep.pc (before k)) incoming) a
               = out incoming).
    { intros incoming. unfold Sweep.face_flux. now rewrite get_tabulate. }
    assert (Cl : forall incoming hv,
               get (Sweep.clear_flags s
                      (Sweep.face_flux s (Sweep.pc (before k)) incoming) hv) a
               = if (out incoming <? d_0)%dbl then d_0 else get hv a).
    { intros incoming hv. unfold Sweep.clear_flags.
      rewrite get_tabulate by assumption. now rewrite Fx. }
    split; [|split; [|split]].
    + unfold flagged, Sweep.count_pass. cbn [fst Sweep.fx_hv_x Sweep.fx_hv_y
        Sweep.fx_hv_z Sweep.fx_hv_t].
      repeat split; try apply Fx.
      intros T. fold timed. rewrite T. apply Fx.
    + unfold flagged, Sweep.count_pass. cbn [fst Sweep.hv_x Sweep.hv_y
        Sweep.hv_z Sweep.hv_t].
      repeat split; try apply Cl.
      fold timed. destruct timed; [apply Cl | reflexivity].
    + unfold before, st0. cbn [Sweep.state_before_pass Sweep.fixup_init
        Sweep.hv_x Sweep.hv_y Sweep.hv_z Sweep.hv_t].
      repeat split; now rewrite get_tabulate.
    + unfold before. rewrite state_before_pass_succ.
      repeat split; reflexivity.
  - destruct (break_exists s c psi pc0) as (k & Hk & Bk & Min).
    fold st0 in Bk, Min.
    exists k. split; [exact Hk|]. split.
    { apply Z.eqb_eq. rewrite <- Brk. exact Bk. }
    split.
    { intros j Hj E. apply Z.eqb_eq in E. rewrite <- Brk in E.
      unfold before in E. rewrite (Min j Hj) in E. discriminate. }
    intros fuel. destruct (Nat.ltb_spec k fuel) as [L|L].
    + now apply fixup_loop_runs.
    + now apply fixup_loop_short with (k := k).
Qed.

(* ------------------------------------------------------------------ *)
(** ** After the fixup *)
(* ------------------------------------------------------------------ *)

Section CountLoop.
Variable p : nat -> bool.

Lemma count_fold_bounds (l : list nat) (c0 : Z) :
  (c0 <= fold_left (fun c a => if p a then c + 1 else c) l c0
      <= c0 + Z.of_nat (length l))%Z.
Proof.
  revert c0. induction l as [|a l IH]; intros c0; simpl; [lia|].
  destruct (p a).
  - specialize (IH (c0 + 1)%Z). lia.
  - specialize (IH c0). lia.
Qed.

Lemma count_fold_none (l : list nat) (c0 : Z) :
  fold_left (fun c a => if p a then c + 1 else c)%Z l c0 = c0 ->
  forall a, In a l -> p a = false.
Proof.
  revert c0. induction l as [|x l IH]; intros c0 H a Ha; [destruct Ha|].
  simpl in H. destruct (p x) eqn:E.
  - pose proof (count_fold_bounds l (c0 + 1)). lia.
  - destruct Ha as [<-|Ha]; [exact E | now apply (IH c0 H)].
Qed.

Lemma count_loop_bounds (n : nat) :
  (0 <= count_loop n p <= Z.of_nat n)%Z.
Proof.
  unfold count_loop.
  pose proof (count_fold_bounds (seq 0 n) 0) as H.
  rewrite length_seq in H. lia.
Qed.

Lemma count_loop_none (n : nat) :
  count_loop n p = 0%Z -> forall a, (a < n)%nat -> p a = false.
Proof.
  intros H a Ha. apply (@count_fold_none (seq 0 n) 0%Z H).
  apply in_seq. lia.
Qed.
End CountLoop.

Section FixupSigns.
Context {D : Type} {ops : DoubleOps D} (laws : SignLaws ops).
Variable s : Sweep.Snap (D := D).
Variable c : Sweep.Cell (D := D).
Variable psi : list D.

Local Abbreviation N := (Sweep.num_angles s).
Import Sweep.
Local Open Scope dbl_scope.

Local Abbreviation flags_01 := (Sweep.flags_01 s).
Local Abbreviation all_flags_01 := (Sweep.all_flags_01 s).

Lemma clear_flags_01 (fx hv : list D) :
  flags_01 hv -> flags_01 (clear_flags s fx hv).
Proof.
  intros H a Ha. unfold clear_flags. rewrite get_tabulate by assumption.
  destruct (get fx a <? d_0); [now left | now apply H].
Qed.

Lemma count_pass_flags_01 (st : fixup_state) :
  all_flags_01 st -> all_flags_01 (fst (count_pass s c st)).
Proof.
  intros (Hx & Hy & Hz & Ht). unfold Sweep.all_flags_01.
  split; [|split; [|split]]; try (now apply clear_flags_01).
  cbn [count_pass fst hv_t].
  destruct (vdelt c !=? d_0); [now apply clear_flags_01 | exact Ht].
Qed.

Lemma state_before_pass_flags_01 (k : nat) :
  forall st, all_flags_01 st ->
             all_flags_01 (state_before_pass s c psi k st).
Proof.
  induction k as [|k IH]; intros st H; [exact H|].
  simpl. apply IH. apply (count_pass_flags_01 H).
Qed.

Lemma fixup_init_flags_01 (pc0 : list D) : all_flags_01 (fixup_init s pc0).
Proof.
  unfold Sweep.all_flags_01, Sweep.flags_01, fixup_init. simpl.
  repeat split; intros a Ha; rewrite get_tabulate by assumption; now right.
Qed.

(** A face flux times its flag, after the flag has been cleared where the
    flux is negative: the product is [fx * 0.0], or [fx * 1.0] with [fx]
    not negative. *)
Lemma cleared_product_not_negative (fx hv : list D) (a : nat) :
  (a < N)%nat -> flags_01 hv ->
  (get fx a * get (clear_flags s fx hv) a <? d_0) = false.
Proof.
  intros Ha H. unfold clear_flags. rewrite get_tabulate by assumption.
  destruct (get fx a <? d_0) eqn:E.
  - apply times_zero_not_negative.
  - destruct (H a Ha) as [-> | ->].
    + apply times_zero_not_negative.
    + now apply times_one_not_negative.
Qed.

(** Every slot of a recomputed solution is 0.0, or a numerator that is
    not [<= 0.0] over a denominator that is not below the tolerance. *)
Lemma recompute_pc_not_negative (hx hy hz ht : list D) (a : nat) :
  (a < N)%nat ->
  (get (recompute_pc s c psi hx hy hz ht) a <? d_0) = false.
Proof.
  intros Ha. unfold recompute_pc. rewrite get_tabulate by assumption.
  cbv zeta.
  match goal with
  | |- context [if (?p <=? d_0) then d_0 else ?d] =>
      set (num := p); set (den := d)
  end.
  destruct (num <=? d_0) eqn:Ep.
  - rewrite zero_below_tolr. apply zero_not_negative.
  - destruct (den <? d_tolr) eqn:Ed; [apply zero_not_negative|].
    now apply quotient_not_negative.
Qed.

Lemma state_before_pass_succ_recomputed (k : nat) :
  forall st, recomputed s c psi (state_before_pass s c psi (S k) st).
Proof.
  induction k as [|k IH]; intros st.
  - apply recomputed_step.
  - change (state_before_pass s c psi (S (S k)) st)
      with (state_before_pass s c psi (S k) (fixup_step s c psi st)).
    apply IH.
Qed.

(** A first pass that breaks found no negative flux on the x face. *)
Lemma first_pass_break (pc0 : list D) (a : nat) :
  (4 * Z.of_nat N < 4294967296)%Z -> (a < N)%nat ->
  breaks s c (fixup_init s pc0) = true ->
  (d_2 * get pc0 a - get (psii c) a <? d_0) = false.
Proof.
  intros HN Ha B. unfold breaks in B. apply Z.eqb_eq in B.
  simpl in B. unfold count_negative in B.
  set (px := fun ang => get (face_flux s pc0 (psii c)) ang <? d_0) in *.
  set (py := fun ang => get (face_flux s pc0 (psij c)) ang <? d_0) in *.
  set (pz := fun ang => get (face_flux s pc0 (psik c)) ang <? d_0) in *.
  set (pt := fun ang => get (face_flux s pc0 (time_flux_in c)) ang <? d_0) in *.
  pose proof (count_loop_bounds px N) as Bx.
  pose proof (count_loop_bounds py N) as By.
  pose proof (count_loop_bounds pz N) as Bz.
  pose proof (count_loop_bounds pt N) as Bt.
  assert (Zx : count_loop N px = 0%Z).
  { unfold u32 in B.
    destruct (vdelt c !=? d_0); rewrite Z.mod_small in B; lia. }
  pose proof (@count_loop_none px N Zx a Ha) as F. unfold px in F.
  unfold face_flux in F. rewrite get_tabulate in F by assumption.
  exact F.
Qed.
End FixupSigns.

(** C8 (amended).  With [flux_fixup] enabled, in binary64 as in exact
    arithmetic, the fixup loop finishes (any step budget above
    [4 * num_angles + 2]), and in the state it finishes in, for every angle
    [a]: the outgoing face fluxes [psii[a]], [psij[a]], [psik[a]], and
    [time_flux_out[a]] when it is written, each computed as [fx_hv * hv],
    are not negative whatever the input; and [pc[a]] is not negative
    provided the incoming x-face flux [psii[a]] is [>= 0.0].
    ([num_angles < 2^30], so that the [unsigned] count of negative fluxes
    does not wrap.) *)
Theorem fixup_not_negative
        {D : Type} {ops : DoubleOps D} (laws : SignLaws ops)
        (s : Sweep.Snap (D := D)) (c : Sweep.Cell (D := D))
        (psi pc0 : list D) (fuel : nat) :
  (4 * Z.of_nat (Sweep.num_angles s) < 4294967296)%Z ->
  (4 * Sweep.num_angles s + 2 < fuel)%nat ->
  exists st,
    Sweep.fixup_loop s c fuel psi (Sweep.fixup_init s pc0) = Returns st /\
    forall a, (a < Sweep.num_angles s)%nat ->
      let '(oi, oj, ok, tfo) := Sweep.fixup_faces s c st in
      (get oi a <? d_0)%dbl = false /\
      (get oj a <? d_0)%dbl = false /\
      (get ok a <? d_0)%dbl = false /\
      (forall t, tfo = Some t -> (get t a <? d_0)%dbl = false) /\
      ((d_0 <=? get (Sweep.psii c) a)%dbl = true ->
       (get (Sweep.pc st) a <? d_0)%dbl = false).
Proof.
  intros HN Hfuel.
  destruct (break_exists s c psi pc0) as (k & Hk & Bk & Min).
  pose proof (fun n => @fixup_loop_runs _ _ s c psi k
                         (Sweep.fixup_init s pc0) n Min Bk) as Run.
  set (stk := Sweep.state_before_pass s c psi k (Sweep.fixup_init s pc0)) in *.
  exists (fst (Sweep.count_pass s c stk)).
  split; [apply Run; lia|].
  assert (F : Sweep.all_flags_01 s stk).
  { apply state_before_pass_flags_01, fixup_init_flags_01. }
  destruct F as (Fx & Fy & Fz & Ft).
  intros a Ha. unfold Sweep.fixup_faces.
  repeat split.
  - rewrite get_tabulate by assumption. simpl.
    now apply cleared_product_not_negative.
  - rewrite get_tabulate by assumption. simpl.
    now apply cleared_product_not_negative.
  - rewrite get_tabulate by assumption. simpl.
    now apply cleared_product_not_negative.
  - intros t Ht.
    destruct (Sweep.vdelt c !=? d_0)%dbl eqn:Ev; [|discriminate].
    injection Ht as <-. rewrite get_tabulate by assumption.
    simpl. rewrite Ev.
    now apply cleared_product_not_negative.
  - intros Hin. simpl. destruct k as [|k].
    + pose proof (first_pass_break s c pc0 HN Ha Bk) as L.
      exact (half_not_negative _ _ Hin L).
    + pose proof (state_before_pass_succ_recomputed s c psi k
                    (Sweep.fixup_init s pc0)) as R.
      fold stk in R. unfold Sweep.recomputed in R. rewrite R.
      now apply recompute_pc_not_negative.
Qed.

(* ------------------------------------------------------------------ *)
(** ** The branch without fixup *)
(* ------------------------------------------------------------------ *)

Section NoFixup.
Context {D : Type} {ops : DoubleOps D}.
Variable s : Sweep.Snap (D := D).
Variable c : Sweep.Cell (D := D).
Import Sweep.

(** With at most one moment the angular source is [quad[0]] in every
    slot, and the cell runs to its end on any step budget. *)
Lemma cpu_angular_source_one_moment (fuel : nat) :
  (num_moments s <= 1)%Z ->
  cpu_angular_source s c fuel =
  Returns (tabulate (num_angles s) (fun _ => quad_0 (quad c))).
Proof.
  intros H. unfold cpu_angular_source.
  assert (G : (num_moments s >? 1)%Z = false).
  { rewrite Z.gtb_ltb. apply Z.ltb_ge. lia. }
  now rewrite G.
Qed.

Lemma cpu_fluxm_total_one_moment (psi : list D) :
  (num_moments s <= 1)%Z -> cpu_fluxm_total s c psi = Returns None.
Proof.
  intros H. unfold cpu_fluxm_total.
  assert (G : (num_moments s >? 1)%Z = false).
  { rewrite Z.gtb_ltb. apply Z.ltb_ge. lia. }
  now rewrite G.
Qed.

Lemma cpu_cell_no_fixup (fuel : nat) :
  (num_moments s <= 1)%Z -> flux_fixup s = false ->
  let pc := initial_solution s c
              (add_mms_source s c
                 (tabulate (num_angles s) (fun _ => quad_0 (quad c)))) in
  exists r,
    cpu_implementation_cell s c fuel = Returns r /\
    (out_psii r, out_psij r, out_psik r, time_flux_out r) = no_fixup s c pc.
Proof.
  intros H F pc. unfold cpu_implementation_cell.
  rewrite cpu_angular_source_one_moment by assumption.
  cbn [bind]. rewrite F. cbn [bind]. fold pc.
  destruct (no_fixup s c pc) as [[[oi oj] ok] tfo] eqn:E.
  destruct (cpu_flux_total s pc) as [wpsi total] eqn:T.
  rewrite cpu_fluxm_total_one_moment by assumption. cbn [bind].
  eexists. split; [reflexivity|]. reflexivity.
Qed.
End NoFixup.

(** C9.  In the no-fixup branch of the CPU kernel, for every angle [a] the
    outgoing [psii[a]] is [2*pc[a]] minus the incoming [psii[a]], likewise
    [psij] and [psik]; when [vdelt != 0] the value written to
    [time_flux_out] is [2*pc[a] - time_flux_in[a]], and when [vdelt == 0]
    [time_flux_out] is not written.  This holds of the branch for every
    [pc], and of the cell kernel, which reaches the branch and returns when
    [flux_fixup] is off and there is one moment. *)
Theorem no_fixup_outgoing
        {D : Type} {ops : DoubleOps D}
        (s : Sweep.Snap (D := D)) (c : Sweep.Cell (D := D))
        (pc : list D) (a : nat) :
  (a < Sweep.num_angles s)%nat ->
  (let '(oi, oj, ok, tfo) := Sweep.no_fixup s c pc in
   get oi a = (d_2 * get pc a - get (Sweep.psii c) a)%dbl /\
   get oj a = (d_2 * get pc a - get (Sweep.psij c) a)%dbl /\
   get ok a = (d_2 * get pc a - get (Sweep.psik c) a)%dbl /\
   (if (Sweep.vdelt c !=? d_0)%dbl
    then exists t, tfo = Some t /\
           get t a = (d_2 * get pc a - get (Sweep.time_flux_in c) a)%dbl
    else tfo = None)) /\
  (forall fuel,
     (Sweep.num_moments s <= 1)%Z -> Sweep.flux_fixup s = false ->
     exists r,
       Sweep.cpu_implementation_cell s c fuel = Returns r /\
       (Sweep.out_psii r, Sweep.out_psij r, Sweep.out_psik r,
        Sweep.time_flux_out r) =
       Sweep.no_fixup s c
         (Sweep.initial_solution s c
            (Sweep.add_mms_source s c
               (tabulate (Sweep.num_angles s)
                         (fun _ => quad_0 (Sweep.quad c)))))).
Proof.
  intros Ha. split.
  - unfold Sweep.no_fixup.
    rewrite !get_tabulate by assumption.
    repeat split.
    destruct (Sweep.vdelt c !=? d_0)%dbl; [|reflexivity].
    eexists. split; [reflexivity|]. now rewrite get_tabulate.
  - intros fuel H F. now apply cpu_cell_no_fixup.
Qed.

(* ------------------------------------------------------------------ *)
(** ** Facts of binary64 *)
(* ------------------------------------------------------------------ *)

Section Binary64.
Local Open Scope float_scope.

Lemma SFcompare_antisym (x y : spec_float) :
  SFcompare y x = option_map CompOpp (SFcompare x y).
Proof.
  destruct x as [sx|sx| |sx mx ex], y as [sy|sy| |sy my ey]; simpl;
    try destruct sx; try destruct sy; try reflexivity.
  - rewrite (Z.compare_antisym ex ey).
    destruct (ex ?= ey)%Z; simpl; try reflexivity.
    do 2 f_equal. symmetry. exact (Pos.compare_cont_antisym mx my Eq).
  - rewrite (Z.compare_antisym ex ey).
    destruct (ex ?= ey)%Z; simpl; try reflexivity.
    f_equal. symmetry. exact (Pos.compare_cont_antisym mx my Eq).
Qed.

Lemma SFcompare_defined (x y : spec_float) :
  x <> S754_nan -> y <> S754_nan -> exists c, SFcompare x y = Some c.
Proof.
  intros Hx Hy.
  destruct x as [sx|sx| |sx mx ex], y as [sy|sy| |sy my ey];
    try congruence; simpl; eexists; reflexivity.
Qed.

Lemma b64_not_nan_spec (x : float) : MMS.not_nan x -> Prim2SF x <> S754_nan.
Proof.
  unfold MMS.not_nan. rewrite FloatAxioms.eqb_spec. intros H E. rewrite E in H.
  discriminate.
Qed.

(** Any two doubles that are not NaN are comparable. *)
Lemma b64_compare_cases (x y : float) :
  MMS.not_nan x -> MMS.not_nan y ->
  ((x <? y) = true /\ (y <? x) = false /\ (x =? y) = false
   /\ (x <=? y) = true /\ (y <=? x) = false) \/
  ((x <? y) = false /\ (y <? x) = false /\ (x =? y) = true
   /\ (x <=? y) = true /\ (y <=? x) = true) \/
  ((x <? y) = false /\ (y <? x) = true /\ (x =? y) = false
   /\ (x <=? y) = false /\ (y <=? x) = true).
Proof.
  intros Hx%b64_not_nan_spec Hy%b64_not_nan_spec.
  rewrite !FloatAxioms.ltb_spec, !FloatAxioms.leb_spec, !FloatAxioms.eqb_spec.
  unfold SFltb, SFleb, SFeqb. rewrite (SFcompare_antisym (Prim2SF x)).
  destruct (SFcompare_defined Hx Hy) as [[| |] ->]; simpl; tauto.
Qed.

Lemma b64_eqb_sym (x y : float) : (x =? y) = (y =? x).
Proof.
  rewrite !FloatAxioms.eqb_spec. unfold SFeqb.
  rewrite (SFcompare_antisym (Prim2SF x) (Prim2SF y)).
  destruct (SFcompare (Prim2SF x) (Prim2SF y)) as [[| |]|]; reflexivity.
Qed.

Lemma b64_add_comm (x y : float) : x + y = y + x.
Proof.
  apply Prim2SF_inj. rewrite !FloatAxioms.add_spec. unfold SF64add, SFadd.
  destruct (Prim2SF x) as [sx|sx| |sx mx ex],
           (Prim2SF y) as [sy|sy| |sy my ey];
    try destruct sx; try destruct sy; try reflexivity;
    rewrite (Z.min_comm ey ex); rewrite Z.add_comm; reflexivity.
Qed.

(** Adding 0.0 gives the same value back: the same double, but for
    -0.0 + 0.0 = +0.0. *)
Lemma b64_add_zero (x : float) : MMS.same_value (x + 0) x.
Proof.
  unfold MMS.same_value.
  destruct (Prim2SF x) as [sx|sx| |sx mx ex] eqn:E.
  - destruct sx.
    + right. rewrite FloatAxioms.eqb_spec, FloatAxioms.add_spec, E. reflexivity.
    + left. apply Prim2SF_inj. rewrite FloatAxioms.add_spec, E. reflexivity.
  - left. apply Prim2SF_inj. rewrite FloatAxioms.add_spec, E. reflexivity.
  - left. apply Prim2SF_inj. rewrite FloatAxioms.add_spec, E. reflexivity.
  - left. apply Prim2SF_inj. rewrite FloatAxioms.add_spec, E. reflexivity.
Qed.

Lemma b64_sub_zero (x : float) : x - 0 = x.
Proof.
  apply Prim2SF_inj. rewrite FloatAxioms.sub_spec.
  change (Prim2SF 0) with (S754_zero false).
  destruct (Prim2SF x) as [sx|sx| |sx mx ex]; try destruct sx; reflexivity.
Qed.

(** Nothing is below minus infinity, nothing above plus infinity. *)
Lemma b64_ltb_neg_infinity (x : float) : (x <? neg_infinity) = false.
Proof.
  rewrite FloatAxioms.ltb_spec. unfold SFltb.
  change (Prim2SF neg_infinity) with (S754_infinity true).
  destruct (Prim2SF x) as [sx|sx| |sx mx ex]; simpl;
    try destruct sx; reflexivity.
Qed.

Lemma b64_ltb_infinity (x : float) : (infinity <? x) = false.
Proof.
  rewrite FloatAxioms.ltb_spec. unfold SFltb.
  change (Prim2SF infinity) with (S754_infinity false).
  destruct (Prim2SF x) as [sx|sx| |sx mx ex]; simpl;
    try destruct sx; reflexivity.
Qed.

Lemma same_value_refl (x : float) : MMS.same_value x x.
Proof. now left. Qed.
End Binary64.

(* ------------------------------------------------------------------ *)
(** ** Signs in the two arithmetics *)
(* ------------------------------------------------------------------ *)

(** *** Exact arithmetic *)

Lemma exactQ_lt_true (x y : Q) : (x <? y)%dbl = true -> (x < y)%Q.
Proof.
  simpl. intros H. apply negb_true_iff in H.
  apply Qnot_le_lt. intros L. apply Qle_bool_iff in L. congruence.
Qed.

Lemma exactQ_lt_false (x y : Q) : (x <? y)%dbl = false <-> (y <= x)%Q.
Proof.
  simpl. rewrite negb_false_iff. apply Qle_bool_iff.
Qed.

Lemma exactQ_le_false (x y : Q) : (x <=? y)%dbl = false -> (y < x)%Q.
Proof.
  simpl. intros H. apply Qnot_le_lt. intros L.
  apply Qle_bool_iff in L. congruence.
Qed.

Lemma exactQ_sign_laws : SignLaws exactQ.
Proof.
  split.
  - reflexivity.
  - reflexivity.
  - intros x. apply exactQ_lt_false. simpl. rewrite Qmult_0_r. apply Qle_refl.
  - intros x H. apply exactQ_lt_false in H. apply exactQ_lt_false.
    simpl in *. now rewrite Qmult_1_r.
  - intros x y Hx Hy. apply exactQ_le_false in Hx.
    apply exactQ_lt_false in Hy. apply exactQ_lt_false. simpl in *.
    assert (Hd : (0 < y)%Q).
    { eapply Qlt_le_trans; [|exact Hy]. reflexivity. }
    apply Qle_shift_div_l; [exact Hd|].
    rewrite Qmult_0_l. now apply Qlt_le_weak.
  - intros x y Hy H. apply Qle_bool_iff in Hy.
    apply exactQ_lt_false in H. apply exactQ_lt_false. simpl in *. lra.
Qed.

(** *** Binary64 *)

Section Binary64Signs.
Local Open Scope float_scope.

(** A rounded result has the sign it was given, or is NaN. *)
Lemma binary_round_aux_sign (s : bool) (m e : Z) (l : location) :
  let r := binary_round_aux prec emax s m e l in
  r = S754_nan \/ r = S754_zero s \/ r = S754_infinity s \/
  exists m' e', r = S754_finite s m' e'.
Proof.
  unfold binary_round_aux.
  destruct (shr_fexp prec emax m e l) as [mrs' e'].
  destruct (shr_fexp prec emax _ e' loc_Exact) as [mrs'' e''].
  destruct (shr_m mrs'') as [|p|p]; simpl.
  - right; left; reflexivity.
  - destruct (e'' <=? _)%Z;
      [do 3 right; eauto | right; right; left; reflexivity].
  - left; reflexivity.
Qed.

Lemma rounded_not_negative (m e : Z) (l : location) :
  SFltb (binary_round_aux prec emax false m e l) (S754_zero false) = false.
Proof.
  destruct (binary_round_aux_sign false m e l)
    as [H|[H|[H|(m' & e' & H)]]]; rewrite H; reflexivity.
Qed.

Lemma b64_times_zero_not_negative (x : float) : (x * 0 <? 0) = false.
Proof.
  rewrite FloatAxioms.ltb_spec, FloatAxioms.mul_spec.
  change (Prim2SF 0) with (S754_zero false).
  destruct (Prim2SF x) as [sx|sx| |sx mx ex]; try destruct sx; reflexivity.
Qed.

Lemma b64_times_one_not_negative (x : float) :
  (x <? 0) = false -> (x * 1 <? 0) = false.
Proof.
  rewrite !FloatAxioms.ltb_spec, FloatAxioms.mul_spec.
  change (Prim2SF 0) with (S754_zero false).
  change (Prim2SF 1) with (S754_finite false 4503599627370496 (-52)).
  destruct (Prim2SF x) as [sx|sx| |sx mx ex]; try destruct sx;
    try reflexivity; try discriminate.
  intros _. unfold SF64mul, SFmul. apply rounded_not_negative.
Qed.

Lemma b64_quotient_not_negative (x y : float) :
  (x <=? 0) = false -> (y <? 0x1.19799812dea11p-40) = false ->
  (x / y <? 0) = false.
Proof.
  rewrite !FloatAxioms.ltb_spec, FloatAxioms.leb_spec, FloatAxioms.div_spec.
  change (Prim2SF 0) with (S754_zero false).
  change (Prim2SF 0x1.19799812dea11p-40)
    with (S754_finite false 4951760157141521 (-92)).
  destruct (Prim2SF x) as [sx|sx| |sx mx ex]; try destruct sx;
    try discriminate;
    destruct (Prim2SF y) as [sy|sy| |sy my ey]; try destruct sy;
    try discriminate; try reflexivity.
  all: intros _ _; unfold SF64div, SFdiv.
  all: destruct (SFdiv_core_binary _ _ _ _ _ _) as [[mz ez] lz].
  all: apply rounded_not_negative.
Qed.

(** Shifting a positive mantissa right by fewer places than it has
    digits leaves a positive mantissa. *)
Lemma iter_pos_nat {A : Type} (f : A -> A) (p : positive) (x : A) :
  SpecFloat.iter_pos f p x = Nat.iter (Pos.to_nat p) f x.
Proof.
  revert x. induction p as [p IH|p IH|]; intros x; cbn [SpecFloat.iter_pos].
  - rewrite !IH, Pos2Nat.inj_xI.
    replace (S (2 * Pos.to_nat p))
      with (Pos.to_nat p + S (Pos.to_nat p))%nat by lia.
    rewrite Nat.iter_add, Nat.iter_succ_r. reflexivity.
  - rewrite !IH, Pos2Nat.inj_xO.
    replace (2 * Pos.to_nat p)%nat
      with (Pos.to_nat p + Pos.to_nat p)%nat by lia.
    now rewrite Nat.iter_add.
  - reflexivity.
Qed.

Lemma shift_keeps_positive (k : nat) :
  forall (m : positive) (r s : bool),
    (k < Pos.to_nat (digits2_pos m))%nat ->
    exists m' r' s',
      Nat.iter k shr_1 {| shr_m := Zpos m; shr_r := r; shr_s := s |} =
      {| shr_m := Zpos m'; shr_r := r'; shr_s := s' |}.
Proof.
  induction k as [|k IH]; intros m r s Hk.
  - simpl. eauto.
  - rewrite Nat.iter_succ_r.
    destruct m as [p|p|]; simpl in Hk; rewrite ?Pos2Nat.inj_succ in Hk.
    + apply IH. lia.
    + apply IH. lia.
    + change (Pos.to_nat 1) with 1%nat in Hk. lia.
Qed.

Lemma shr_keeps_positive (m : positive) (r s : bool) (e n : Z) :
  (n < Zpos (digits2_pos m))%Z ->
  exists m' r' s',
    fst (shr {| shr_m := Zpos m; shr_r := r; shr_s := s |} e n) =
    {| shr_m := Zpos m'; shr_r := r'; shr_s := s' |}.
Proof.
  intros Hn. destruct n as [|p|p]; simpl; eauto.
  rewrite iter_pos_nat. apply shift_keeps_positive. lia.
Qed.

Lemma shr_exponent (mrs : shr_record) (e n : Z) :
  snd (shr mrs e n) = (e + Z.max n 0)%Z.
Proof. destruct n; simpl; lia. Qed.

Lemma round_nearest_even_positive (m : positive) (l : location) :
  exists m', round_nearest_even (Zpos m) l = Zpos m'.
Proof.
  destruct l as [|[| |]]; simpl; eauto.
  destruct m; simpl; eauto.
Qed.

(** Rounding a positive mantissa whose shift is shorter than its length
    gives a finite number or an infinity of the given sign, never a
    zero. *)
Lemma binary_round_aux_nonzero
      (s : bool) (m : positive) (e : Z) (l : location) :
  (fexp prec emax (Zpos (digits2_pos m) + e) - e < Zpos (digits2_pos m))%Z ->
  let r := binary_round_aux prec emax s (Zpos m) e l in
  r = S754_infinity s \/ exists m' e', r = S754_finite s m' e'.
Proof.
  intros Hn. unfold binary_round_aux, shr_fexp.
  cbn [Zdigits2].
  set (n := (fexp prec emax (Zpos (digits2_pos m) + e) - e)%Z : Z) in *.
  assert (exists r0 s0, shr_record_of_loc (Zpos m) l =
            {| shr_m := Zpos m; shr_r := r0; shr_s := s0 |})
    as (r0 & s0 & E0).
  { destruct l as [|[| |]]; simpl; eauto. }
  rewrite E0.
  pose proof (shr_keeps_positive m r0 s0 e Hn) as (m1 & r1 & s1 & E1).
  pose proof (shr_exponent
                {| shr_m := Zpos m; shr_r := r0; shr_s := s0 |} e n) as X1.
  destruct (shr _ e n) as [mrs' e']. simpl in E1, X1. subst mrs'.
  cbn [shr_m].
  destruct (round_nearest_even_positive m1
              (loc_of_shr_record
                 {| shr_m := Zpos m1; shr_r := r1; shr_s := s1 |}))
    as (m2 & E2).
  rewrite E2. cbn [Zdigits2 shr_record_of_loc].
  assert (He : (SpecFloat.emin prec emax <= e')%Z).
  { subst e' n. unfold fexp, SpecFloat.emin in *. lia. }
  set (n2 := (fexp prec emax (Zpos (digits2_pos m2) + e') - e')%Z).
  assert (Hn2 : (n2 < Zpos (digits2_pos m2))%Z).
  { subst n2. unfold fexp, SpecFloat.emin, prec, emax in *. lia. }
  pose proof (shr_keeps_positive m2 false false e' Hn2)
    as (m3 & r3 & s3 & E3).
  destruct (shr _ e' n2) as [mrs'' e'']. simpl in E3. subst mrs''.
  cbn [shr_m].
  destruct (e'' <=? _)%Z; [right; eauto | left; reflexivity].
Qed.

Lemma digits2_pos_shifted (p k : positive) :
  digits2_pos (Pos.iter xO p k) = (digits2_pos p + k)%positive.
Proof.
  induction k as [|k IH] using Pos.peano_ind.
  - simpl. lia.
  - rewrite Pos.iter_succ. simpl. rewrite IH. lia.
Qed.

(** The exponent of a valid finite number is at least [emin]. *)
Lemma valid_exponent (s : bool) (m : positive) (e : Z) :
  valid_binary (S754_finite s m e) = true ->
  (SpecFloat.emin prec emax <= e)%Z.
Proof.
  unfold valid_binary, bounded, canonical_mantissa. intros H.
  apply andb_true_iff in H. destruct H as [H _]. apply Z.eqb_eq in H.
  unfold fexp in H. lia.
Qed.

Lemma binary_round_nonzero (s : bool) (m : positive) (e : Z) :
  (SpecFloat.emin prec emax <= e)%Z ->
  let r := binary_round prec emax s m e in
  r = S754_infinity s \/ exists m' e', r = S754_finite s m' e'.
Proof.
  intros He. unfold binary_round, shl_align.
  destruct (fexp prec emax (Zpos (digits2_pos m) + e) - e)%Z
    as [|k|k] eqn:E.
  - apply binary_round_aux_nonzero. rewrite E. lia.
  - apply binary_round_aux_nonzero. unfold fexp, prec in *. lia.
  - apply binary_round_aux_nonzero. rewrite digits2_pos_shifted.
    unfold fexp, prec in *. lia.
Qed.

(** The negative numbers: minus infinity and the finite ones of negative
    sign. *)
Lemma sf_negative_cases (x : spec_float) :
  SFltb x (S754_zero false) = true <->
  x = S754_infinity true \/ exists m e, x = S754_finite true m e.
Proof.
  split.
  - destruct x as [s|s| |s m e]; try destruct s; try discriminate; eauto.
  - intros [->|(m & e & ->)]; reflexivity.
Qed.

(** Twice a negative number is negative: the product does not
    underflow. *)
Lemma b64_double_negative (x : float) :
  (x <? 0) = true -> (2 * x <? 0) = true.
Proof.
  rewrite !FloatAxioms.ltb_spec, FloatAxioms.mul_spec.
  change (Prim2SF 0) with (S754_zero false).
  change (Prim2SF 2) with (S754_finite false 4503599627370496 (-51)).
  pose proof (Prim2SF_valid x) as V.
  intros H. apply sf_negative_cases in H. apply sf_negative_cases.
  destruct H as [->|(m & e & E)]; [left; reflexivity|].
  rewrite E in *. apply valid_exponent in V.
  unfold SF64mul, SFmul. cbn [xorb].
  apply binary_round_aux_nonzero.
  cbn [Pos.mul digits2_pos].
  unfold fexp, SpecFloat.emin, prec, emax in *. lia.
Qed.

(** A negative number less a number that is [>= 0.0] is negative. *)
Lemma b64_sub_negative (x y : float) :
  (x <? 0) = true -> (0 <=? y) = true -> (x - y <? 0) = true.
Proof.
  rewrite !FloatAxioms.ltb_spec, FloatAxioms.leb_spec, FloatAxioms.sub_spec.
  change (Prim2SF 0) with (S754_zero false).
  pose proof (Prim2SF_valid x) as Vx. pose proof (Prim2SF_valid y) as Vy.
  intros Hx Hy. apply sf_negative_cases in Hx. apply sf_negative_cases.
  generalize dependent (Prim2SF x). intros X Vx Hx.
  destruct (Prim2SF y) as [sy|sy| |sy my ey]; try destruct sy;
    try discriminate;
    destruct Hx as [->|(mx & ex & ->)];
    try (left; reflexivity); try (right; eexists; eexists; reflexivity).
  apply valid_exponent in Vx, Vy.
  unfold SF64sub, SFsub, cond_Zopp. cbn [Z.opp Z.sub Z.add Z.pos_sub].
  apply binary_round_nonzero. lia.
Qed.

Lemma b64_half_not_negative (x y : float) :
  (0 <=? y) = true -> (2 * x - y <? 0) = false -> (x <? 0) = false.
Proof.
  intros Hy H. destruct (x <? 0) eqn:E; [|reflexivity].
  rewrite (b64_sub_negative (b64_double_negative E) Hy) in H.
  discriminate.
Qed.

Lemma binary64_sign_laws : SignLaws binary64.
Proof.
  split.
  - reflexivity.
  - reflexivity.
  - exact b64_times_zero_not_negative.
  - exact b64_times_one_not_negative.
  - exact b64_quotient_not_negative.
  - exact b64_half_not_negative.
Qed.
End Binary64Signs.

(* ------------------------------------------------------------------ *)
(** ** The TRIPLE reduction of the MMS diagnostic *)
(* ------------------------------------------------------------------ *)

Section TripleReduction.
Local Open Scope float_scope.
Import MMS.

Lemma fold_exclusive_identity (x : float * float * float) :
  same_triple (MMSReduction_fold_exclusive x MMSReduction_identity) x.
Proof.
  destruct x as [[x0 x1] x2]. unfold MMSReduction_fold_exclusive,
    MMSReduction_identity, same_triple. simpl.
  change (- infinity) with neg_infinity.
  rewrite b64_ltb_neg_infinity, b64_ltb_infinity.
  repeat split; try apply same_value_refl. apply b64_add_zero.
Qed.

(** The larger of two doubles, chosen the way [fold<true>] does and the
    way the [MAX] macro does. *)
Lemma max_commutes (a b : float) :
  not_nan a -> not_nan b ->
  same_value (if a <? b then b else a) (if b <? a then a else b) /\
  same_value (MAX a b) (if a <? b then b else a).
Proof.
  intros Ha Hb. unfold MAX, same_value. simpl.
  destruct (b64_compare_cases Ha Hb)
    as [(-> & -> & _) | [(-> & -> & E & _) | (-> & -> & _)]];
    repeat split; auto.
  right. now rewrite b64_eqb_sym.
Qed.

Lemma min_commutes (a b : float) :
  not_nan a -> not_nan b ->
  same_value (if b <? a then b else a) (if a <? b then a else b) /\
  same_value (MIN a b) (if b <? a then b else a).
Proof.
  intros Ha Hb. unfold MIN, same_value. simpl.
  destruct (b64_compare_cases Ha Hb)
    as [(-> & -> & _) | [(-> & -> & E & _) | (-> & -> & _)]];
    repeat split; auto.
  right. now rewrite b64_eqb_sym.
Qed.

Lemma max_is_upper (a b : float) :
  not_nan a -> not_nan b ->
  let m := if a <? b then b else a in
  (m = a \/ m = b) /\ (a <=? m) = true /\ (b <=? m) = true.
Proof.
  intros Ha Hb. simpl.
  pose proof (b64_compare_cases Ha Ha) as Ra.
  pose proof (b64_compare_cases Hb Hb) as Rb.
  unfold not_nan in Ha, Hb.
  destruct (b64_compare_cases Ha Hb)
    as [(-> & _ & _ & L & _) | [(-> & _ & _ & _ & L) | (-> & _ & _ & _ & L)]];
    repeat split; auto.
  - destruct Rb as [(_ & _ & C & _) | [(_ & _ & _ & C & _) | (_ & _ & C & _)]];
      congruence.
  - destruct Ra as [(_ & _ & C & _) | [(_ & _ & _ & C & _) | (_ & _ & C & _)]];
      congruence.
  - destruct Ra as [(_ & _ & C & _) | [(_ & _ & _ & C & _) | (_ & _ & C & _)]];
      congruence.
Qed.

Lemma min_is_lower (a b : float) :
  not_nan a -> not_nan b ->
  let n := if b <? a then b else a in
  (n = a \/ n = b) /\ (n <=? a) = true /\ (n <=? b) = true.
Proof.
  intros Ha Hb. simpl.
  pose proof (b64_compare_cases Ha Ha) as Ra.
  pose proof (b64_compare_cases Hb Hb) as Rb.
  unfold not_nan in Ha, Hb.
  destruct (b64_compare_cases Hb Ha)
    as [(-> & _ & _ & L & _) | [(-> & _ & _ & _ & L) | (-> & _ & _ & _ & L)]];
    repeat split; auto.
  - destruct Rb as [(_ & _ & C & _) | [(_ & _ & _ & C & _) | (_ & _ & C & _)]];
      congruence.
  - destruct Ra as [(_ & _ & C & _) | [(_ & _ & _ & C & _) | (_ & _ & C & _)]];
      congruence.
  - destruct Ra as [(_ & _ & C & _) | [(_ & _ & _ & C & _) | (_ & _ & C & _)]];
      congruence.
Qed.
End TripleReduction.

(** C10.  In binary64, the TRIPLE reduction has identity
    [(-infinity, +infinity, 0)]; [fold<true>] with the identity on the right
    gives every triple back (each component the same value; the same double
    but for a sum of -0.0, which comes back as +0.0); [apply<true>] and
    [fold<true>] are the same function, as are [apply<false>] and
    [fold<false>]; and on triples without NaN [fold] is commutative, the
    compare-and-swap [apply] agrees with it, and the result is
    componentwise the maximum, the minimum and the sum. *)
Theorem MMSReduction_laws (x y : float * float * float) :
  MMS.MMSReduction_identity = (neg_infinity, infinity, 0%float) /\
  MMS.same_triple
    (MMS.MMSReduction_fold_exclusive x MMS.MMSReduction_identity) x /\
  MMS.MMSReduction_apply_exclusive x y = MMS.MMSReduction_fold_exclusive x y /\
  MMS.MMSReduction_apply_atomic x y = MMS.MMSReduction_fold_atomic x y /\
  (MMS.triple_not_nan x -> MMS.triple_not_nan y ->
   MMS.same_triple (MMS.MMSReduction_fold_exclusive x y)
                   (MMS.MMSReduction_fold_exclusive y x) /\
   MMS.same_triple (MMS.MMSReduction_apply_atomic x y)
                   (MMS.MMSReduction_fold_exclusive x y) /\
   let '(x0, x1, x2) := x in
   let '(y0, y1, y2) := y in
   let '(m, n, t) := MMS.MMSReduction_fold_exclusive x y in
   (m = x0 \/ m = y0) /\ (x0 <=? m)%float = true /\ (y0 <=? m)%float = true /\
   (n = x1 \/ n = y1) /\ (n <=? x1)%float = true /\ (n <=? y1)%float = true /\
   t = (x2 + y2)%float).
Proof.
  split; [reflexivity|].
  split; [apply fold_exclusive_identity|].
  split; [reflexivity|]. split; [reflexivity|].
  destruct x as [[x0 x1] x2], y as [[y0 y1] y2].
  intros (Hx0 & Hx1 & Hx2) (Hy0 & Hy1 & Hy2).
  destruct (max_commutes Hx0 Hy0) as [M1 M2].
  destruct (min_commutes Hx1 Hy1) as [N1 N2].
  destruct (max_is_upper Hx0 Hy0) as (U1 & U2 & U3).
  destruct (min_is_lower Hx1 Hy1) as (L1 & L2 & L3).
  unfold MMS.MMSReduction_fold_exclusive, MMS.MMSReduction_apply_atomic,
    MMS.same_triple.
  simpl in *.
  repeat split; try assumption.
  - left. apply b64_add_comm.
  - now left.
Qed.

(* ------------------------------------------------------------------ *)
(** ** The outer convergence test *)
(* ------------------------------------------------------------------ *)

Section OuterConvergence.
Local Open Scope float_scope.
Import Outer.

Variable epsi : float.

Local Abbreviation cell_passes := (Outer.cell_passes epsi).

Lemma scan_cells_true (cells : list (float * float)) (reads : nat) :
  fst (scan_cells epsi cells reads) = true <->
  forall cell, In cell cells -> cell_passes cell.
Proof.
  revert reads. induction cells as [|[flux0 flux0po] rest IH]; intros reads.
  - simpl. split; [intros _ cell [] | reflexivity].
  - cbn [scan_cells].
    change (dlt (convergence_df flux0 flux0po) (- INFINITY)%dbl)
      with (convergence_df flux0 flux0po <? neg_infinity).
    rewrite b64_ltb_neg_infinity.
    change (dlt epsi (convergence_df flux0 flux0po))
      with (epsi <? convergence_df flux0 flux0po).
    destruct (epsi <? convergence_df flux0 flux0po) eqn:E.
    + simpl. split; [discriminate|].
      intros H. specialize (H (flux0, flux0po) (or_introl eq_refl)).
      unfold Outer.cell_passes in H. simpl in H. congruence.
    + rewrite IH. split.
      * intros H cell [<-|Hc]; [exact E | now apply H].
      * intros H cell Hc. apply H. now right.
Qed.

Lemma scan_fields_true (fields : list (list (float * float))) (reads : nat) :
  fst (scan_fields epsi fields reads) = true <->
  forall field, In field fields ->
  forall cell, In cell field -> cell_passes cell.
Proof.
  revert reads. induction fields as [|field rest IH]; intros reads.
  - simpl. split; [intros _ field [] | reflexivity].
  - cbn [scan_fields].
    pose proof (scan_cells_true field reads) as C.
    destruct (scan_cells epsi field reads) as [ok reads'].
    simpl in C. destruct ok.
    + rewrite IH. split.
      * intros H f [<-|Hf]; [now apply C | now apply H].
      * intros H f Hf. apply H. now right.
    + simpl. split; [discriminate|].
      intros H. apply C. apply H. now left.
Qed.
End OuterConvergence.

(** C3 (amended).  In binary64, [TestOuterConvergence::cpu_implementation]
    returns true if and only if the inner-converged future is true and no
    cell of any energy group has [df > 100*convergence_eps], where
    [df = |flux/flux_prev - 1|], except that for a cell with
    [|flux_prev| < 1e-12] the previous flux is taken as 1 and the
    subtrahend as 0, so [df = |flux/1|]: such a cell fails the test when
    its flux exceeds the threshold.  When the inner did not converge it
    returns false having read no flux value. *)
Theorem TestOuterConvergence_returns
        (inner_converged : bool) (convergence_eps : float)
        (fields : list (list (float * float))) :
  (fst (Outer.TestOuterConvergence_cpu_implementation
          inner_converged convergence_eps fields) = true <->
   inner_converged = true /\
   forall field, In field fields -> forall cell, In cell field ->
     (100 * convergence_eps
        <? Outer.convergence_df (fst cell) (snd cell))%float = false) /\
  Outer.TestOuterConvergence_cpu_implementation false convergence_eps fields
    = (false, 0%nat) /\
  (forall flux0 flux0po : float,
     Outer.convergence_df flux0 flux0po =
     if (abs flux0po <? 0x1.19799812dea11p-40)%float
     then abs (flux0 / 1)%float
     else abs (flux0 / flux0po - 1)%float).
Proof.
  split; [|split].
  - unfold Outer.TestOuterConvergence_cpu_implementation.
    destruct inner_converged; simpl negb; cbv iota.
    + rewrite scan_fields_true. unfold Outer.cell_passes. simpl. tauto.
    + simpl. split; [discriminate | intros [H _]; discriminate].
  - reflexivity.
  - intros flux0 flux0po. unfold Outer.convergence_df. simpl.
    destruct (abs flux0po <? 0x1.19799812dea11p-40)%float; [|reflexivity].
    now rewrite b64_sub_zero.
Qed.

(* ------------------------------------------------------------------ *)
(** ** The MMS comparison *)
(* ------------------------------------------------------------------ *)

(** C4 (amended).  In [MMSCompare::cpu_implementation], for a cell whose
    reference flux is below 1e-12 the reference flux is replaced by 1.0 and
    the subtrahend by 0.0, so the cell's error value is
    [df = |flux/1.0 - 0.0|], the magnitude of the computed flux: the cell
    adds [df] to the sum component and raises the max component when [df]
    exceeds it. *)
Theorem compare_underflow_cell
        {D : Type} {ops : DoubleOps D}
        (acc : MMS.MomentTriple (D := D)) (flux ref_flux : D) :
  (ref_flux <? d_tolr)%dbl = true ->
  let df := fabs (flux / d_1 - d_0)%dbl in
  MMS.compare_df flux ref_flux = df /\
  MMS.compare_cell acc (flux, ref_flux) =
  (let '(max, min, sum) := acc in
   (if (df >? max)%dbl then df else max,
    if (df <? min)%dbl then df else min,
    (sum + df)%dbl)).
Proof.
  intros H df.
  assert (E : MMS.compare_df flux ref_flux = df).
  { unfold MMS.compare_df. now rewrite H. }
  split; [exact E|].
  destruct acc as [[max min] sum]. unfold MMS.compare_cell.
  cbn [fst snd]. now rewrite E.
Qed.

(* ------------------------------------------------------------------ *)
(** ** The cell boundaries of the MMS tasks *)
(* ------------------------------------------------------------------ *)

Section Boundaries.
Context {D : Type} {ops : DoubleOps D}.
Import MMS.

Lemma boundary_fill_step (step : D) (n : nat) :
  forall prev i, (i < n)%nat ->
    get (boundary_fill prev step n) i =
    (get (prev :: boundary_fill prev step n) i + step)%dbl.
Proof.
  induction n as [|n IH]; intros prev i Hi; [lia|].
  destruct i as [|i]; [reflexivity|].
  cbn [boundary_fill]. cbv zeta.
  change (get ((prev + step)%dbl :: boundary_fill (prev + step)%dbl step n) (S i))
    with (get (boundary_fill (prev + step)%dbl step n) i).
  rewrite IH by lia. reflexivity.
Qed.

(** Every slot after the first is the slot before it plus the step. *)
Lemma boundary_array_step (b0 step : D) (n i : nat) :
  (1 <= i <= n)%nat ->
  get (boundary_array b0 step n) i =
  (get (boundary_array b0 step n) (i - 1) + step)%dbl.
Proof.
  intros Hi. unfold boundary_array.
  destruct i as [|i]; [lia|].
  replace (S i - 1)%nat with i by lia.
  change (get (b0 :: boundary_fill b0 step n) (S i))
    with (get (boundary_fill b0 step n) i).
  apply boundary_fill_step. lia.
Qed.

(** In both tasks the three arrays advance by [dx]. *)
Lemma boundaries_advance_by_dx (g : Grid) (lo : Z * Z * Z) :
  let b := MMSInitFlux_boundaries g lo in
  MMSInitSource_boundaries g lo = b /\
  (forall i, (1 <= i <= nx_per_chunk g)%nat ->
     get (ib b) i = (get (ib b) (i - 1) + cell_dx g)%dbl) /\
  (forall j, (1 <= j <= ny_per_chunk g)%nat ->
     get (jb b) j = (get (jb b) (j - 1) + cell_dx g)%dbl) /\
  (forall k, (1 <= k <= nz_per_chunk g)%nat ->
     get (kb b) k = (get (kb b) (k - 1) + cell_dx g)%dbl).
Proof.
  destruct lo as [[lo0 lo1] lo2]. simpl.
  split; [reflexivity|].
  repeat split; intros; now apply boundary_array_step.
Qed.
End Boundaries.

(* ------------------------------------------------------------------ *)
(** ** The outer source *)
(* ------------------------------------------------------------------ *)

(** The subtractive [gcd] of outer.cc is the greatest common divisor of
    positive arguments, within [a + b] calls. *)
Lemma gcd_positive (fuel : nat) :
  forall a b : Z, (0 < a)%Z -> (0 < b)%Z -> (a + b <= Z.of_nat fuel)%Z ->
                  Outer.gcd fuel a b = Some (Z.gcd a b).
Proof.
  induction fuel as [|fuel IH]; intros a b Ha Hb Hf; [lia|].
  cbn [Outer.gcd].
  destruct (Z.ltb_spec a b) as [L|L].
  - rewrite IH by lia. now rewrite Z.gcd_sub_diag_r.
  - rewrite Z.gtb_ltb. destruct (Z.ltb_spec b a) as [G|G].
    + rewrite IH by lia.
      now rewrite (Z.gcd_comm (a - b) b), Z.gcd_sub_diag_r, Z.gcd_comm.
    + assert (a = b) as -> by lia.
      rewrite Z.gcd_diag, Z.abs_eq by lia. reflexivity.
Qed.

(** Lists built by nested loops. *)
Section NestedLoops.
Context {A B : Type}.

Lemma fold_left_flat_map {S : Type} (f : S -> B -> S) (h : A -> list B)
      (l : list A) (a : S) :
  fold_left (fun a x => fold_left f (h x) a) l a =
  fold_left f (flat_map h l) a.
Proof.
  revert a. induction l as [|x l IH]; intros a; simpl; [reflexivity|].
  now rewrite fold_left_app, IH.
Qed.

Lemma fold_left_append (f : A -> B) (l : list A) (out : list B) :
  fold_left (fun out a => out ++ [f a]) l out = out ++ map f l.
Proof.
  revert out. induction l as [|x l IH]; intros out; simpl.
  - now rewrite app_nil_r.
  - rewrite IH, <- app_assoc. reflexivity.
Qed.

Lemma fold_left_append_lists (f : A -> list B) (l : list A) (out : list B) :
  fold_left (fun out a => out ++ f a) l out = out ++ flat_map f l.
Proof.
  revert out. induction l as [|x l IH]; intros out; simpl.
  - now rewrite app_nil_r.
  - rewrite IH, <- app_assoc. reflexivity.
Qed.

(** Pieces that carry their index as a tag do not overlap. *)
Lemma NoDup_flat_map_tagged (f : A -> list B) (tag : B -> A) (l : list A) :
  NoDup l ->
  (forall a, In a l -> NoDup (f a)) ->
  (forall a b, In a l -> In b (f a) -> tag b = a) ->
  NoDup (flat_map f l).
Proof.
  induction l as [|x l IH]; intros ND Hf Ht; simpl; [constructor|].
  inversion ND as [|? ? Hx ND']; subst.
  apply NoDup_app.
  - apply Hf. now left.
  - apply IH; [assumption | |].
    + intros a Ha. apply Hf. now right.
    + intros a b Ha. apply Ht. now right.
  - intros b Hb Hb'. apply in_flat_map in Hb' as (a & Ha & Hba).
    assert (tag b = x) by (apply Ht; [now left | assumption]).
    assert (tag b = a) by (apply Ht; [now right | assumption]).
    congruence.
Qed.
End NestedLoops.

Section StripBuffer.
Context {D : Type} {ops : DoubleOps D}.
Import Outer.

Lemma upd_length (buf : list D) (k : nat) (v : D) :
  length (upd buf k v) = length buf.
Proof.
  revert k. induction buf as [|h t IH]; intros [|k]; simpl; auto.
Qed.

Lemma get_upd_same (buf : list D) (k : nat) (v : D) :
  (k < length buf)%nat -> get (upd buf k v) k = v.
Proof.
  revert k. induction buf as [|h t IH]; intros [|k] H; simpl in *;
    try lia; [reflexivity|].
  apply IH. lia.
Qed.

Lemma get_upd_other (buf : list D) (k k' : nat) (v : D) :
  k <> k' -> get (upd buf k v) k' = get buf k'.
Proof.
  revert k k'. induction buf as [|h t IH]; intros [|k] [|k'] H; simpl;
    try reflexivity; try lia.
  apply IH. lia.
Qed.

Variables (K : Type) (pos : K -> nat) (val : K -> D).

Local Abbreviation store_all := (Outer.store_all pos val).

Lemma store_all_length (ks : list K) (buf : list D) :
  length (store_all ks buf) = length buf.
Proof.
  revert buf. induction ks as [|k ks IH]; intros buf; [reflexivity|].
  change (store_all (k :: ks) buf)
    with (store_all ks (upd buf (pos k) (val k))).
  now rewrite IH, upd_length.
Qed.

Lemma store_all_untouched (ks : list K) (buf : list D) (p : nat) :
  ~ In p (map pos ks) -> get (store_all ks buf) p = get buf p.
Proof.
  revert buf. induction ks as [|k ks IH]; intros buf H; [reflexivity|].
  change (store_all (k :: ks) buf)
    with (store_all ks (upd buf (pos k) (val k))).
  simpl in H. rewrite IH by tauto.
  apply get_upd_other. tauto.
Qed.

(** When no slot is stored twice, each slot holds what was stored. *)
Lemma store_all_get (ks : list K) (buf : list D) (k : K) :
  NoDup (map pos ks) -> In k ks -> (pos k < length buf)%nat ->
  get (store_all ks buf) (pos k) = val k.
Proof.
  revert buf. induction ks as [|k0 ks IH]; intros buf ND Hk Hl; [destruct Hk|].
  simpl in ND. inversion ND as [|? ? Hn ND']; subst.
  change (store_all (k0 :: ks) buf)
    with (store_all ks (upd buf (pos k0) (val k0))).
  destruct Hk as [->|Hk].
  - rewrite store_all_untouched by assumption. now apply get_upd_same.
  - apply IH; try assumption. now rewrite upd_length.
Qed.
End StripBuffer.

Section ListFacts.
Context {A B : Type}.

Lemma fold_left_map_arg {S : Type} (f : S -> B -> S) (h : A -> B)
      (l : list A) (a : S) :
  fold_left f (map h l) a = fold_left (fun a x => f a (h x)) l a.
Proof.
  revert a. induction l as [|x l IH]; intros a; simpl; [reflexivity|].
  apply IH.
Qed.

Lemma fold_left_ext_in {S : Type} (f g : S -> A -> S) (l : list A) (a : S) :
  (forall a x, In x l -> f a x = g a x) ->
  fold_left f l a = fold_left g l a.
Proof.
  revert a. induction l as [|x l IH]; intros a H; simpl; [reflexivity|].
  rewrite H by now left. apply IH. intros a' x' Hx. apply H. now right.
Qed.

Lemma map_flat_map_comm {C : Type} (f : B -> C) (g : A -> list B)
      (l : list A) :
  map f (flat_map g l) = flat_map (fun x => map f (g x)) l.
Proof.
  induction l as [|x l IH]; simpl; [reflexivity|].
  now rewrite map_app, IH.
Qed.

Lemma flat_map_ext_in (f g : A -> list B) (l : list A) :
  (forall x, In x l -> f x = g x) -> flat_map f l = flat_map g l.
Proof.
  induction l as [|x l IH]; intros H; simpl; [reflexivity|].
  rewrite H by now left. f_equal. apply IH. intros y Hy. apply H. now right.
Qed.
End ListFacts.

Lemma map_offset_seq (a n : nat) :
  forall b, map (fun i => (a + i)%nat) (seq b n) = seq (a + b) n.
Proof.
  induction n as [|n IH]; intros b; simpl; [reflexivity|].
  f_equal. rewrite IH. f_equal. lia.
Qed.

Section CalcOuterSourceFacts.
Context {D : Type} {ops : DoubleOps D}.
Import Outer.

Variable num_groups : nat.
Variables max_x max_y max_z : nat.
Variable fa_qi0 : nat -> nat -> nat -> nat -> D.
Variable fa_flux0 : nat -> nat -> nat -> nat -> D.
Variable fa_slgg : nat -> Z -> nat -> MomentQuad D.
Variable fa_mat : nat -> nat -> nat -> Z.

Variable strip : nat.          (* strip_size *)
Variable strips : nat.         (* how many strips make a row *)
Hypothesis strip_pos : (0 < strip)%nat.
Hypothesis row_is_strips : max_x = (strips * strip)%nat.

Local Abbreviation spec_qo0 :=
  (Outer.spec_qo0 num_groups fa_qi0 fa_flux0 fa_slgg fa_mat).
Local Abbreviation strip_slots := (Outer.strip_slots num_groups strip).
Local Abbreviation slot_index := (Outer.slot_index strip).
Local Abbreviation strip_writes :=
  (Outer.strip_writes num_groups fa_qi0 fa_flux0 fa_slgg fa_mat strip).
Local Abbreviation row_writes :=
  (Outer.row_writes num_groups fa_qi0 fa_flux0 fa_slgg fa_mat strip strips).
Local Abbreviation plane_writes :=
  (Outer.plane_writes num_groups max_y fa_qi0 fa_flux0 fa_slgg fa_mat
                      strip strips).

Lemma strip_slots_indices :
  map slot_index strip_slots = seq 0 (num_groups * strip).
Proof.
  unfold strip_slots. induction num_groups as [|G IH]; [reflexivity|].
  rewrite seq_S, flat_map_app, map_app, IH. simpl flat_map.
  rewrite app_nil_r, map_map. unfold slot_index. simpl.
  rewrite (map_offset_seq (G * strip) strip 0).
  replace (strip + G * strip)%nat with (G * strip + strip)%nat by lia.
  rewrite seq_app. do 2 f_equal. lia.
Qed.

Lemma load_strip_stores (x y z : nat) (buf : list D) :
  load_strip num_groups fa_flux0 strip x y z buf =
  store_all slot_index (fun p => fa_flux0 (fst p) (x + snd p)%nat y z)
            strip_slots buf.
Proof.
  unfold load_strip, store_all, strip_slots.
  rewrite <- fold_left_flat_map. apply fold_left_ext_in.
  intros b g _. now rewrite fold_left_map_arg.
Qed.

Lemma load_strip_length (x y z : nat) (buf : list D) :
  length (load_strip num_groups fa_flux0 strip x y z buf) = length buf.
Proof. rewrite load_strip_stores. apply store_all_length. Qed.

(** After the loading loops, slot [g * strip_size + i] holds the flux of
    group [g] at cell [x + i]. *)
Lemma load_strip_get (x y z : nat) (buf : list D) (g i : nat) :
  length buf = (num_groups * strip)%nat ->
  (g < num_groups)%nat -> (i < strip)%nat ->
  get (load_strip num_groups fa_flux0 strip x y z buf) (g * strip + i) =
  fa_flux0 g (x + i)%nat y z.
Proof.
  intros L Hg Hi. rewrite load_strip_stores.
  apply (@store_all_get _ _ _ slot_index
           (fun p => fa_flux0 (fst p) (x + snd p)%nat y z)
           strip_slots buf (g, i)).
  - rewrite strip_slots_indices. apply seq_NoDup.
  - unfold strip_slots. apply in_flat_map. exists g. split.
    + apply in_seq. lia.
    + apply in_map. apply in_seq. lia.
  - unfold slot_index. simpl. rewrite L. nia.
Qed.

(** With the strip loaded, the scattering loop computes the value of the
    specification. *)
Lemma scatter_loop_spec (x y z : nat) (buf : list D) (g1 i : nat) :
  length buf = (num_groups * strip)%nat -> (i < strip)%nat ->
  scatter_loop num_groups fa_slgg strip g1 i (fa_mat (x + i)%nat y z)
    (load_strip num_groups fa_flux0 strip x y z buf)
    (fa_qi0 g1 (x + i)%nat y z) =
  spec_qo0 g1 (x + i)%nat y z.
Proof.
  intros L Hi. unfold scatter_loop, Outer.spec_qo0.
  apply fold_left_ext_in. intros acc g2 Hg2. apply in_seq in Hg2.
  destruct (g1 =? g2)%nat; [reflexivity|].
  rewrite load_strip_get by (assumption || lia). reflexivity.
Qed.

Lemma compute_strip_writes (x y z : nat) (buf : list D)
      (out : list (write (D := D))) :
  length buf = (num_groups * strip)%nat ->
  compute_strip num_groups fa_qi0 fa_slgg fa_mat strip x y z
    (load_strip num_groups fa_flux0 strip x y z buf) out =
  out ++ strip_writes x y z.
Proof.
  intros L. unfold compute_strip, strip_writes.
  rewrite <- fold_left_append_lists.
  apply fold_left_ext_in. intros o g1 _.
  rewrite fold_left_append. f_equal.
  apply map_ext_in. intros i Hi. apply in_seq in Hi.
  f_equal. apply scatter_loop_spec; [assumption | lia].
Qed.

Lemma x_loop_writes (y z : nat) (n : nat) :
  forall (j fuel : nat) (buf : list D) (out : list (write (D := D))),
    (j + n = strips)%nat -> (n < fuel)%nat ->
    length buf = (num_groups * strip)%nat ->
    exists buf',
      x_loop num_groups max_x fa_qi0 fa_flux0 fa_slgg fa_mat
             fuel strip (j * strip) y z (buf, out) =
      Returns (buf', out ++ flat_map (fun j' => strip_writes (j' * strip) y z)
                                     (seq j n)) /\
      length buf' = (num_groups * strip)%nat.
Proof.
  induction n as [|n IH]; intros j [|fuel] buf out Hj Hf L; try lia.
  - exists buf. split; [|exact L]. cbn [x_loop].
    assert (E : (j * strip <? max_x)%nat = false).
    { apply Nat.ltb_ge. rewrite row_is_strips. nia. }
    rewrite E. simpl. now rewrite app_nil_r.
  - cbn [x_loop].
    assert (E : (j * strip <? max_x)%nat = true).
    { apply Nat.ltb_lt. rewrite row_is_strips. nia. }
    rewrite E. cbn [fst snd].
    rewrite compute_strip_writes by assumption.
    replace (j * strip + strip)%nat with (S j * strip)%nat by lia.
    destruct (IH (S j) fuel
                 (load_strip num_groups fa_flux0 strip (j * strip) y z buf)
                 (out ++ strip_writes (j * strip) y z))
      as (buf' & R & L'); try lia.
    { now rewrite load_strip_length. }
    exists buf'. split; [|exact L'].
    rewrite R. simpl. now rewrite <- app_assoc.
Qed.

Lemma y_loop_writes (fuel z : nat) (ys : list nat) :
  (strips < fuel)%nat ->
  forall (buf : list D) (out : list (write (D := D))),
    length buf = (num_groups * strip)%nat ->
    exists buf',
      fold_left (fun r y =>
                   bind r (x_loop num_groups max_x fa_qi0 fa_flux0 fa_slgg
                                  fa_mat fuel strip 0 y z))
                ys (Returns (buf, out)) =
      Returns (buf', out ++ flat_map (fun y => row_writes y z) ys) /\
      length buf' = (num_groups * strip)%nat.
Proof.
  intros Hf. induction ys as [|y ys IH]; intros buf out L.
  - exists buf. simpl. now rewrite app_nil_r.
  - cbn [fold_left bind].
    destruct (@x_loop_writes y z strips 0%nat fuel buf out)
      as (buf1 & R & L1); try lia; try assumption.
    change (0 * strip)%nat with 0%nat in R. rewrite R.
    destruct (IH buf1 (out ++ row_writes y z) L1) as (buf' & R' & L').
    exists buf'. split; [|exact L'].
    change (flat_map (fun j' => strip_writes (j' * strip) y z) (seq 0 strips))
      with (row_writes y z).
    rewrite R'. cbn [flat_map]. now rewrite <- app_assoc.
Qed.

Lemma z_loop_writes (fuel : nat) (zs : list nat) :
  (strips < fuel)%nat ->
  forall (buf : list D) (out : list (write (D := D))),
    length buf = (num_groups * strip)%nat ->
    exists buf',
      fold_left (fun r z =>
                   bind r (y_loop num_groups max_x max_y fa_qi0 fa_flux0
                                  fa_slgg fa_mat fuel strip z))
                zs (Returns (buf, out)) =
      Returns (buf', out ++ flat_map plane_writes zs) /\
      length buf' = (num_groups * strip)%nat.
Proof.
  intros Hf. induction zs as [|z zs IH]; intros buf out L.
  - exists buf. simpl. now rewrite app_nil_r.
  - cbn [fold_left bind].
    destruct (@y_loop_writes fuel z (seq 0 max_y) Hf buf out L)
      as (buf1 & R & L1).
    change (y_loop num_groups max_x max_y fa_qi0 fa_flux0 fa_slgg fa_mat
                   fuel strip z (buf, out) =
            Returns (buf1, out ++ plane_writes z)) in R.
    rewrite R.
    destruct (IH buf1 (out ++ plane_writes z) L1) as (buf' & R' & L').
    exists buf'. split; [|exact L'].
    rewrite R'. cbn [flat_map]. now rewrite <- app_assoc.
Qed.
End CalcOuterSourceFacts.

Lemma NoDup_map_inj {A B : Type} (f : A -> B) (l : list A) :
  (forall a b, In a l -> In b l -> f a = f b -> a = b) ->
  NoDup l -> NoDup (map f l).
Proof.
  induction l as [|x l IH]; intros Inj ND; simpl; [constructor|].
  inversion ND as [|? ? Hx ND']; subst. constructor.
  - intros H. apply in_map_iff in H as (y & E & Hy).
    assert (y = x) by (apply Inj; [now right | now left | assumption]).
    congruence.
  - apply IH; [|assumption].
    intros a b Ha Hb. apply Inj; now right.
Qed.

Section AllWrites.
Context {D : Type} {ops : DoubleOps D}.
Import Outer.

Variable num_groups : nat.
Variables max_x max_y max_z : nat.
Variable fa_qi0 : nat -> nat -> nat -> nat -> D.
Variable fa_flux0 : nat -> nat -> nat -> nat -> D.
Variable fa_slgg : nat -> Z -> nat -> MomentQuad D.
Variable fa_mat : nat -> nat -> nat -> Z.
Variable strip : nat.
Variable strips : nat.
Hypothesis strip_pos : (0 < strip)%nat.
Hypothesis row_is_strips : max_x = (strips * strip)%nat.

Local Abbreviation spec_qo0 :=
  (Outer.spec_qo0 num_groups fa_qi0 fa_flux0 fa_slgg fa_mat).
Local Abbreviation writes :=
  (all_writes num_groups max_y max_z fa_qi0 fa_flux0 fa_slgg fa_mat
              strip strips).

Lemma in_all_writes (w : write (D := D)) :
  In w writes <->
  exists g x y z,
    w = ((g, x, y, z), spec_qo0 g x y z) /\
    (g < num_groups)%nat /\ (x < max_x)%nat /\
    (y < max_y)%nat /\ (z < max_z)%nat.
Proof.
  unfold all_writes, plane_writes, row_writes, strip_writes. split.
  - intros H.
    apply in_flat_map in H as (z & Hz & H).
    apply in_flat_map in H as (y & Hy & H).
    apply in_flat_map in H as (j & Hj & H).
    apply in_flat_map in H as (g & Hg & H).
    apply in_map_iff in H as (i & <- & Hi).
    apply in_seq in Hz, Hy, Hj, Hg, Hi.
    exists g, (j * strip + i)%nat, y, z.
    repeat split; try lia. rewrite row_is_strips. nia.
  - intros (g & x & y & z & -> & Hg & Hx & Hy & Hz).
    pose proof (Nat.div_mod_eq x strip) as E.
    pose proof (Nat.mod_upper_bound x strip ltac:(lia)) as M.
    assert (J : (x / strip < strips)%nat).
    { apply Nat.Div0.div_lt_upper_bound.
      rewrite Nat.mul_comm, <- row_is_strips. exact Hx. }
    apply in_flat_map. exists z. split; [apply in_seq; lia|].
    apply in_flat_map. exists y. split; [apply in_seq; lia|].
    apply in_flat_map. exists (x / strip)%nat. split; [apply in_seq; lia|].
    apply in_flat_map. exists g. split; [apply in_seq; lia|].
    apply in_map_iff. exists (x mod strip)%nat. split; [|apply in_seq; lia].
    replace (x / strip * strip + x mod strip)%nat with x by lia.
    reflexivity.
Qed.

Lemma all_writes_keys_NoDup : NoDup (map fst writes).
Proof.
  unfold all_writes, plane_writes, row_writes, strip_writes.
  rewrite map_flat_map_comm.
  apply (NoDup_flat_map_tagged _ (fun k : nat * nat * nat * nat => snd k));
    [apply seq_NoDup | |].
  2:{ intros z k _ H. apply in_map_iff in H as (w & <- & H).
      apply in_flat_map in H as (y & _ & H).
      apply in_flat_map in H as (j & _ & H).
      apply in_flat_map in H as (g & _ & H).
      apply in_map_iff in H as (i & <- & _).
      reflexivity. }
  intros z _. rewrite map_flat_map_comm.
  apply (NoDup_flat_map_tagged _
           (fun k : nat * nat * nat * nat => snd (fst k)));
    [apply seq_NoDup | |].
  2:{ intros y k _ H. apply in_map_iff in H as (w & <- & H).
      apply in_flat_map in H as (j & _ & H).
      apply in_flat_map in H as (g & _ & H).
      apply in_map_iff in H as (i & <- & _).
      reflexivity. }
  intros y _. rewrite map_flat_map_comm.
  apply (NoDup_flat_map_tagged _
           (fun k : nat * nat * nat * nat =>
              (snd (fst (fst k)) / strip)%nat));
    [apply seq_NoDup | |].
  2:{ intros j k _ H. apply in_map_iff in H as (w & <- & H).
      apply in_flat_map in H as (g & _ & H).
      apply in_map_iff in H as (i & <- & Hi).
      apply in_seq in Hi. cbn [fst snd].
      symmetry. apply (Nat.div_unique _ _ _ i); lia. }
  intros j _. rewrite map_flat_map_comm.
  apply (NoDup_flat_map_tagged _
           (fun k : nat * nat * nat * nat => fst (fst (fst k))));
    [apply seq_NoDup | |].
  2:{ intros g k _ H.
      rewrite map_map in H. apply in_map_iff in H as (i & <- & _).
      reflexivity. }
  intros g _. rewrite map_map. cbn [fst].
  apply NoDup_map_inj; [|apply seq_NoDup].
  intros a b _ _ E. injection E. lia.
Qed.
End AllWrites.

(** The loop nest on extents [max_x], [max_y], [max_z] with [max_x]
    positive runs to its end (any step budget of at least [max_x + 32]),
    blocks the x axis in strips of width [gcd(max_x, 32)], and its stores to
    [qo0] are: exactly one for every group [g1] and every triple of counters
    below the extents, of the value [qi[g1]] plus, for every group
    [g2 != g1] in order, [slgg[g1][mat][g2][0] * flux0[g2]], all read at the
    point the counters name. *)
Lemma CalcOuterSource_box_stores
        {D : Type} {ops : DoubleOps D}
        (num_groups max_x max_y max_z : nat)
        (fa_qi0 fa_flux0 : nat -> nat -> nat -> nat -> D)
        (fa_slgg : nat -> Z -> nat -> MomentQuad D)
        (fa_mat : nat -> nat -> nat -> Z)
        (fuel : nat) (junk : D) :
  (0 < max_x)%nat -> (max_x + 32 <= fuel)%nat ->
  exists qo0s,
    Outer.gcd fuel (Z.of_nat max_x) 32 = Some (Z.gcd (Z.of_nat max_x) 32) /\
    Outer.CalcOuterSource_cpu_implementation
      num_groups max_x max_y max_z fa_qi0 fa_flux0 fa_slgg fa_mat fuel junk
    = Returns qo0s /\
    NoDup (map fst qo0s) /\
    (forall g1 x y z,
       In (g1, x, y, z) (map fst qo0s) <->
       (g1 < num_groups)%nat /\ (x < max_x)%nat /\
       (y < max_y)%nat /\ (z < max_z)%nat) /\
    (forall g1 x y z v,
       In ((g1, x, y, z), v) qo0s ->
       v = Outer.spec_qo0 num_groups fa_qi0 fa_flux0 fa_slgg fa_mat g1 x y z).
Proof.
  intros Hx Hf.
  assert (G : Outer.gcd fuel (Z.of_nat max_x) 32
              = Some (Z.gcd (Z.of_nat max_x) 32)).
  { apply gcd_positive; lia. }
  set (s := Z.gcd (Z.of_nat max_x) 32) in *.
  assert (Sp : (0 < s)%Z).
  { pose proof (Z.gcd_nonneg (Z.of_nat max_x) 32).
    assert (s <> 0)%Z; [|lia].
    intros E. apply Z.gcd_eq_0_r in E. discriminate. }
  destruct (Z.gcd_divide_l (Z.of_nat max_x) 32) as [q Hq]. fold s in Hq.
  assert (Qp : (0 <= q)%Z) by nia.
  assert (Row : max_x = (Z.to_nat q * Z.to_nat s)%nat) by nia.
  assert (Spn : (0 < Z.to_nat s)%nat) by lia.
  assert (Fs : (Z.to_nat q < fuel)%nat) by nia.
  destruct (z_loop_writes num_groups max_y fa_qi0 fa_flux0 fa_slgg fa_mat
              Spn Row (seq 0 max_z) Fs
              (repeat junk (num_groups * Z.to_nat s)) [])
    as (buf' & R & _); [apply repeat_length|].
  pose proof (in_all_writes num_groups max_y max_z fa_qi0 fa_flux0 fa_slgg
                fa_mat (Z.to_nat q) Spn Row) as In_writes.
  exists (Outer.all_writes num_groups max_y max_z fa_qi0 fa_flux0 fa_slgg fa_mat
                     (Z.to_nat s) (Z.to_nat q)).
  split; [exact G|]. split.
  - unfold Outer.CalcOuterSource_cpu_implementation. rewrite G.
    cbv zeta. unfold Outer.z_loop.
    unfold Outer.strip_state, Outer.write in *. rewrite R. reflexivity.
  - split.
    { exact (all_writes_keys_NoDup num_groups max_y max_z fa_qi0 fa_flux0
               fa_slgg fa_mat (Z.to_nat q) Spn Row). }
    split.
    + intros g1 x y z. rewrite in_map_iff. split.
      * intros ([k v] & E & H). simpl in E. subst k.
        apply In_writes in H as (g & x' & y' & z' & E & B).
        injection E as -> -> -> -> _. exact B.
      * intros B. eexists. split; [|apply In_writes].
        2:{ exists g1, x, y, z. split; [reflexivity | exact B]. }
        reflexivity.
    + intros g1 x y z v H.
      apply In_writes in H as (g & x' & y' & z' & E & _).
      now injection E as -> -> -> -> ->.
Qed.

Section ChunkOfTheTask.
Import Outer.
Variable dom : Domain.

Local Abbreviation max_x := (width (px (dom_lo dom)) (px (dom_hi dom))).
Local Abbreviation max_y := (width (py (dom_lo dom)) (py (dom_hi dom))).
Local Abbreviation max_z := (width (pz (dom_lo dom)) (pz (dom_hi dom))).

(** The counters below the extents name the cells of a chunk that starts
    at the origin. *)
Lemma in_domain_at_origin (x y z : nat) :
  dom_lo dom = (0, 0, 0)%Z ->
  in_domain dom (at_point x y z) = true <->
  (x < max_x)%nat /\ (y < max_y)%nat /\ (z < max_z)%nat.
Proof.
  intros E. unfold in_domain, at_point, width. rewrite E.
  cbn [px py pz fst snd].
  rewrite !andb_true_iff, !Z.leb_le. lia.
Qed.

(** The box of the counters and the chunk have their first points at the
    origin and at [dom.bounds.lo]: away from the origin, on an axis
    where the chunk starts above 0 the counter 0 is below the chunk and
    the upper bound is beyond the counters, and on an axis where it
    starts below 0 the last counter is above the chunk and the lower
    bound is no counter. *)
Lemma counter_outside_domain :
  dom_lo dom <> (0, 0, 0)%Z ->
  (0 < max_x)%nat -> (0 < max_y)%nat -> (0 < max_z)%nat ->
  exists x y z,
    (x < max_x)%nat /\ (y < max_y)%nat /\ (z < max_z)%nat /\
    in_domain dom (at_point x y z) = false.
Proof.
  intros Ne Hx Hy Hz. unfold in_domain, at_point, width in *.
  destruct (dom_lo dom) as [[lx ly] lz].
  destruct (dom_hi dom) as [[hx hy] hz].
  cbn [px py pz fst snd] in *.
  assert (C : (lx <> 0 \/ ly <> 0 \/ lz <> 0)%Z).
  { destruct (Z.eq_dec lx 0) as [->|]; [|now left].
    destruct (Z.eq_dec ly 0) as [->|]; [|now right; left].
    destruct (Z.eq_dec lz 0) as [->|]; [|now right; right].
    now contradiction Ne. }
  exists (if (0 <? lx)%Z then 0%nat else Z.to_nat (hx - lx)).
  exists (if (0 <? ly)%Z then 0%nat else Z.to_nat (hy - ly)).
  exists (if (0 <? lz)%Z then 0%nat else Z.to_nat (hz - lz)).
  repeat split.
  - destruct (0 <? lx)%Z; lia.
  - destruct (0 <? ly)%Z; lia.
  - destruct (0 <? lz)%Z; lia.
  - rewrite !andb_false_iff, !Z.leb_gt.
    destruct (Z.ltb_spec 0 lx), (Z.ltb_spec 0 ly), (Z.ltb_spec 0 lz); lia.
Qed.

Lemma domain_point_no_counter :
  dom_lo dom <> (0, 0, 0)%Z ->
  (0 < max_x)%nat -> (0 < max_y)%nat -> (0 < max_z)%nat ->
  exists p,
    in_domain dom p = true /\
    forall x y z,
      (x < max_x)%nat -> (y < max_y)%nat -> (z < max_z)%nat ->
      at_point x y z <> p.
Proof.
  intros Ne Hx Hy Hz. unfold in_domain, at_point, width in *.
  destruct (dom_lo dom) as [[lx ly] lz].
  destruct (dom_hi dom) as [[hx hy] hz].
  cbn [px py pz fst snd] in *.
  assert (C : (lx <> 0 \/ ly <> 0 \/ lz <> 0)%Z).
  { destruct (Z.eq_dec lx 0) as [->|]; [|now left].
    destruct (Z.eq_dec ly 0) as [->|]; [|now right; left].
    destruct (Z.eq_dec lz 0) as [->|]; [|now right; right].
    now contradiction Ne. }
  exists (if (0 <? lx)%Z then hx else lx,
          if (0 <? ly)%Z then hy else ly,
          if (0 <? lz)%Z then hz else lz).
  cbn [px py pz fst snd]. split.
  - rewrite !andb_true_iff, !Z.leb_le.
    destruct (0 <? lx)%Z, (0 <? ly)%Z, (0 <? lz)%Z; lia.
  - intros x y z Bx By Bz E. injection E as Ex Ey Ez.
    destruct (Z.ltb_spec 0 lx), (Z.ltb_spec 0 ly), (Z.ltb_spec 0 lz); lia.
Qed.
End ChunkOfTheTask.

(** C5 (the code departs from the claim).  On a chunk [dom] of positive
    width, [CalcOuterSource::cpu_implementation] runs to its end (any step budget
    of at least [max_x + 32]), blocks the x axis in strips of width
    [gcd(max_x, 32)], and stores to [qo0] exactly once for every group [g1]
    and every triple of loop counters below the extents of the chunk, the
    value [qi[g1]] plus, for every group [g2 != g1] in order,
    [slgg[g1][mat][g2][0] * flux0[g2]], all at the point the counters name.
    When the chunk starts at the origin these points are the cells of the
    chunk.  When it starts elsewhere (and has a group and a cell), the loops
    store at a point outside the chunk, and a cell of the chunk gets no
    store. *)
Theorem CalcOuterSource_stores
        {D : Type} {ops : DoubleOps D}
        (num_groups : nat) (dom : Outer.Domain)
        (fa_qi0 fa_flux0 : nat -> nat -> nat -> nat -> D)
        (fa_slgg : nat -> Z -> nat -> MomentQuad D)
        (fa_mat : nat -> nat -> nat -> Z)
        (fuel : nat) (junk : D) :
  let max_x := Outer.width (Outer.px (Outer.dom_lo dom))
                           (Outer.px (Outer.dom_hi dom)) in
  let max_y := Outer.width (Outer.py (Outer.dom_lo dom))
                           (Outer.py (Outer.dom_hi dom)) in
  let max_z := Outer.width (Outer.pz (Outer.dom_lo dom))
                           (Outer.pz (Outer.dom_hi dom)) in
  (0 < max_x)%nat -> (max_x + 32 <= fuel)%nat ->
  exists qo0s,
    Outer.gcd fuel (Z.of_nat max_x) 32 = Some (Z.gcd (Z.of_nat max_x) 32) /\
    Outer.CalcOuterSource_on_domain
      num_groups dom fa_qi0 fa_flux0 fa_slgg fa_mat fuel junk
    = Returns qo0s /\
    NoDup (map fst qo0s) /\
    (forall g1 x y z,
       In (g1, x, y, z) (map fst qo0s) <->
       (g1 < num_groups)%nat /\ (x < max_x)%nat /\
       (y < max_y)%nat /\ (z < max_z)%nat) /\
    (forall g1 x y z v,
       In ((g1, x, y, z), v) qo0s ->
       v = Outer.spec_qo0 num_groups fa_qi0 fa_flux0 fa_slgg fa_mat
                          g1 x y z) /\
    (Outer.dom_lo dom = (0, 0, 0)%Z ->
     forall g1 x y z,
       In (g1, x, y, z) (map fst qo0s) <->
       (g1 < num_groups)%nat /\
       Outer.in_domain dom (Outer.at_point x y z) = true) /\
    (Outer.dom_lo dom <> (0, 0, 0)%Z ->
     (0 < num_groups)%nat -> (0 < max_y)%nat -> (0 < max_z)%nat ->
     (exists g1 x y z,
        In (g1, x, y, z) (map fst qo0s) /\
        Outer.in_domain dom (Outer.at_point x y z) = false) /\
     (exists p,
        Outer.in_domain dom p = true /\
        forall g1 x y z,
          In (g1, x, y, z) (map fst qo0s) -> Outer.at_point x y z <> p)).
Proof.
  intros max_x max_y max_z Hx Hf.
  destruct (@CalcOuterSource_box_stores D ops num_groups max_x max_y max_z
              fa_qi0 fa_flux0 fa_slgg fa_mat fuel junk Hx Hf)
    as (qo0s & G & R & ND & Keys & Vals).
  exists qo0s.
  split; [exact G|]. split; [exact R|]. split; [exact ND|].
  split; [exact Keys|]. split; [exact Vals|]. split.
  - intros E g1 x y z. rewrite Keys, (in_domain_at_origin dom x y z E).
    reflexivity.
  - intros Ne Hg Hy Hz. split.
    + destruct (counter_outside_domain dom Ne Hx Hy Hz)
        as (x & y & z & Bx & By & Bz & Out).
      exists 0%nat, x, y, z. split; [|exact Out].
      apply Keys. repeat split; assumption.
    + destruct (domain_point_no_counter dom Ne Hx Hy Hz) as (p & Inp & Np).
      exists p. split; [exact Inp|].
      intros g1 x y z H. apply Keys in H as (_ & Bx & By & Bz).
      now apply Np.
Qed.

(* ------------------------------------------------------------------ *)
(** ** The vector kernels against the scalar kernel *)
(* ------------------------------------------------------------------ *)

Section CheckedLoops.
Context {A : Type}.
Variable f : nat -> option A.

Lemma tabulate_checked_length (idx : list nat) :
  forall l, tabulate_checked f idx = Some l -> length l = length idx.
Proof.
  induction idx as [|a idx IH]; intros l H; simpl in H.
  - now injection H as <-.
  - destruct (f a); [|discriminate].
    destruct (tabulate_checked f idx) as [vs|]; [|discriminate].
    injection H as <-. simpl. f_equal. now apply IH.
Qed.

Lemma tabulate_checked_fails (idx : list nat) (a : nat) :
  In a idx -> f a = None -> tabulate_checked f idx = None.
Proof.
  induction idx as [|b idx IH]; intros Ha Hf; [destruct Ha|].
  simpl. destruct Ha as [->|Ha].
  - now rewrite Hf.
  - destruct (f b); [|reflexivity]. now rewrite IH.
Qed.
End CheckedLoops.

Section VectorKernel.
Context {D : Type} {ops : DoubleOps D}.
Variable s : Sweep.Snap (D := D).
Variable c : Sweep.Cell (D := D).
Variable W : nat.
Import Sweep.

Lemma axis_loop_length (bound : nat) (pc incoming : list (list D))
      (table : list D) (h : D) (pc' : list (list D)) :
  axis_loop W bound pc incoming table h = Some pc' -> length pc' = bound.
Proof.
  intros H. apply tabulate_checked_length in H. now rewrite length_seq in H.
Qed.

(** A loop that runs past the end of [pc] reads outside it. *)
Lemma axis_loop_overrun (bound : nat) (pc incoming : list (list D))
      (table : list D) (h : D) :
  (length pc < bound)%nat -> axis_loop W bound pc incoming table h = None.
Proof.
  intros H. unfold axis_loop.
  apply tabulate_checked_fails with (a := length pc).
  - apply in_seq. lia.
  - cbv beta. unfold vec.
    destruct (nth_error pc (length pc)) as [p|] eqn:E; [|reflexivity].
    exfalso. apply (Nat.lt_irrefl (length pc)).
    apply nth_error_Some. rewrite E. discriminate.
Qed.

(** The z loop of the vector kernels runs [ang] to [Snap::num_angles]
    over buffers of [num_vec_angles] vectors. *)
Lemma simd_initial_solution_overruns (psi : list (list D)) :
  (2 <= W)%nat -> (0 < num_angles s)%nat ->
  forall pc, simd_initial_solution s c W psi <> Returns pc.
Proof.
  intros HW HN pc. unfold simd_initial_solution.
  destruct (axis_loop W (nv s W) _ (vectors s W (psii c)) (mu s) (hi s))
    as [pc1|]; [|discriminate].
  cbn [checked bind].
  destruct (axis_loop W (nv s W) pc1 (vectors s W (psij c)) (eta s) (hj s))
    as [pc2|] eqn:E2; [|discriminate].
  cbn [checked bind].
  rewrite axis_loop_overrun; [discriminate|].
  rewrite (axis_loop_length _ _ _ _ _ E2). unfold nv.
  apply Nat.div_lt; lia.
Qed.

Lemma simd_cell_never_returns (hsum : list D -> D) (fuel : nat) :
  (2 <= W)%nat -> (0 < num_angles s)%nat ->
  forall r, simd_implementation_cell s c W hsum fuel <> Returns r.
Proof.
  intros HW HN r. unfold simd_implementation_cell.
  destruct (negb (num_angles s mod W =? 0)%nat); [discriminate|].
  destruct (simd_angular_source s c W fuel) as [psi| | |];
    try discriminate.
  cbn [bind].
  destruct (simd_initial_solution s c W psi) as [pc0| | |] eqn:E;
    try discriminate.
  now destruct (simd_initial_solution_overruns psi HW HN (pc := pc0)).
Qed.
End VectorKernel.

(** C2 (the code departs from the claim).  On one and the same cell (four
    angles, one moment, an MMS source, no fixup, [vdelt = 0]) the scalar
    kernel returns outgoing fluxes and the total 0.5625, and neither vector
    kernel produces these: their z-face loop runs to [num_angles] over
    buffers of [num_vec_angles] vectors and leaves them; and the
    reductions they would reach sum the angular source instead of
    [w * pc], to 6 in SSE and, through its horizontal add, to 4 in AVX. *)
Theorem vector_kernels_differ_from_scalar (fuel : nat) :
  let s := Inputs.snap4 1 false true in
  let c := Inputs.cell4 in
  Sweep.cpu_implementation_cell s c fuel =
    Returns {| Sweep.out_psii := [0.375; 0.375; 0.875; 0.875]%float;
               Sweep.out_psij := [0.375; 0.375; 0.875; 0.875]%float;
               Sweep.out_psik := [0.375; 0.375; 0.875; 0.875]%float;
               Sweep.time_flux_out := None;
               Sweep.flux_total := 0.5625%float;
               Sweep.fluxm_total := None |} /\
  Sweep.sse_implementation_cell s c fuel = OutOfBounds /\
  Sweep.avx_implementation_cell s c fuel = OutOfBounds /\
  Sweep.simd_angular_source s c 2 fuel
    = Returns [[1; 1]; [2; 2]]%float /\
  Sweep.simd_initial_solution s c 2 [[1; 1]; [2; 2]]%float = OutOfBounds /\
  Sweep.simd_flux_total s 2 Sweep.sse_hsum [[1; 1]; [2; 2]]%float = 6%float /\
  Sweep.simd_angular_source s c 4 fuel
    = Returns [[1; 1; 2; 2]]%float /\
  Sweep.simd_initial_solution s c 4 [[1; 1; 2; 2]]%float = OutOfBounds /\
  Sweep.simd_flux_total s 4 Sweep.avx_hsum [[1; 1; 2; 2]]%float = 4%float.
Proof.
  cbv zeta. repeat split; vm_compute; reflexivity.
Qed.

(* ------------------------------------------------------------------ *)
(** ** The kernels run on the inputs of Part I *)
(* ------------------------------------------------------------------ *)

(** With two moments the scalar moment loop goes on past [l = 1]; at
    [l = 4] it reads [quad[4]].  The loop as the vector kernels bound it
    makes its one pass and returns. *)
Example moment_loop_on_two_moments :
  Sweep.cpu_angular_source (Inputs.snap4 2 false false) Inputs.cell4 3
    = OutOfFuel /\
  Sweep.cpu_angular_source (Inputs.snap4 2 false false) Inputs.cell4 4
    = OutOfBounds /\
  Sweep.bounded_moment_loop (Inputs.snap4 2 false false) Inputs.cell4 2 1
                            [1; 1; 1; 1]%float
    = Returns [1.25; 1.25; 1.25; 1.25]%float.
Proof. repeat split; vm_compute; reflexivity. Qed.

Lemma cpu_angular_source_never_returns_witness :
  (1 < Sweep.num_moments (Inputs.snap4 2 false false))%Z /\
  (forall psi,
     Sweep.cpu_angular_source (Inputs.snap4 2 false false) Inputs.cell4 100
     <> Returns psi).
Proof.
  split; [reflexivity|].
  apply (cpu_angular_source_never_returns
           (Inputs.snap4 2 false false) Inputs.cell4 100).
  reflexivity.
Defined.

(** The outer convergence test on one cell whose previous flux is 0 and
    whose flux is 5, with [convergence_eps = 2^-10]: the code returns false
    after reading the cell's two values, where the reading of the
    specification exempts the cell and gives true. *)
Lemma outer_convergence_counterexample :
  Outer.TestOuterConvergence_cpu_implementation
    true 0.0009765625%float [[(5, 0)]]%float = (false, 2%nat) /\
  Outer.spec_outer_converged
    true 0.0009765625%float [[(5, 0)]]%float = true /\
  Outer.convergence_df 5%float 0%float = 5%float /\
  Outer.spec_convergence_df 5%float 0%float = 0%float.
Proof. repeat split; vm_compute; reflexivity. Qed.

(** The MMS comparison on one cell whose reference flux is 0 and whose flux
    is 5: the cell's error value is 5, not 0; it takes the sum from 0 to 5
    and the max from minus infinity to 5. *)
Lemma compare_underflow_counterexample :
  (0 <? 0x1.19799812dea11p-40)%float = true /\
  MMS.compare_df 5%float 0%float = 5%float /\
  MMS.spec_compare_df 5%float 0%float = 0%float /\
  MMS.MMSCompare_cpu_implementation [[(5, 0)]]%float
    = (5, 5, 5)%float.
Proof. repeat split; vm_compute; reflexivity. Qed.

Lemma compare_underflow_cell_witness :
  (0%float <? d_tolr)%dbl = true /\
  MMS.compare_df 5%float 0%float = fabs (5%float / d_1 - d_0)%dbl /\
  MMS.compare_cell (neg_infinity, infinity, 0%float) (5%float, 0%float) =
  (let df := fabs (5%float / d_1 - d_0)%dbl in
   (if (df >? neg_infinity)%dbl then df else neg_infinity,
    if (df <? infinity)%dbl then df else infinity,
    (0%float + df)%dbl)).
Proof.
  split; [reflexivity|].
  apply (compare_underflow_cell (neg_infinity, infinity, 0%float)
                                5%float 0%float).
  reflexivity.
Defined.

(** C6 (the code departs from the claim).  On a grid whose cells are 1 wide,
    2 deep and 4 high, both tasks build the y and z boundaries with the x
    width: [jb[1] = jb[0] + 1] where the cell depth is 2, and
    [kb[1] = kb[0] + 1] where the cell height is 4. *)
Theorem boundaries_on_grid_1_2_4 :
  let g := Inputs.grid_1_2_4 in
  let b := MMS.MMSInitFlux_boundaries g (0, 0, 0)%Z in
  (MMS.cell_dx g, MMS.cell_dy g, MMS.cell_dz g) = (1, 2, 4)%float /\
  MMS.MMSInitSource_boundaries g (0, 0, 0)%Z = b /\
  MMS.ib b = [0; 1]%float /\
  MMS.jb b = [0; 1]%float /\
  MMS.kb b = [0; 1]%float /\
  (get (MMS.jb b) 0 + MMS.cell_dy g)%dbl = 2%float /\
  (get (MMS.kb b) 0 + MMS.cell_dz g)%dbl = 4%float.
Proof. cbv zeta. repeat split; vm_compute; reflexivity. Qed.

(** With negative incoming fluxes the first pass of the fixup finds no
    negative outgoing flux and breaks, leaving the negative initial
    solution in [pc]; the cell then folds a negative total into [flux]. *)
Lemma fixup_negative_incoming_counterexample :
  let s := Inputs.snap1 in
  let c := Inputs.cell_negative_incoming in
  let pc0 := Sweep.initial_solution s c [1]%float in
  Sweep.fixup_loop s c 7 [1]%float (Sweep.fixup_init s pc0) =
    Returns {| Sweep.pc := [-2.75]%float;
               Sweep.hv_x := [1]%float; Sweep.hv_y := [1]%float;
               Sweep.hv_z := [1]%float; Sweep.hv_t := [1]%float;
               Sweep.fx_hv_x := [2.5]%float; Sweep.fx_hv_y := [2.5]%float;
               Sweep.fx_hv_z := [2.5]%float; Sweep.fx_hv_t := [0]%float;
               Sweep.old_negative_fluxes := 0 |} /\
  (-2.75 <? 0)%float = true /\
  Sweep.cpu_implementation_cell s c 7 =
    Returns {| Sweep.out_psii := [2.5]%float;
               Sweep.out_psij := [2.5]%float;
               Sweep.out_psik := [2.5]%float;
               Sweep.time_flux_out := None;
               Sweep.flux_total := (-2.75)%float;
               Sweep.fluxm_total := None |}.
Proof. cbv zeta. repeat split; vm_compute; reflexivity. Qed.

(** A negative source with vacuum faces (Scn-C): the initial solution is
    negative, the first pass flags all three faces, the recomputed
    solution is 0.0, and the loop breaks in its third pass; the cell hands
    on zero fluxes and folds 0.0 into [flux]. *)
Example fixup_on_negative_source :
  let s := Inputs.snap1 in
  let c := Inputs.cell_negative_source in
  Sweep.initial_solution s c [(-1)%float] = [(-0.25)%float] /\
  Sweep.cpu_implementation_cell s c 3 =
    Returns {| Sweep.out_psii := [0%float];
               Sweep.out_psij := [0%float];
               Sweep.out_psik := [0%float];
               Sweep.time_flux_out := None;
               Sweep.flux_total := 0%float;
               Sweep.fluxm_total := None |}.
Proof. cbv zeta. split; vm_compute; reflexivity. Qed.

Lemma fixup_not_negative_witness :
  let s := Inputs.snap1 in
  let c := Inputs.cell_negative_source in
  let psi := [(-1)%float] in
  (4 * Z.of_nat (Sweep.num_angles s) < 4294967296)%Z /\
  (4 * Sweep.num_angles s + 2 < 7)%nat /\
  exists st,
    Sweep.fixup_loop s c 7 psi
      (Sweep.fixup_init s (Sweep.initial_solution s c psi)) = Returns st /\
    forall a, (a < Sweep.num_angles s)%nat ->
      let '(oi, oj, ok, tfo) := Sweep.fixup_faces s c st in
      (get oi a <? d_0)%dbl = false /\
      (get oj a <? d_0)%dbl = false /\
      (get ok a <? d_0)%dbl = false /\
      (forall t, tfo = Some t -> (get t a <? d_0)%dbl = false) /\
      ((d_0 <=? get (Sweep.psii c) a)%dbl = true ->
       (get (Sweep.pc st) a <? d_0)%dbl = false).
Proof.
  cbv zeta.
  split; [reflexivity|]. split; [simpl; lia|].
  apply (fixup_not_negative binary64_sign_laws
           Inputs.snap1 Inputs.cell_negative_source [(-1)%float]
           (Sweep.initial_solution Inputs.snap1
              Inputs.cell_negative_source [(-1)%float]) (fuel := 7)).
  - reflexivity.
  - simpl. lia.
Defined.

Lemma no_fixup_outgoing_witness :
  (0 < Sweep.num_angles (Inputs.snap4 1 false true))%nat /\
  (let '(oi, oj, ok, tfo) :=
     Sweep.no_fixup (Inputs.snap4 1 false true) Inputs.cell4
                    [0.4375; 0.4375; 0.6875; 0.6875]%float in
   get oi 0 = (d_2 * 0.4375%float - 0.5%float)%dbl /\ tfo = None).
Proof.
  split; [simpl; lia|].
  pose proof (no_fixup_outgoing (Inputs.snap4 1 false true) Inputs.cell4
                [0.4375; 0.4375; 0.6875; 0.6875]%float (a := 0)) as H.
  destruct H as [H _]; [simpl; lia|].
  simpl in H. destruct H as (Hi & _ & _ & Ht).
  split; [exact Hi | exact Ht].
Defined.

Lemma CalcOuterSource_stores_witness :
  (0 < Outer.width 4 7)%nat /\ (Outer.width 4 7 + 32 <= 36)%nat /\
  {| Outer.dom_lo := (4, 0, 0)%Z; Outer.dom_hi := (7, 0, 0)%Z |}.(Outer.dom_lo)
    <> (0, 0, 0)%Z /\
  exists qo0s,
    Outer.CalcOuterSource_on_domain (D := float) 2
      {| Outer.dom_lo := (4, 0, 0)%Z; Outer.dom_hi := (7, 0, 0)%Z |}
      (fun g x y z => 1%float) (fun g x y z => of_int (Z.of_nat (g + x)))
      (fun g1 m g2 => (0.5, 0, 0, 0)%float) (fun x y z => 0%Z)
      36 0%float = Returns qo0s /\
    map fst qo0s =
      [(0, 0, 0, 0); (0, 1, 0, 0); (0, 2, 0, 0); (0, 3, 0, 0);
       (1, 0, 0, 0); (1, 1, 0, 0); (1, 2, 0, 0); (1, 3, 0, 0)]%nat /\
    exists p,
      Outer.in_domain
        {| Outer.dom_lo := (4, 0, 0)%Z; Outer.dom_hi := (7, 0, 0)%Z |} p
      = true /\
      forall g1 x y z,
        In (g1, x, y, z) (map fst qo0s) -> Outer.at_point x y z <> p.
Proof.
  assert (Hx : (0 < Outer.width 4 7)%nat) by (vm_compute; lia).
  assert (Hf : (Outer.width 4 7 + 32 <= 36)%nat) by (vm_compute; lia).
  assert (Ne : {| Outer.dom_lo := (4, 0, 0)%Z;
                  Outer.dom_hi := (7, 0, 0)%Z |}.(Outer.dom_lo)
               <> (0, 0, 0)%Z) by (simpl; discriminate).
  split; [exact Hx|]. split; [exact Hf|]. split; [exact Ne|].
  destruct (@CalcOuterSource_stores float binary64 2
              {| Outer.dom_lo := (4, 0, 0)%Z; Outer.dom_hi := (7, 0, 0)%Z |}
              (fun g x y z => 1%float)
              (fun g x y z => of_int (Z.of_nat (g + x)))
              (fun g1 m g2 => (0.5, 0, 0, 0)%float) (fun x y z => 0%Z)
              36 0%float Hx Hf)
    as (qo0s & _ & R & _ & _ & _ & _ & Off).
  destruct (Off Ne) as (_ & Miss); [lia | vm_compute; lia | vm_compute; lia |].
  exists qo0s. split; [exact R|]. split; [|exact Miss].
  vm_compute in R. injection R as <-. reflexivity.
Defined.

Lemma MMSReduction_laws_witness :
  MMS.triple_not_nan (1, 2, 3)%float /\
  MMS.triple_not_nan (4, 0.5, -0)%float /\
  MMS.same_triple
    (MMS.MMSReduction_fold_exclusive (1, 2, 3)%float (4, 0.5, -0)%float)
    (MMS.MMSReduction_fold_exclusive (4, 0.5, -0)%float (1, 2, 3)%float).
Proof.
  assert (A : MMS.triple_not_nan (1, 2, 3)%float)
    by (repeat split; reflexivity).
  assert (B : MMS.triple_not_nan (4, 0.5, -0)%float)
    by (repeat split; reflexivity).
  split; [exact A|]. split; [exact B|].
  destruct (MMSReduction_laws (1, 2, 3)%float (4, 0.5, -0)%float)
    as (_ & _ & _ & _ & H).
  destruct (H A B) as (C & _). exact C.
Defined.

(* ------------------------------------------------------------------ *)
(** ** More of outer.cc *)
(* ------------------------------------------------------------------ *)

(** X1.  On positive arguments the subtractive [gcd] returns, within
    [a + b] calls, the greatest common divisor: a positive number that
    divides both arguments and that every common divisor divides. *)
Theorem gcd_greatest_common_divisor (a b : Z) (fuel : nat) :
  (0 < a)%Z -> (0 < b)%Z -> (a + b <= Z.of_nat fuel)%Z ->
  exists g,
    Outer.gcd fuel a b = Some g /\
    (0 < g)%Z /\ (g | a)%Z /\ (g | b)%Z /\
    forall d, (d | a)%Z -> (d | b)%Z -> (d | g)%Z.
Proof.
  intros Ha Hb Hf. exists (Z.gcd a b).
  split; [now apply gcd_positive|].
  split.
  { pose proof (Z.gcd_nonneg a b).
    assert (Z.gcd a b <> 0)%Z by (intros E; apply Z.gcd_eq_0_l in E; lia).
    lia. }
  split; [apply Z.gcd_divide_l|].
  split; [apply Z.gcd_divide_r|].
  intros d. apply Z.gcd_greatest.
Qed.

Lemma gcd_greatest_common_divisor_witness :
  (0 < 48)%Z /\ (0 < 32)%Z /\ (48 + 32 <= Z.of_nat 80)%Z /\
  exists g,
    Outer.gcd 80 48 32 = Some g /\
    (0 < g)%Z /\ (g | 48)%Z /\ (g | 32)%Z /\
    forall d, (d | 48)%Z -> (d | 32)%Z -> (d | g)%Z.
Proof.
  split; [lia|]. split; [lia|]. split; [lia|].
  apply (@gcd_greatest_common_divisor 48 32 80); lia.
Defined.

(** With one argument 0 and the other positive, [gcd] calls itself on the
    same arguments again. *)
Lemma gcd_zero_left (fuel : nat) (b : Z) :
  (0 < b)%Z -> Outer.gcd fuel 0 b = None.
Proof.
  intros Hb. induction fuel as [|fuel IH]; [reflexivity|].
  cbn [Outer.gcd]. destruct (Z.ltb_spec 0 b); [|lia].
  now rewrite Z.sub_0_r.
Qed.

Lemma gcd_zero_right (fuel : nat) (a : Z) :
  (0 < a)%Z -> Outer.gcd fuel a 0 = None.
Proof.
  intros Ha. induction fuel as [|fuel IH]; [reflexivity|].
  cbn [Outer.gcd]. destruct (Z.ltb_spec a 0); [lia|].
  rewrite Z.gtb_ltb. destruct (Z.ltb_spec 0 a); [|lia].
  now rewrite Z.sub_0_r.
Qed.

(** X2.  [gcd] does not return when one argument is 0 and the other is
    positive: whatever the number of calls allowed, it is still
    recursing ([gcd(0, 0)] returns 0).  [CalcOuterSource] computes its
    strip width as [gcd(max_x, 32)] before its loops, so on a chunk of
    width 0 it never returns, whatever the other two extents. *)
Theorem CalcOuterSource_zero_width_never_returns
        {D : Type} {ops : DoubleOps D}
        (num_groups max_y max_z : nat)
        (fa_qi0 fa_flux0 : nat -> nat -> nat -> nat -> D)
        (fa_slgg : nat -> Z -> nat -> MomentQuad D)
        (fa_mat : nat -> nat -> nat -> Z)
        (fuel : nat) (junk : D) :
  Outer.gcd fuel 0 32 = None /\
  Outer.gcd fuel 32 0 = None /\
  Outer.gcd (S fuel) 0 0 = Some 0%Z /\
  Outer.CalcOuterSource_cpu_implementation
    num_groups 0 max_y max_z fa_qi0 fa_flux0 fa_slgg fa_mat fuel junk
  = OutOfFuel.
Proof.
  split; [apply gcd_zero_left; lia|].
  split; [apply gcd_zero_right; lia|].
  split; [reflexivity|].
  unfold Outer.CalcOuterSource_cpu_implementation.
  change (Z.of_nat 0) with 0%Z. rewrite gcd_zero_left by lia. reflexivity.
Qed.

(* ------------------------------------------------------------------ *)
(** *** NaN and the early exit of the outer convergence test *)
(* ------------------------------------------------------------------ *)

Section ConvergenceScan.
Local Open Scope float_scope.
Import Outer.

Lemma b64_nan_spec (x : float) :
  (x =? x) = false <-> Prim2SF x = S754_nan.
Proof.
  rewrite FloatAxioms.eqb_spec. unfold SFeqb.
  destruct (Prim2SF x) as [s|s| |s m e] eqn:E; simpl.
  - split; discriminate.
  - destruct s; split; discriminate.
  - split; reflexivity.
  - destruct s; rewrite Z.compare_refl, Pos.compare_cont_refl;
      split; discriminate.
Qed.

(** NaN goes through the division, the subtraction and [fabs]. *)
Lemma convergence_df_nan (flux0 flux0po : float) :
  (flux0 =? flux0) = false \/ (flux0po =? flux0po) = false ->
  Prim2SF (convergence_df flux0 flux0po) = S754_nan.
Proof.
  rewrite !b64_nan_spec. intros H. unfold convergence_df.
  change (dlt (fabs flux0po) d_tolr)
    with (abs flux0po <? 0x1.19799812dea11p-40).
  destruct (abs flux0po <? 0x1.19799812dea11p-40) eqn:T.
  - destruct H as [H|H].
    + change (Prim2SF (abs (flux0 / 1 - 0)) = S754_nan).
      rewrite FloatAxioms.abs_spec, FloatAxioms.sub_spec,
        FloatAxioms.div_spec, H.
      reflexivity.
    + rewrite FloatAxioms.ltb_spec, FloatAxioms.abs_spec, H in T.
      discriminate.
  - change (Prim2SF (abs (flux0 / flux0po - 1)) = S754_nan).
    rewrite FloatAxioms.abs_spec, FloatAxioms.sub_spec,
      FloatAxioms.div_spec.
    destruct H as [H|H]; rewrite H.
    + reflexivity.
    + destruct (Prim2SF flux0); reflexivity.
Qed.

Lemma scan_fields_concat (epsi : float)
      (fields : list (list (float * float))) (reads : nat) :
  scan_fields epsi fields reads = scan_cells epsi (concat fields) reads.
Proof.
  revert reads. induction fields as [|field rest IH]; intros reads;
    [reflexivity|].
  cbn [scan_fields concat].
  revert reads. induction field as [|[flux0 flux0po] cells IHc];
    intros reads.
  - simpl. apply IH.
  - cbn [scan_cells app].
    destruct (dlt _ _); [apply IHc|].
    destruct (dlt _ _); [reflexivity | apply IHc].
Qed.

Lemma scan_cells_all_pass (epsi : float) (cells : list (float * float))
      (reads : nat) :
  (forall c, In c cells ->
     (epsi <? convergence_df (fst c) (snd c)) = false) ->
  scan_cells epsi cells reads = (true, (reads + 2 * length cells)%nat).
Proof.
  revert reads. induction cells as [|[flux0 flux0po] rest IH];
    intros reads H.
  - simpl. f_equal. lia.
  - cbn [scan_cells].
    change (dlt epsi (convergence_df flux0 flux0po))
      with (epsi <? convergence_df flux0 flux0po).
    pose proof (H (flux0, flux0po) (or_introl eq_refl)) as E.
    simpl in E. rewrite E.
    assert (R : scan_cells epsi rest (reads + 2) =
                (true, (reads + 2 * length ((flux0, flux0po) :: rest))%nat)).
    { rewrite IH by (intros c Hc; apply H; now right).
      f_equal. simpl. lia. }
    destruct (dlt _ _); exact R.
Qed.

Lemma scan_cells_first_failure (epsi : float)
      (l1 l2 : list (float * float)) (c : float * float) (reads : nat) :
  (forall c', In c' l1 ->
     (epsi <? convergence_df (fst c') (snd c')) = false) ->
  (epsi <? convergence_df (fst c) (snd c)) = true ->
  scan_cells epsi (l1 ++ c :: l2) reads =
  (false, (reads + 2 * (length l1 + 1))%nat).
Proof.
  revert reads. induction l1 as [|[flux0 flux0po] rest IH];
    intros reads H F.
  - destruct c as [flux0 flux0po]. cbn [app scan_cells].
    change (dlt (convergence_df flux0 flux0po) (- INFINITY)%dbl)
      with (convergence_df flux0 flux0po <? neg_infinity).
    rewrite b64_ltb_neg_infinity.
    change (dlt epsi (convergence_df flux0 flux0po))
      with (epsi <? convergence_df flux0 flux0po).
    simpl in F. rewrite F. f_equal.
  - cbn [app scan_cells].
    change (dlt epsi (convergence_df flux0 flux0po))
      with (epsi <? convergence_df flux0 flux0po).
    pose proof (H (flux0, flux0po) (or_introl eq_refl)) as E.
    simpl in E. rewrite E.
    assert (R : scan_cells epsi (rest ++ c :: l2) (reads + 2) =
                (false,
                 (reads + 2 * (length ((flux0, flux0po) :: rest) + 1))%nat)).
    { rewrite IH by (try (intros c' Hc; apply H; now right); exact F).
      f_equal. simpl. lia. }
    destruct (dlt _ _); exact R.
Qed.
End ConvergenceScan.

(** X3.  In binary64 a cell whose flux or previous flux is NaN never fails
    the outer convergence test: its [df] is NaN and [df > epsi] is false.
    So when the inner iteration has converged, the test returns true on
    fields in which every cell holds a NaN, whatever [convergence_eps]. *)
Theorem nan_flux_passes_convergence
        (convergence_eps : float) (fields : list (list (float * float))) :
  (forall field, In field fields -> forall cell, In cell field ->
     (fst cell =? fst cell)%float = false \/
     (snd cell =? snd cell)%float = false) ->
  (forall field, In field fields -> forall cell, In cell field ->
     let df := Outer.convergence_df (fst cell) (snd cell) in
     (df =? df)%float = false /\
     (100 * convergence_eps <? df)%float = false) /\
  fst (Outer.TestOuterConvergence_cpu_implementation
         true convergence_eps fields) = true.
Proof.
  intros H.
  assert (P : forall field, In field fields -> forall cell, In cell field ->
            let df := Outer.convergence_df (fst cell) (snd cell) in
            (df =? df)%float = false /\
            (100 * convergence_eps <? df)%float = false).
  { intros field Hf cell Hc df.
    pose proof (convergence_df_nan (H field Hf cell Hc)) as N. fold df in N.
    split; [now apply b64_nan_spec|].
    rewrite FloatAxioms.ltb_spec, N. unfold SFltb.
    destruct (Prim2SF (100 * convergence_eps)); reflexivity. }
  split; [exact P|].
  change (fst (Outer.scan_fields (100 * convergence_eps)%float fields 0) = true).
  apply scan_fields_true. intros field Hf cell Hc.
  exact (proj2 (P field Hf cell Hc)).
Qed.

Lemma nan_flux_passes_convergence_witness :
  (forall field, In field [[(nan, 1%float); (2%float, nan)]] ->
   forall cell, In cell field ->
     (fst cell =? fst cell)%float = false \/
     (snd cell =? snd cell)%float = false) /\
  fst (Outer.TestOuterConvergence_cpu_implementation
         true 0%float [[(nan, 1%float); (2%float, nan)]]) = true.
Proof.
  assert (H : forall field, In field [[(nan, 1%float); (2%float, nan)]] ->
              forall cell, In cell field ->
                (fst cell =? fst cell)%float = false \/
                (snd cell =? snd cell)%float = false).
  { intros field [<-|[]] cell [<-|[<-|[]]]; [left | right]; reflexivity. }
  split; [exact H|].
  exact (proj2 (@nan_flux_passes_convergence 0%float _ H)).
Defined.

(** X4.  In binary64, with the inner iteration converged, the outer test
    reads the cells in order, field after field, two values a cell, and
    stops at the first cell with [df > 100*convergence_eps]: it returns
    false having read that cell and the ones before it, and returns true
    having read every cell when there is no such cell.  (The skip of
    [df < -INFINITY] never fires.) *)
Theorem TestOuterConvergence_stops_at_first_failure
        (convergence_eps : float) (fields : list (list (float * float))) :
  let fails (c : float * float) :=
    (100 * convergence_eps <? Outer.convergence_df (fst c) (snd c))%float in
  let run := Outer.TestOuterConvergence_cpu_implementation
               true convergence_eps fields in
  ((forall c, In c (concat fields) -> fails c = false) ->
   run = (true, (2 * length (concat fields))%nat)) /\
  (forall l1 c l2,
     concat fields = l1 ++ c :: l2 ->
     (forall c', In c' l1 -> fails c' = false) -> fails c = true ->
     run = (false, (2 * (length l1 + 1))%nat)).
Proof.
  intros fails run. subst run.
  change (Outer.TestOuterConvergence_cpu_implementation
            true convergence_eps fields)
    with (Outer.scan_fields (100 * convergence_eps)%float fields 0).
  rewrite scan_fields_concat. split.
  - intros H. now rewrite (@scan_cells_all_pass _ _ 0%nat H).
  - intros l1 c l2 E H F. rewrite E.
    now rewrite (@scan_cells_first_failure _ l1 l2 c 0%nat H F).
Qed.

Lemma TestOuterConvergence_stops_at_first_failure_witness :
  Outer.TestOuterConvergence_cpu_implementation
    true 0.0009765625%float [[(1, 1)]; [(5, 0); (7, 0)]]%float
  = (false, 4%nat).
Proof.
  destruct (TestOuterConvergence_stops_at_first_failure
              0.0009765625%float [[(1, 1)]; [(5, 0); (7, 0)]]%float)
    as [_ H].
  apply (H [(1, 1)]%float (5, 0)%float [(7, 0)]%float).
  - reflexivity.
  - intros c' [<-|[]]. reflexivity.
  - reflexivity.
Defined.

(* ------------------------------------------------------------------ *)
(** ** More of mms.cc: what [MMSCompare] and the reduction compute *)
(* ------------------------------------------------------------------ *)

(** *** A running extreme

    [beyond m d] says that [d] replaces the running value [m];
    [upto x y] that [y] is at least as far out as [x]; [ok] singles out the
    values that compare (for doubles, all but NaN). *)
Section RunningExtreme.
Context {A : Type} {beyond upto : A -> A -> bool} {ok : A -> Prop}.
Context (laws : MMS.ExtremeLaws beyond upto ok).
Import MMS.

Local Abbreviation keep := (MMS.keep beyond).
Local Abbreviation scan := (fun l acc => fold_left keep l acc).

Lemma keep_ok (m d : A) : ok m -> ok (keep m d).
Proof.
  intros Hm. unfold MMS.keep. destruct (beyond m d) eqn:E; [|exact Hm].
  now destruct (beyond_ok _ _ E).
Qed.

Lemma scan_ok (l : list A) : forall acc, ok acc -> ok (scan l acc).
Proof.
  induction l as [|d l IH]; intros acc H; [exact H|].
  simpl. apply IH. now apply keep_ok.
Qed.

Lemma keep_upto (m d : A) :
  ok m -> upto m (keep m d) = true /\ (ok d -> upto d (keep m d) = true).
Proof.
  intros Hm. unfold MMS.keep. destruct (beyond m d) eqn:E.
  - split; [now apply beyond_upto | intros Hd; now apply upto_refl].
  - split; [now apply upto_refl | intros Hd; now apply upto_total].
Qed.

Lemma scan_upto (l : list A) :
  forall acc, ok acc ->
    upto acc (scan l acc) = true /\
    forall d, In d l -> ok d -> upto d (scan l acc) = true.
Proof.
  induction l as [|x l IH]; intros acc H.
  - simpl. split; [now apply upto_refl | intros d []].
  - simpl. destruct (keep_upto x H) as [K1 K2].
    destruct (IH (keep acc x) (keep_ok x H)) as [I1 I2].
    split; [now apply upto_trans with (keep acc x)|].
    intros d [<-|Hd] Hok.
    + apply upto_trans with (keep acc x); auto.
    + now apply I2.
Qed.

Lemma scan_in (l : list A) :
  forall acc, scan l acc = acc \/ In (scan l acc) l.
Proof.
  induction l as [|x l IH]; intros acc; [now left|].
  simpl. destruct (IH (keep acc x)) as [E|E]; [|now right; right].
  rewrite E. unfold MMS.keep. destruct (beyond acc x); [right|]; now left.
Qed.

Lemma keep_beyond (m d : A) : beyond m d = true -> keep m d = d.
Proof. unfold MMS.keep. now intros ->. Qed.

Lemma keep_not_beyond (m d : A) : beyond m d = false -> keep m d = m.
Proof. unfold MMS.keep. now intros ->. Qed.

(** A scan that meets no value that compares keeps its start. *)
Lemma scan_no_ok (l : list A) :
  forall acc, (forall d, In d l -> ~ ok d) -> scan l acc = acc.
Proof.
  induction l as [|x l IH]; intros acc H; [reflexivity|].
  simpl. destruct (beyond acc x) eqn:E.
  - destruct (beyond_ok _ _ E) as [_ Hx].
    now destruct (H x (or_introl eq_refl)).
  - rewrite (keep_not_beyond E).
    apply IH. intros d Hd. apply H. now right.
Qed.

(** Scanning from a start further out is scanning from the nearer start
    and comparing with the further one afterwards. *)
Lemma scan_from_further (l : list A) :
  forall a b, ok a -> ok b -> upto a b = true ->
              scan l b = keep b (scan l a).
Proof.
  induction l as [|d l IH]; intros a b Ha Hb Hab.
  - simpl. now rewrite (keep_not_beyond (upto_not_beyond _ _ Hab)).
  - simpl. destruct (beyond b d) eqn:Eb.
    + destruct (beyond_ok _ _ Eb) as [_ Hd].
      assert (Ead : beyond a d = true).
      { destruct (beyond a d) eqn:Ead; [reflexivity|].
        pose proof (upto_total _ _ Hd Ha Ead) as U.
        pose proof (upto_trans _ _ _ U Hab) as U'.
        rewrite (upto_not_beyond _ _ U') in Eb. discriminate. }
      rewrite (keep_beyond Eb), (keep_beyond Ead).
      destruct (beyond b (fold_left keep l d)) eqn:E;
        [now rewrite (keep_beyond E)|].
      destruct (scan_upto l Hd) as [U _].
      pose proof (upto_total _ _ (scan_ok l Hd) Hb E) as U'.
      pose proof (upto_trans _ _ _ U U') as U''.
      rewrite (upto_not_beyond _ _ U'') in Eb. discriminate.
    + rewrite (keep_not_beyond Eb).
      apply IH; [now apply keep_ok | exact Hb |].
      destruct (beyond a d) eqn:Ead.
      * rewrite (keep_beyond Ead).
        destruct (beyond_ok _ _ Ead) as [_ Hd].
        now apply upto_total.
      * now rewrite (keep_not_beyond Ead).
Qed.

Lemma scan_cons (l : list A) (x y : A) :
  ok x -> ok y -> scan (y :: l) x = keep x (scan l y).
Proof.
  intros Hx Hy. simpl. destruct (beyond x y) eqn:E.
  - rewrite (keep_beyond E).
    destruct (beyond x (fold_left keep l y)) eqn:E';
      [now rewrite (keep_beyond E')|].
    destruct (scan_upto l Hy) as [U _].
    pose proof (upto_total _ _ (scan_ok l Hy) Hx E') as U'.
    pose proof (upto_trans _ _ _ U U') as U''.
    rewrite (upto_not_beyond _ _ U'') in E. discriminate.
  - rewrite (keep_not_beyond E).
    apply scan_from_further; auto. now apply upto_total.
Qed.
End RunningExtreme.

(** *** The order of binary64 *)
Section Binary64Order.
Local Open Scope float_scope.
Import MMS.

Lemma SFleb_trans (x y z : spec_float) :
  SFleb x y = true -> SFleb y z = true -> SFleb x z = true.
Proof.
  unfold SFleb.
  destruct x as [sx|sx| |sx mx ex], y as [sy|sy| |sy my ey],
           z as [sz|sz| |sz mz ez];
    try destruct sx; try destruct sy; try destruct sz;
    cbn [SFcompare]; try reflexivity; try discriminate.
  all: change (Pos.compare_cont Eq) with Pos.compare.
  all: destruct (Z.compare_spec ex ey), (Z.compare_spec ey ez),
         (Z.compare_spec ex ez); try discriminate; try lia;
       try reflexivity.
  all: destruct (Pos.compare_spec mx my), (Pos.compare_spec my mz),
         (Pos.compare_spec mx mz); cbn [CompOpp];
       try discriminate; try lia; try reflexivity.
Qed.

Lemma b64_leb_trans (x y z : float) :
  (x <=? y) = true -> (y <=? z) = true -> (x <=? z) = true.
Proof. rewrite !FloatAxioms.leb_spec. apply SFleb_trans. Qed.

Lemma b64_leb_refl (x : float) : not_nan x -> (x <=? x) = true.
Proof.
  intros H. destruct (b64_compare_cases H H) as [C|[C|C]]; tauto.
Qed.

Lemma b64_leb_total (x y : float) :
  not_nan x -> not_nan y -> (y <? x) = false -> (x <=? y) = true.
Proof.
  intros Hx Hy. destruct (b64_compare_cases Hx Hy) as [C|[C|C]];
    destruct C as (A1 & A2 & A3 & A4 & A5); congruence.
Qed.

Lemma b64_ltb_not_nan (x y : float) :
  (x <? y) = true -> not_nan x /\ not_nan y.
Proof.
  unfold not_nan. rewrite FloatAxioms.ltb_spec, !FloatAxioms.eqb_spec.
  unfold SFltb, SFeqb.
  destruct (Prim2SF x) as [sx|sx| |sx mx ex],
           (Prim2SF y) as [sy|sy| |sy my ey];
    try destruct sx; try destruct sy; cbn [SFcompare];
    try discriminate; intros _;
    rewrite ?Z.compare_refl, ?Pos.compare_cont_refl; split; reflexivity.
Qed.

Lemma b64_ltb_leb (x y : float) : (x <? y) = true -> (x <=? y) = true.
Proof.
  intros H. destruct (b64_ltb_not_nan H) as [Hx Hy].
  destruct (b64_compare_cases Hx Hy) as [C|[C|C]];
    destruct C as (A1 & A2 & A3 & A4 & A5); congruence.
Qed.

Lemma b64_leb_not_nan (x y : float) :
  (x <=? y) = true -> not_nan x /\ not_nan y.
Proof.
  unfold not_nan. rewrite FloatAxioms.leb_spec, !FloatAxioms.eqb_spec.
  unfold SFleb, SFeqb.
  destruct (Prim2SF x) as [sx|sx| |sx mx ex],
           (Prim2SF y) as [sy|sy| |sy my ey];
    try destruct sx; try destruct sy; cbn [SFcompare];
    try discriminate; intros _;
    rewrite ?Z.compare_refl, ?Pos.compare_cont_refl; split; reflexivity.
Qed.

Lemma b64_leb_not_ltb (x y : float) :
  (x <=? y) = true -> (y <? x) = false.
Proof.
  intros H. destruct (b64_leb_not_nan H) as [Hx Hy].
  destruct (b64_compare_cases Hx Hy) as [C|[C|C]];
    destruct C as (A1 & A2 & A3 & A4 & A5); congruence.
Qed.

(** Minus infinity is below, and plus infinity above, every double but
    NaN, and nothing else is. *)
Lemma b64_neg_infinity_least (x : float) :
  not_nan x -> (neg_infinity <=? x) = true.
Proof.
  unfold not_nan. rewrite FloatAxioms.leb_spec, FloatAxioms.eqb_spec.
  change (Prim2SF neg_infinity) with (S754_infinity true).
  destruct (Prim2SF x) as [sx|sx| |sx mx ex]; try destruct sx;
    try discriminate; reflexivity.
Qed.

Lemma b64_infinity_greatest (x : float) :
  not_nan x -> (x <=? infinity) = true.
Proof.
  unfold not_nan. rewrite FloatAxioms.leb_spec, FloatAxioms.eqb_spec.
  change (Prim2SF infinity) with (S754_infinity false).
  destruct (Prim2SF x) as [sx|sx| |sx mx ex]; try destruct sx;
    try discriminate; reflexivity.
Qed.

Lemma b64_below_neg_infinity (x : float) :
  (x <=? neg_infinity) = true -> x = neg_infinity.
Proof.
  rewrite FloatAxioms.leb_spec. intros H. apply Prim2SF_inj.
  change (Prim2SF neg_infinity) with (S754_infinity true) in *.
  destruct (Prim2SF x) as [sx|sx| |sx mx ex]; try destruct sx;
    try discriminate; reflexivity.
Qed.

Lemma b64_above_infinity (x : float) :
  (infinity <=? x) = true -> x = infinity.
Proof.
  rewrite FloatAxioms.leb_spec. intros H. apply Prim2SF_inj.
  change (Prim2SF infinity) with (S754_infinity false) in *.
  destruct (Prim2SF x) as [sx|sx| |sx mx ex]; try destruct sx;
    try discriminate; reflexivity.
Qed.

(** A sum with a NaN term is NaN. *)
Lemma b64_add_nan (x y : float) :
  ~ not_nan x \/ ~ not_nan y -> ~ not_nan (x + y).
Proof.
  unfold not_nan. rewrite !FloatAxioms.eqb_spec, FloatAxioms.add_spec.
  unfold SFeqb.
  destruct (Prim2SF x) as [sx|sx| |sx mx ex],
           (Prim2SF y) as [sy|sy| |sy my ey];
    try destruct sx; try destruct sy; cbn [SFcompare SF64add SFadd];
    rewrite ?Z.compare_refl, ?Pos.compare_cont_refl;
    intros [H|H]; try (now destruct H); discriminate.
Qed.

Lemma sum_nan (l : list float) :
  forall acc, ~ not_nan acc \/ (exists d, In d l /\ ~ not_nan d) ->
              ~ not_nan (fold_left PrimFloat.add l acc).
Proof.
  induction l as [|x l IH]; intros acc H.
  - simpl. destruct H as [H|(d & [] & _)]. exact H.
  - simpl. apply IH. destruct H as [H|(d & [<-|Hd] & Hn)].
    + left. apply b64_add_nan. now left.
    + left. apply b64_add_nan. now right.
    + right. now exists d.
Qed.

Lemma b64_max_laws : ExtremeLaws PrimFloat.ltb PrimFloat.leb not_nan.
Proof.
  split.
  - exact b64_leb_refl.
  - exact b64_leb_total.
  - exact b64_ltb_leb.
  - exact b64_leb_trans.
  - exact b64_leb_not_ltb.
  - exact b64_ltb_not_nan.
Qed.

Lemma b64_min_laws :
  ExtremeLaws (fun m d : float => d <? m) (fun x y : float => y <=? x)
              not_nan.
Proof.
  split.
  - exact b64_leb_refl.
  - intros x y Hx Hy. now apply b64_leb_total.
  - intros x y. apply b64_ltb_leb.
  - intros x y z H1 H2. now apply b64_leb_trans with y.
  - intros x y. apply b64_leb_not_ltb.
  - intros x y H. destruct (b64_ltb_not_nan H). now split.
Qed.
End Binary64Order.

(** *** [MMSCompare] and the reduction of its results *)
Section CompareScan.
Local Open Scope float_scope.
Import MMS.

Local Abbreviation above := PrimFloat.ltb.
Local Abbreviation below := (fun m d : float => d <? m).

Lemma compare_cells_scan (cells : list (float * float)) :
  forall mx mn sm,
    fold_left compare_cell cells (mx, mn, sm) =
    (fold_left (keep above) (map (fun c => compare_df (fst c) (snd c)) cells) mx,
     fold_left (keep below) (map (fun c => compare_df (fst c) (snd c)) cells) mn,
     fold_left PrimFloat.add
               (map (fun c => compare_df (fst c) (snd c)) cells) sm).
Proof.
  induction cells as [|c cells IH]; intros mx mn sm; [reflexivity|].
  cbn [fold_left map]. rewrite <- IH. reflexivity.
Qed.

Lemma fold_fields_concat {S C : Type} (f : S -> C -> S)
      (fields : list (list C)) :
  forall acc,
    fold_left (fun acc field => fold_left f field acc) fields acc =
    fold_left f (concat fields) acc.
Proof.
  induction fields as [|field rest IH]; intros acc; [reflexivity|].
  cbn [fold_left concat]. now rewrite fold_left_app, IH.
Qed.

(** The three components are three scans of the cells' error values. *)
Lemma compare_components (fields : list (list (float * float))) :
  MMSCompare_cpu_implementation fields =
  (fold_left (keep above) (compare_dfs fields) neg_infinity,
   fold_left (keep below) (compare_dfs fields) infinity,
   fold_left PrimFloat.add (compare_dfs fields) 0).
Proof.
  unfold MMSCompare_cpu_implementation, compare_dfs.
  rewrite fold_fields_concat. apply compare_cells_scan.
Qed.

Lemma compare_dfs_app (A B : list (list (float * float))) :
  compare_dfs (A ++ B) = compare_dfs A ++ compare_dfs B.
Proof. unfold compare_dfs. now rewrite concat_app, map_app. Qed.

Lemma not_nan_neg_infinity : not_nan neg_infinity.
Proof. reflexivity. Qed.

Lemma not_nan_infinity : not_nan infinity.
Proof. reflexivity. Qed.
End CompareScan.

(** X5.  In binary64, [MMSCompare] returns the maximum, the minimum and
    the sum of the cells' error values [df], NaN apart: the first two
    components are never NaN, they bound every [df] that is not NaN, and
    they are values of [df] as soon as one [df] is not NaN (otherwise, as
    on an empty domain, they stay minus and plus infinity); the third
    component is the sum of the [df] in the order of the cells, and is NaN
    as soon as one [df] is. *)
Theorem MMSCompare_max_min_sum (fields : list (list (float * float))) :
  let dfs := MMS.compare_dfs fields in
  let '(mx, mn, sm) := MMS.MMSCompare_cpu_implementation fields in
  MMS.not_nan mx /\ MMS.not_nan mn /\
  (forall d, In d dfs -> MMS.not_nan d ->
             (d <=? mx)%float = true /\ (mn <=? d)%float = true) /\
  ((exists d, In d dfs /\ MMS.not_nan d) -> In mx dfs /\ In mn dfs) /\
  ((forall d, In d dfs -> ~ MMS.not_nan d) ->
   mx = neg_infinity /\ mn = infinity) /\
  sm = fold_left PrimFloat.add dfs 0%float /\
  ((exists d, In d dfs /\ ~ MMS.not_nan d) -> ~ MMS.not_nan sm).
Proof.
  intros dfs. rewrite compare_components. fold dfs.
  pose proof (scan_upto b64_max_laws dfs _ not_nan_neg_infinity) as [_ Umax].
  pose proof (scan_upto b64_min_laws dfs _ not_nan_infinity) as [_ Umin].
  split; [apply (scan_ok b64_max_laws); reflexivity|].
  split; [apply (scan_ok b64_min_laws); reflexivity|].
  split; [intros d Hd Hok; split; [now apply Umax | now apply Umin]|].
  split.
  { intros (d & Hd & Hok). split.
    - destruct (@scan_in _ PrimFloat.ltb dfs neg_infinity) as [E|E];
        [|exact E].
      pose proof (Umax d Hd Hok) as U. rewrite E in *.
      now rewrite <- (b64_below_neg_infinity U).
    - destruct (@scan_in _ (fun m d : float => (d <? m)%float) dfs infinity)
        as [E|E]; [|exact E].
      pose proof (Umin d Hd Hok) as U. rewrite E in *.
      now rewrite <- (b64_above_infinity U). }
  split.
  { intros H. split.
    - now apply (scan_no_ok b64_max_laws).
    - now apply (scan_no_ok b64_min_laws). }
  split; [reflexivity|].
  intros H. apply sum_nan. now right.
Qed.

(** X6.  In binary64, reducing the results of [MMSCompare] on two parts of
    the cells with [fold<true>] gives the maximum and the minimum that
    [MMSCompare] returns on the two parts together, NaN or not; the sum it
    gives is the sum of the two partial sums, where [MMSCompare] on the
    whole goes on adding the second part's values to the first sum. *)
Theorem MMSCompare_of_parts (A B : list (list (float * float))) :
  let '(m, n, t) := MMS.MMSCompare_cpu_implementation (A ++ B) in
  let '(ma, na, ta) := MMS.MMSCompare_cpu_implementation A in
  let '(mb, nb, tb) := MMS.MMSCompare_cpu_implementation B in
  let '(mf, nf, tf) :=
    MMS.MMSReduction_fold_exclusive
      (MMS.MMSCompare_cpu_implementation A)
      (MMS.MMSCompare_cpu_implementation B) in
  m = mf /\ n = nf /\
  t = fold_left PrimFloat.add (MMS.compare_dfs B) ta /\
  tf = (ta + tb)%float.
Proof.
  rewrite !compare_components, compare_dfs_app, !fold_left_app.
  cbn [MMS.MMSReduction_fold_exclusive].
  set (da := MMS.compare_dfs A). set (db := MMS.compare_dfs B).
  split; [|split; [|split; reflexivity]].
  - apply (scan_from_further b64_max_laws db _ _ not_nan_neg_infinity).
    + apply (scan_ok b64_max_laws). reflexivity.
    + apply b64_neg_infinity_least. apply (scan_ok b64_max_laws). reflexivity.
  - apply (scan_from_further b64_min_laws db _ _ not_nan_infinity).
    + apply (scan_ok b64_min_laws). reflexivity.
    + apply b64_infinity_greatest. apply (scan_ok b64_min_laws). reflexivity.
Qed.

(** X7.  In binary64, on triples whose first two components are not NaN,
    [fold<true>] is associative in the maximum and in the minimum
    component.  In the sum component it is not: the two groupings give
    [(x + y) + z] and [x + (y + z)], which differ for 2^53, 1, 1. *)
Theorem MMSReduction_fold_associative (x y z : float * float * float) :
  let '(x0, x1, x2) := x in
  let '(y0, y1, y2) := y in
  let '(z0, z1, z2) := z in
  let '(l0, l1, l2) :=
    MMS.MMSReduction_fold_exclusive (MMS.MMSReduction_fold_exclusive x y) z in
  let '(r0, r1, r2) :=
    MMS.MMSReduction_fold_exclusive x (MMS.MMSReduction_fold_exclusive y z) in
  (MMS.not_nan x0 -> MMS.not_nan y0 -> l0 = r0) /\
  (MMS.not_nan x1 -> MMS.not_nan y1 -> l1 = r1) /\
  l2 = ((x2 + y2) + z2)%float /\ r2 = (x2 + (y2 + z2))%float /\
  ((9007199254740992 + 1) + 1 <> 9007199254740992 + (1 + 1))%float.
Proof.
  destruct x as [[x0 x1] x2], y as [[y0 y1] y2], z as [[z0 z1] z2].
  cbn [MMS.MMSReduction_fold_exclusive].
  split; [|split; [|split; [reflexivity|split; [reflexivity|]]]].
  - intros Hx Hy.
    exact (scan_cons b64_max_laws [z0] _ _ Hx Hy).
  - intros Hx Hy.
    exact (scan_cons b64_min_laws [z1] _ _ Hx Hy).
  - intros E. apply (f_equal Prim2SF) in E. vm_compute in E. discriminate.
Qed.

Lemma MMSReduction_fold_associative_witness :
  let l := MMS.MMSReduction_fold_exclusive
             (MMS.MMSReduction_fold_exclusive (1, 1, 1)%float (3, 3, 1)%float)
             (2, 2, 1)%float in
  let r := MMS.MMSReduction_fold_exclusive (1, 1, 1)%float
             (MMS.MMSReduction_fold_exclusive (3, 3, 1)%float (2, 2, 1)%float) in
  MMS.not_nan 1%float /\ MMS.not_nan 3%float /\
  fst (fst l) = fst (fst r) /\ snd (fst l) = snd (fst r).
Proof.
  cbv zeta.
  split; [reflexivity|]. split; [reflexivity|].
  pose proof (MMSReduction_fold_associative
                (1, 1, 1)%float (3, 3, 1)%float (2, 2, 1)%float) as H.
  cbn [MMS.MMSReduction_fold_exclusive] in H.
  destruct H as (H0 & H1 & _).
  split; [apply H0 | apply H1]; reflexivity.
Defined.

(* ------------------------------------------------------------------ *)
(** ** More of sweep.cc: the vector kernels on every cell *)
(* ------------------------------------------------------------------ *)

Section VectorKernelBounds.
Context {D : Type} {ops : DoubleOps D}.
Variable s : Sweep.Snap (D := D).
Variable c : Sweep.Cell (D := D).
Variable W : nat.
Import Sweep.

(** Whatever the x and y loops do, the initial solution ends outside the
    [pc] buffer, in its z loop at the latest. *)
Lemma simd_initial_solution_out_of_bounds (psi : list (list D)) :
  (2 <= W)%nat -> (0 < num_angles s)%nat ->
  simd_initial_solution s c W psi = OutOfBounds.
Proof.
  intros HW HN. unfold simd_initial_solution.
  destruct (axis_loop W (nv s W) _ (vectors s W (psii c)) (mu s) (hi s))
    as [pc1|]; [|reflexivity].
  cbn [checked bind].
  destruct (axis_loop W (nv s W) pc1 (vectors s W (psij c)) (eta s) (hj s))
    as [pc2|] eqn:E2; [|reflexivity].
  cbn [checked bind].
  rewrite axis_loop_overrun; [reflexivity|].
  apply axis_loop_length in E2. rewrite E2. unfold nv.
  apply Nat.div_lt; lia.
Qed.

Lemma simd_angular_source_one_moment (fuel : nat) :
  (num_moments s <= 1)%Z ->
  exists psi, simd_angular_source s c W fuel = Returns psi.
Proof.
  intros H. unfold simd_angular_source.
  destruct (Z.gtb_spec (num_moments s) 1) as [G|G]; [lia|].
  cbn [bind]. eauto.
Qed.

Lemma simd_cell_out_of_bounds (hsum : list D -> D) (fuel : nat) :
  (2 <= W)%nat -> (0 < num_angles s)%nat -> (num_moments s <= 1)%Z ->
  simd_implementation_cell s c W hsum fuel =
  if (num_angles s mod W =? 0)%nat then OutOfBounds else Aborted.
Proof.
  intros HW HN HM. unfold simd_implementation_cell.
  destruct (num_angles s mod W =? 0)%nat; [|reflexivity].
  cbn [negb].
  destruct (simd_angular_source_one_moment fuel HM) as [psi ->].
  cbn [bind]. now rewrite simd_initial_solution_out_of_bounds.
Qed.
End VectorKernelBounds.

(** X8.  Whenever the number of angles is a positive multiple of the vector
    width (2 for SSE, 4 for AVX; the kernels assert it), a cell of the SSE or
    of the AVX kernel with at most one moment reaches an access outside a
    buffer before its initial solution is complete: at the latest in the
    z-face loop, which runs [ang] to [Snap::num_angles] over the
    [num_vec_angles] vectors of [pc] and so reads and writes [pc[ang]] past
    the allocation.  The C++ program has undefined behaviour from that
    access on; [OutOfBounds] says that the access is reached, and nothing
    about what a build does after it. *)
Theorem vector_kernels_leave_pc
        {D : Type} {ops : DoubleOps D}
        (s : Sweep.Snap (D := D)) (c : Sweep.Cell (D := D)) (fuel : nat) :
  (0 < Sweep.num_angles s)%nat -> (Sweep.num_moments s <= 1)%Z ->
  ((Sweep.num_angles s mod 2 = 0)%nat ->
   Sweep.sse_implementation_cell s c fuel = OutOfBounds) /\
  ((Sweep.num_angles s mod 4 = 0)%nat ->
   Sweep.avx_implementation_cell s c fuel = OutOfBounds).
Proof.
  intros HN HM. split; intros E.
  - unfold Sweep.sse_implementation_cell.
    rewrite simd_cell_out_of_bounds by (auto; lia).
    now rewrite E.
  - unfold Sweep.avx_implementation_cell.
    rewrite simd_cell_out_of_bounds by (auto; lia).
    now rewrite E.
Qed.

Lemma vector_kernels_leave_pc_witness :
  (0 < Sweep.num_angles (Inputs.snap4 1 true false))%nat /\
  (Sweep.num_angles (Inputs.snap4 1 true false) mod 4 = 0)%nat /\
  Sweep.sse_implementation_cell (Inputs.snap4 1 true false) Inputs.cell4 9
    = OutOfBounds /\
  Sweep.avx_implementation_cell (Inputs.snap4 1 true false) Inputs.cell4 9
    = OutOfBounds.
Proof.
  assert (HN : (0 < Sweep.num_angles (Inputs.snap4 1 true false))%nat)
    by (simpl; lia).
  assert (HM : (Sweep.num_moments (Inputs.snap4 1 true false) <= 1)%Z)
    by (simpl; lia).
  split; [exact HN|]. split; [reflexivity|].
  destruct (@vector_kernels_leave_pc float binary64
              (Inputs.snap4 1 true false) Inputs.cell4 9 HN HM) as [S A].
  split; [apply S | apply A]; reflexivity.
Defined.

(* ------------------------------------------------------------------ *)
(** ** More of sweep.cc: the sweep of a chunk *)
(* ------------------------------------------------------------------ *)

(** A counted loop whose body returns keeps an invariant. *)
Lemma counted_loop_invariant {S : Type} (body : nat -> S -> outcome S)
      (Inv : nat -> S -> Prop) (n : nat) :
  (forall k st, (k < n)%nat -> Inv k st ->
                exists st', body k st = Returns st' /\ Inv (Datatypes.S k) st') ->
  forall st0, Inv 0%nat st0 ->
  exists st', fold_left (fun r k => bind r (body k)) (seq 0 n) (Returns st0)
              = Returns st' /\ Inv n st'.
Proof.
  induction n as [|n IH]; intros Step st0 I0.
  - exists st0. now split.
  - destruct (IH (fun k st Hk => Step k st (Nat.lt_lt_succ_r _ _ Hk)) st0 I0)
      as (st1 & R1 & I1).
    rewrite seq_S, fold_left_app, R1. simpl.
    apply Step; [lia | exact I1].
Qed.

(** A loop one of whose iterations does not return does not return. *)
Lemma counted_loop_stuck {S : Type} (body : nat -> S -> outcome S)
      (idx : list nat) :
  forall r, (forall st, r <> Returns st) ->
            forall st, fold_left (fun r k => bind r (body k)) idx r
                       <> Returns st.
Proof.
  induction idx as [|k idx IH]; intros r H st; [apply H|].
  simpl. apply IH. intros st'. destruct r; simpl; try discriminate.
  now destruct (H a).
Qed.

Section Blocks.
Context {B : Type}.

Lemma upd_block_length (buf : list B) (k : nat) (v : B) :
  length (Outer.upd buf k v) = length buf.
Proof.
  revert k. induction buf as [|h t IH]; intros [|k]; simpl; auto.
Qed.

Lemma nth_upd_same (buf : list B) (k : nat) (v d : B) :
  (k < length buf)%nat -> nth k (Outer.upd buf k v) d = v.
Proof.
  revert k. induction buf as [|h t IH]; intros [|k] H; simpl in *;
    try lia; [reflexivity|].
  apply IH. lia.
Qed.

Lemma nth_upd_other (buf : list B) (k k' : nat) (v d : B) :
  k <> k' -> nth k' (Outer.upd buf k v) d = nth k' buf d.
Proof.
  revert k k'. induction buf as [|h t IH]; intros [|k] [|k'] H; simpl;
    try reflexivity; try lia.
  apply IH. lia.
Qed.
End Blocks.

Section CellReturns.
Context {D : Type} {ops : DoubleOps D}.
Variable s : Sweep.Snap (D := D).
Import Sweep.

(** With at most one moment the cell kernel runs to its end, the fixup
    loop included, on a step budget above [4 * num_angles + 2]. *)
Lemma cpu_cell_returns (c : Cell (D := D)) (fuel : nat) :
  (num_moments s <= 1)%Z -> (4 * num_angles s + 2 < fuel)%nat ->
  exists r, cpu_implementation_cell s c fuel = Returns r.
Proof.
  intros HM HF. unfold cpu_implementation_cell.
  rewrite cpu_angular_source_one_moment by assumption. cbn [bind].
  set (psi := add_mms_source s c _).
  destruct (flux_fixup s).
  - destruct (break_exists s c psi (initial_solution s c psi))
      as (k & Hk & Bk & Min).
    rewrite (@fixup_loop_runs _ _ s c psi k _ fuel Min Bk) by lia.
    cbn [bind].
    destruct (fixup_faces s c _) as [[[oi oj] ok] tfo].
    destruct (cpu_flux_total s _) as [wpsi total].
    rewrite cpu_fluxm_total_one_moment by assumption. cbn [bind]. eauto.
  - cbn [bind].
    destruct (no_fixup s c _) as [[[oi oj] ok] tfo].
    destruct (cpu_flux_total s _) as [wpsi total].
    rewrite cpu_fluxm_total_one_moment by assumption. cbn [bind]. eauto.
Qed.

(** With more moments it never does (the moment loop). *)
Lemma cpu_cell_stuck (c : Cell (D := D)) (fuel : nat) :
  (1 < num_moments s)%Z ->
  forall r, cpu_implementation_cell s c fuel <> Returns r.
Proof.
  intros H r. unfold cpu_implementation_cell, cpu_angular_source.
  assert (G : (num_moments s >? 1)%Z = true) by (apply Z.gtb_lt; lia).
  rewrite G.
  destruct (cpu_moment_loop s c fuel 1 _) as [psi| | |] eqn:E;
    try discriminate.
  now destruct (cpu_moment_loop_stuck s c fuel H _ _ E).
Qed.
End CellReturns.

Section ChunkSweep.
Context {D : Type} {ops : DoubleOps D}.
Variable s : Sweep.Snap (D := D).
Variable l : Sweep.Launch (D := D).
Variable R : Sweep.Regions (D := D).
Variable fuel : nat.
Import Sweep.

Hypothesis one_moment : (num_moments s <= 1)%Z.
Hypothesis enough_fuel : (4 * num_angles s + 2 < fuel)%nat.

Local Abbreviation xr := (x_range l).
Local Abbreviation yr := (y_range l).
Local Abbreviation zr := (z_range l).
Local Abbreviation run :=
  (fun x y z i j k => cpu_implementation_cell s (cell_of l R x y z i j k) fuel).
Local Abbreviation y_last := (fun y => (Z.of_nat y =? ny_per_chunk l - 1)%Z).
Local Abbreviation z_last := (fun z => (Z.of_nat z =? nz_per_chunk l - 1)%Z).

Lemma block_index_injective (y y' x x' : nat) :
  (x < xr)%nat -> (x' < xr)%nat ->
  (y' * xr + x' = y * xr + x)%nat -> y' = y /\ x' = x.
Proof.
  intros Hx Hx' E.
  assert (y' = y).
  { destruct (Nat.lt_trichotomy y' y) as [L|[L|L]]; [|exact L|].
    - pose proof (Nat.mul_le_mono_r (S y') y xr L). simpl in *. lia.
    - pose proof (Nat.mul_le_mono_r (S y) y' xr L). simpl in *. lia. }
  subst y'. split; [reflexivity | lia].
Qed.

Lemma flat_map_seq_S {B : Type} (f : nat -> list B) (n : nat) :
  flat_map f (seq 0 (S n)) = flat_map f (seq 0 n) ++ f n.
Proof. rewrite seq_S, flat_map_app. simpl. now rewrite app_nil_r. Qed.

(** One row: what the x loop leaves, from the buffers it started
    with. *)
Lemma sweep_row_runs (y z : nat) (st0 : sweep_state) :
  length (yflux_pencil st0) = xr ->
  (forall x, (x < xr)%nat -> (y * xr + x < length (zflux_plane st0))%nat) ->
  let inY := fun x => if (y =? 0)%nat then ghosty_in l R x y z
                      else nth x (yflux_pencil st0) [] in
  let inZ := fun x => if (z =? 0)%nat then ghostz_in l R x y z
                      else nth (y * xr + x) (zflux_plane st0) [] in
  exists st' (res : nat -> CellResult (D := D)),
    sweep_row s l R fuel y z st0 = Returns st' /\
    (forall x, (x < xr)%nat ->
       run x y z
           (match x with
            | O => ghostx_in l R x y z
            | S x' => out_psii (res x')
            end) (inY x) (inZ x) = Returns (res x)) /\
    length (yflux_pencil st') = xr /\
    (forall x, (x < xr)%nat ->
       nth x (yflux_pencil st') [] =
       if y_last y then nth x (yflux_pencil st0) []
       else out_psij (res x)) /\
    length (zflux_plane st') = length (zflux_plane st0) /\
    (forall y' x, (x < xr)%nat ->
       nth (y' * xr + x) (zflux_plane st') [] =
       if z_last z then nth (y' * xr + x) (zflux_plane st0) []
       else if (y' =? y)%nat then out_psik (res x)
            else nth (y' * xr + x) (zflux_plane st0) []) /\
    stores st' =
    stores st0 ++ flat_map (fun x => cell_stores l x y z (res x)) (seq 0 xr).
Proof.
  intros HP HQ inY inZ.
  set (Inv := fun (n : nat) (st : sweep_state (D := D)) =>
    exists res : nat -> CellResult (D := D),
      (forall x, (x < n)%nat ->
         run x y z
             (match x with
              | O => ghostx_in l R x y z
              | S x' => out_psii (res x')
              end) (inY x) (inZ x) = Returns (res x)) /\
      ((0 < n)%nat -> buf_psii st = out_psii (res (n - 1)%nat)) /\
      length (yflux_pencil st) = xr /\
      (forall x, (x < xr)%nat ->
         nth x (yflux_pencil st) [] =
         if y_last y then nth x (yflux_pencil st0) []
         else if (x <? n)%nat then out_psij (res x)
              else nth x (yflux_pencil st0) []) /\
      length (zflux_plane st) = length (zflux_plane st0) /\
      (forall y' x, (x < xr)%nat ->
         nth (y' * xr + x) (zflux_plane st) [] =
         if z_last z then nth (y' * xr + x) (zflux_plane st0) []
         else if ((y' =? y) && (x <? n))%nat then out_psik (res x)
              else nth (y' * xr + x) (zflux_plane st0) []) /\
      stores st =
      stores st0 ++ flat_map (fun x => cell_stores l x y z (res x)) (seq 0 n)).
  destruct (@counted_loop_invariant _ (fun x => cell_step s l R fuel x y z)
              Inv xr) with (st0 := st0) as (st' & Run & I).
  - (* one cell *)
    intros k st Hk (res & Eq & Bi & Lp & Np & Lq & Nq & St).
    unfold cell_step.
    set (i := if (k =? 0)%nat then ghostx_in l R k y z else buf_psii st).
    set (j := if (y =? 0)%nat then ghosty_in l R k y z
              else nth k (yflux_pencil st) []).
    set (q := if (z =? 0)%nat then ghostz_in l R k y z
              else nth (y * xr + k) (zflux_plane st) []).
    assert (Ei : i = match k with
                     | O => ghostx_in l R k y z
                     | S k' => out_psii (res k')
                     end).
    { subst i. destruct k as [|k']; [reflexivity|].
      simpl. rewrite Bi by lia. f_equal. f_equal. lia. }
    assert (Ej : j = inY k).
    { subst j inY. cbv beta. destruct (y =? 0)%nat; [reflexivity|].
      rewrite (Np k Hk), Nat.ltb_irrefl. now destruct (y_last y). }
    assert (Eq' : q = inZ k).
    { subst q inZ. cbv beta. destruct (z =? 0)%nat; [reflexivity|].
      rewrite (Nq y k Hk), Nat.ltb_irrefl, andb_false_r.
      now destruct (z_last z). }
    destruct (cpu_cell_returns s (cell_of l R k y z i j q) one_moment
                               enough_fuel) as [r Hr].
    rewrite Hr. cbn [bind]. eexists. split; [reflexivity|].
    exists (fun x => if (x =? k)%nat then r else res x).
    cbn [buf_psii yflux_pencil zflux_plane stores].
    split; [|split; [|split; [|split; [|split; [|split]]]]].
    + intros x Hx. cbv beta.
      assert (M : forall x, (x <= k)%nat ->
                match x with
                | O => ghostx_in l R x y z
                | S x' => out_psii (if (x' =? k)%nat then r else res x')
                end =
                match x with
                | O => ghostx_in l R x y z
                | S x' => out_psii (res x')
                end).
      { intros [|x'] Hx'; [reflexivity|].
        destruct (Nat.eqb_spec x' k); [lia | reflexivity]. }
      rewrite M by lia.
      destruct (Nat.eqb_spec x k) as [->|Ne].
      * now rewrite <- Ei, <- Ej, <- Eq'.
      * apply Eq. lia.
    + intros _. replace (S k - 1)%nat with k by lia.
      now rewrite Nat.eqb_refl.
    + destruct (y_last y); [exact Lp|]. now rewrite upd_block_length.
    + intros x Hx. destruct (y_last y) eqn:Ey.
      * rewrite (Np x Hx). reflexivity.
      * destruct (Nat.eqb_spec x k) as [->|Ne].
        -- rewrite nth_upd_same by lia.
           destruct (Nat.ltb_spec k (S k)); [reflexivity | lia].
        -- rewrite nth_upd_other by congruence. rewrite (Np x Hx).
           destruct (Nat.ltb_spec x k), (Nat.ltb_spec x (S k));
             try reflexivity; lia.
    + destruct (z_last z); [exact Lq|]. now rewrite upd_block_length.
    + intros y' x Hx. destruct (z_last z) eqn:Ez.
      * rewrite (Nq y' x Hx). reflexivity.
      * destruct (Nat.eq_dec (y' * xr + x) (y * xr + k)) as [E|Ne].
        -- destruct (block_index_injective y y' Hk Hx E) as [-> ->].
           rewrite nth_upd_same by (rewrite Lq; now apply HQ).
           rewrite !Nat.eqb_refl.
           destruct (Nat.ltb_spec k (S k)); [reflexivity | lia].
        -- rewrite nth_upd_other by congruence. rewrite (Nq y' x Hx).
           destruct (Nat.eqb_spec y' y) as [->|Ny]; [|reflexivity].
           assert (x <> k) by (intros ->; now apply Ne).
           destruct (Nat.eqb_spec x k); [lia|].
           destruct (Nat.ltb_spec x k), (Nat.ltb_spec x (S k));
             try reflexivity; lia.
    + rewrite St, flat_map_seq_S, Nat.eqb_refl, app_assoc.
      f_equal. f_equal. apply flat_map_ext_in. intros x Hx.
      apply in_seq in Hx.
      destruct (Nat.eqb_spec x k); [lia | reflexivity].
  - (* before the first cell *)
    exists (fun _ => {| out_psii := []; out_psij := []; out_psik := [];
                        time_flux_out := None; flux_total := d_0;
                        fluxm_total := None |}).
    split; [intros x Hx; lia|]. split; [lia|]. split; [exact HP|].
    split; [intros x Hx; now destruct (y_last y)|].
    split; [reflexivity|].
    split; [intros y' x Hx; rewrite andb_false_r; now destruct (z_last z)|].
    simpl. now rewrite app_nil_r.
  - destruct I as (res & Eq & _ & Lp & Np & Lq & Nq & St).
    exists st', res. split; [exact Run|]. split; [exact Eq|].
    split; [exact Lp|]. split.
    { intros x Hx. rewrite (Np x Hx).
      destruct (Nat.ltb_spec x xr); [reflexivity | lia]. }
    split; [exact Lq|]. split; [|exact St].
    intros y' x Hx. rewrite (Nq y' x Hx).
    destruct (Nat.ltb_spec x xr); [|lia]. now rewrite andb_true_r.
Qed.

Hypothesis rows_in_chunk : (Z.of_nat yr <= ny_per_chunk l)%Z.
Hypothesis planes_in_chunk : (Z.of_nat zr <= nz_per_chunk l)%Z.

(** One plane: what the y loop leaves. *)
Lemma sweep_plane_runs (z : nat) (st0 : sweep_state) :
  length (yflux_pencil st0) = xr ->
  length (zflux_plane st0) = (yr * xr)%nat ->
  let inZ := fun x y => if (z =? 0)%nat then ghostz_in l R x y z
                        else nth (y * xr + x) (zflux_plane st0) [] in
  exists st' (res : nat -> nat -> CellResult (D := D)),
    sweep_plane s l R fuel z st0 = Returns st' /\
    (forall x y, (x < xr)%nat -> (y < yr)%nat ->
       run x y z
           (match x with
            | O => ghostx_in l R x y z
            | S x' => out_psii (res x' y)
            end)
           (match y with
            | O => ghosty_in l R x y z
            | S y' => out_psij (res x y')
            end) (inZ x y) = Returns (res x y)) /\
    length (yflux_pencil st') = xr /\
    length (zflux_plane st') = (yr * xr)%nat /\
    (forall x y, (x < xr)%nat -> (y < yr)%nat ->
       nth (y * xr + x) (zflux_plane st') [] =
       if z_last z then nth (y * xr + x) (zflux_plane st0) []
       else out_psik (res x y)) /\
    stores st' =
    stores st0 ++
    flat_map (fun y =>
      flat_map (fun x => cell_stores l x y z (res x y)) (seq 0 xr))
      (seq 0 yr).
Proof.
  intros HP HQ inZ.
  set (Inv := fun (m : nat) (st : sweep_state (D := D)) =>
    exists res : nat -> nat -> CellResult (D := D),
      (forall x y, (x < xr)%nat -> (y < m)%nat ->
         run x y z
             (match x with
              | O => ghostx_in l R x y z
              | S x' => out_psii (res x' y)
              end)
             (match y with
              | O => ghosty_in l R x y z
              | S y' => out_psij (res x y')
              end) (inZ x y) = Returns (res x y)) /\
      length (yflux_pencil st) = xr /\
      ((0 < m)%nat -> y_last (m - 1)%nat = false ->
       forall x, (x < xr)%nat ->
         nth x (yflux_pencil st) [] = out_psij (res x (m - 1)%nat)) /\
      length (zflux_plane st) = (yr * xr)%nat /\
      (forall y x, (x < xr)%nat ->
         nth (y * xr + x) (zflux_plane st) [] =
         if z_last z then nth (y * xr + x) (zflux_plane st0) []
         else if (y <? m)%nat then out_psik (res x y)
              else nth (y * xr + x) (zflux_plane st0) []) /\
      stores st =
      stores st0 ++
      flat_map (fun y =>
        flat_map (fun x => cell_stores l x y z (res x y)) (seq 0 xr))
        (seq 0 m)).
  destruct (@counted_loop_invariant _ (fun y => sweep_row s l R fuel y z)
              Inv yr) with (st0 := st0) as (st' & Run & I).
  - (* one row *)
    intros m st Hm (res & Eq & Lp & Np & Lq & Nq & St).
    assert (Room : forall x, (x < xr)%nat ->
              (m * xr + x < length (zflux_plane st))%nat).
    { intros x Hx. rewrite Lq.
      pose proof (Nat.mul_le_mono_r (S m) yr xr Hm). simpl in *. lia. }
    destruct (sweep_row_runs m z st Lp Room)
      as (st1 & row & Run & EqR & Lp1 & Np1 & Lq1 & Nq1 & St1).
    exists st1. split; [exact Run|].
    exists (fun x y => if (y =? m)%nat then row x else res x y).
    split; [|split; [|split; [|split; [|split]]]].
    + intros x y Hx Hy. cbv beta.
      assert (MX : forall x, (x <= xr)%nat ->
                match x with
                | O => ghostx_in l R x y z
                | S x' => out_psii (if (y =? m)%nat then row x'
                                    else res x' y)
                end =
                if (y =? m)%nat
                then match x with
                     | O => ghostx_in l R x y z
                     | S x' => out_psii (row x')
                     end
                else match x with
                     | O => ghostx_in l R x y z
                     | S x' => out_psii (res x' y)
                     end).
      { intros [|x'] _; now destruct (y =? m)%nat. }
      assert (MY : match y with
                   | O => ghosty_in l R x y z
                   | S y' => out_psij (if (y' =? m)%nat then row x
                                       else res x y')
                   end =
                   match y with
                   | O => ghosty_in l R x y z
                   | S y' => out_psij (res x y')
                   end).
      { destruct y as [|y']; [reflexivity|].
        destruct (Nat.eqb_spec y' m); [lia | reflexivity]. }
      rewrite MX, MY by lia.
      destruct (Nat.eqb_spec y m) as [->|Ne]; [|apply Eq; lia].
      assert (EY : match m with
                   | O => ghosty_in l R x m z
                   | S y' => out_psij (res x y')
                   end =
                   if (m =? 0)%nat then ghosty_in l R x m z
                   else nth x (yflux_pencil st) []).
      { destruct m as [|m']; [reflexivity|]. cbn [Nat.eqb].
        rewrite Np; [f_equal; f_equal; lia | lia | | exact Hx].
        apply Z.eqb_neq. lia. }
      assert (EZ : inZ x m =
                   if (z =? 0)%nat then ghostz_in l R x m z
                   else nth (m * xr + x) (zflux_plane st) []).
      { unfold inZ. destruct (z =? 0)%nat; [reflexivity|].
        rewrite (Nq m x Hx), Nat.ltb_irrefl. now destruct (z_last z). }
      rewrite EY, EZ. exact (EqR x Hx).
    + exact Lp1.
    + intros _ Hl x Hx. replace (S m - 1)%nat with m in * by lia.
      rewrite (Np1 x Hx), Hl. now rewrite Nat.eqb_refl.
    + now rewrite Lq1.
    + intros y x Hx. rewrite (Nq1 y x Hx), (Nq y x Hx).
      destruct (z_last z); [reflexivity|].
      destruct (Nat.eqb_spec y m) as [->|Ne].
      * destruct (Nat.ltb_spec m (S m)); [reflexivity | lia].
      * destruct (Nat.ltb_spec y m), (Nat.ltb_spec y (S m));
          try reflexivity; lia.
    + rewrite St1, St, flat_map_seq_S, Nat.eqb_refl, app_assoc.
      f_equal. f_equal. apply flat_map_ext_in. intros y Hy.
      apply in_seq in Hy.
      destruct (Nat.eqb_spec y m); [lia | reflexivity].
  - (* before the first row *)
    exists (fun _ _ => {| out_psii := []; out_psij := []; out_psik := [];
                          time_flux_out := None; flux_total := d_0;
                          fluxm_total := None |}).
    split; [intros x y Hx Hy; lia|]. split; [exact HP|].
    split; [lia|]. split; [exact HQ|].
    split; [intros y x Hx; now destruct (z_last z)|].
    simpl. now rewrite app_nil_r.
  - destruct I as (res & Eq & Lp & _ & Lq & Nq & St).
    exists st', res. split; [exact Run|]. split; [exact Eq|].
    split; [exact Lp|]. split; [exact Lq|]. split; [|exact St].
    intros x y Hx Hy. rewrite (Nq y x Hx).
    destruct (Nat.ltb_spec y yr); [reflexivity | lia].
Qed.

(** The chunk: the z loop, from [malloc]ed buffers. *)
Lemma chunk_sweep_runs (junk : list D) :
  (num_dims l = 3)%Z ->
  exists res : nat -> nat -> nat -> CellResult (D := D),
    (forall x y z, (x < xr)%nat -> (y < yr)%nat -> (z < zr)%nat ->
       run x y z (entering_x l R res x y z) (entering_y l R res x y z)
           (entering_z l R res x y z) = Returns (res x y z)) /\
    cpu_implementation s l R fuel junk = Returns (chunk_stores l res).
Proof.
  intros H3. unfold cpu_implementation. rewrite H3. cbn [Z.eqb Pos.eqb negb].
  set (st0 := {| buf_psii := junk; yflux_pencil := repeat junk xr;
                 zflux_plane := repeat junk (yr * xr); stores := [] |}).
  set (Inv := fun (n : nat) (st : sweep_state (D := D)) =>
    exists res : nat -> nat -> nat -> CellResult (D := D),
      (forall x y z, (x < xr)%nat -> (y < yr)%nat -> (z < n)%nat ->
         run x y z (entering_x l R res x y z) (entering_y l R res x y z)
             (entering_z l R res x y z) = Returns (res x y z)) /\
      length (yflux_pencil st) = xr /\
      length (zflux_plane st) = (yr * xr)%nat /\
      ((0 < n)%nat -> z_last (n - 1)%nat = false ->
       forall x y, (x < xr)%nat -> (y < yr)%nat ->
         nth (y * xr + x) (zflux_plane st) [] =
         out_psik (res x y (n - 1)%nat)) /\
      stores st =
      flat_map (fun z =>
        flat_map (fun y =>
          flat_map (fun x => cell_stores l x y z (res x y z)) (seq 0 xr))
          (seq 0 yr))
        (seq 0 n)).
  destruct (@counted_loop_invariant _ (sweep_plane s l R fuel) Inv zr)
    with (st0 := st0) as (st' & Run & I).
  - (* one plane *)
    intros n st Hn (res & Eq & Lp & Lq & Nq & St).
    destruct (sweep_plane_runs n st Lp Lq)
      as (st1 & pl & Run & EqP & Lp1 & Lq1 & Nq1 & St1).
    exists st1. split; [exact Run|].
    exists (fun x y z => if (z =? n)%nat then pl x y else res x y z).
    split; [|split; [|split; [|split]]].
    + intros x y z Hx Hy Hz. unfold entering_x, entering_y, entering_z.
      assert (MZ : match z with
                   | O => ghostz_in l R x y z
                   | S z' => out_psik (if (z' =? n)%nat then pl x y
                                       else res x y z')
                   end =
                   match z with
                   | O => ghostz_in l R x y z
                   | S z' => out_psik (res x y z')
                   end).
      { destruct z as [|z']; [reflexivity|].
        destruct (Nat.eqb_spec z' n); [lia | reflexivity]. }
      rewrite MZ.
      destruct (Nat.eqb_spec z n) as [->|Ne].
      * rewrite <- (EqP x y Hx Hy). f_equal. f_equal.
        destruct n as [|n']; [reflexivity|]. cbn [Nat.eqb].
        rewrite Nq; [f_equal; f_equal; lia | lia | | exact Hx | exact Hy].
        apply Z.eqb_neq. lia.
      * apply (Eq x y z Hx Hy). lia.
    + exact Lp1.
    + exact Lq1.
    + intros _ Hl x y Hx Hy. replace (S n - 1)%nat with n in * by lia.
      rewrite (Nq1 x y Hx Hy), Hl. now rewrite Nat.eqb_refl.
    + rewrite St1, St, flat_map_seq_S, Nat.eqb_refl.
      f_equal. apply flat_map_ext_in. intros z Hz.
      apply in_seq in Hz.
      destruct (Nat.eqb_spec z n); [lia | reflexivity].
  - (* before the first plane *)
    exists (fun _ _ _ => {| out_psii := []; out_psij := []; out_psik := [];
                            time_flux_out := None; flux_total := d_0;
                            fluxm_total := None |}).
    split; [intros x y z Hx Hy Hz; lia|].
    split; [apply repeat_length|]. split; [apply repeat_length|].
    split; [lia | reflexivity].
  - destruct I as (res & Eq & _ & _ & _ & St).
    exists res. split; [exact Eq|].
    rewrite Run. cbn [bind]. now rewrite St.
Qed.
End ChunkSweep.

(** X9.  With one moment, on a subgrid no larger than a chunk in y and z,
    the sweep of a chunk runs to its end and is the upstream recurrence
    of the KBA sweep: there are cell results [res] such that the kernel,
    run on the cell at [(x, y, z)] with the fluxes entering it (on each
    axis the ghost flux for the first cell, and for the others the flux
    that left the cell before it through the face between them), returns
    [res x y z]; and the task's stores are the stores of these results,
    cell after cell in the order of the loops. *)
Theorem chunk_sweep_follows_upstream
        {D : Type} {ops : DoubleOps D}
        (s : Sweep.Snap (D := D)) (l : Sweep.Launch (D := D))
        (R : Sweep.Regions (D := D)) (fuel : nat) (junk : list D) :
  (Sweep.num_dims l = 3)%Z ->
  (Sweep.num_moments s <= 1)%Z ->
  (4 * Sweep.num_angles s + 2 < fuel)%nat ->
  (Z.of_nat (Sweep.y_range l) <= Sweep.ny_per_chunk l)%Z ->
  (Z.of_nat (Sweep.z_range l) <= Sweep.nz_per_chunk l)%Z ->
  exists res : nat -> nat -> nat -> Sweep.CellResult (D := D),
    (forall x y z,
       (x < Sweep.x_range l)%nat -> (y < Sweep.y_range l)%nat ->
       (z < Sweep.z_range l)%nat ->
       Sweep.cpu_implementation_cell s
         (Sweep.cell_of l R x y z
            (Sweep.entering_x l R res x y z)
            (Sweep.entering_y l R res x y z)
            (Sweep.entering_z l R res x y z)) fuel
       = Returns (res x y z)) /\
    Sweep.cpu_implementation s l R fuel junk
    = Returns (Sweep.chunk_stores l res).
Proof.
  intros H3 HM HF HY HZ. now apply chunk_sweep_runs.
Qed.

Lemma chunk_sweep_follows_upstream_witness :
  let s := Inputs.snap4 1 true true in
  let l := Inputs.launch_2x2x2 in
  let R := Inputs.regions_uniform in
  exists res : nat -> nat -> nat -> Sweep.CellResult (D := float),
    (forall x y z,
       (x < Sweep.x_range l)%nat -> (y < Sweep.y_range l)%nat ->
       (z < Sweep.z_range l)%nat ->
       Sweep.cpu_implementation_cell s
         (Sweep.cell_of l R x y z
            (Sweep.entering_x l R res x y z)
            (Sweep.entering_y l R res x y z)
            (Sweep.entering_z l R res x y z)) 19
       = Returns (res x y z)) /\
    Sweep.cpu_implementation s l R 19 [] = Returns (Sweep.chunk_stores l res).
Proof.
  cbv zeta.
  apply (@chunk_sweep_follows_upstream float binary64
           (Inputs.snap4 1 true true) Inputs.launch_2x2x2
           Inputs.regions_uniform 19 []).
  - reflexivity.
  - simpl. lia.
  - simpl. lia.
  - vm_compute. discriminate.
  - vm_compute. discriminate.
Defined.

Section SweepEdges.
Context {D : Type} {ops : DoubleOps D}.
Variable s : Sweep.Snap (D := D).
Variable l : Sweep.Launch (D := D).
Variable R : Sweep.Regions (D := D).
Variable fuel : nat.
Import Sweep.

(** A loop whose body hands its state back returns the state it was
    given. *)
Lemma idle_loop {S : Type} (body : nat -> S -> outcome S) (n : nat)
      (st : S) :
  (forall k st, body k st = Returns st) ->
  fold_left (fun r k => bind r (body k)) (seq 0 n) (Returns st)
  = Returns st.
Proof.
  intros H.
  destruct (@counted_loop_invariant _ body (fun _ st' => st' = st) n)
    with (st0 := st) as (st' & Run & ->); [|reflexivity|exact Run].
  intros k st' _ ->. exists st. now split.
Qed.

Lemma empty_chunk_returns (junk : list D) :
  (num_dims l = 3)%Z ->
  x_range l = 0%nat \/ y_range l = 0%nat \/ z_range l = 0%nat ->
  cpu_implementation s l R fuel junk = Returns [].
Proof.
  intros H3 E. unfold cpu_implementation. rewrite H3.
  cbn [Z.eqb Pos.eqb negb].
  destruct E as [E|[E|E]].
  - rewrite idle_loop; [reflexivity|].
    intros z st. unfold sweep_plane. apply idle_loop.
    intros y st'. unfold sweep_row. now rewrite E.
  - rewrite idle_loop; [reflexivity|].
    intros z st. unfold sweep_plane. now rewrite E.
  - rewrite E. reflexivity.
Qed.

(** The first cell of a chunk that has one is run on the ghost fluxes. *)
Lemma first_cell_stuck (junk : list D) :
  (num_dims l = 3)%Z ->
  (0 < x_range l)%nat -> (0 < y_range l)%nat -> (0 < z_range l)%nat ->
  (forall r,
     cpu_implementation_cell s
       (cell_of l R 0 0 0 (ghostx_in l R 0 0 0) (ghosty_in l R 0 0 0)
                (ghostz_in l R 0 0 0)) fuel <> Returns r) ->
  forall sts, cpu_implementation s l R fuel junk <> Returns sts.
Proof.
  intros H3 Hx Hy Hz Stuck sts. unfold cpu_implementation. rewrite H3.
  cbn [Z.eqb Pos.eqb negb].
  set (st0 := {| buf_psii := junk; yflux_pencil := _; zflux_plane := _;
                 stores := [] |}).
  assert (Row : forall st, sweep_row s l R fuel 0 0 st0 <> Returns st).
  { intros st. unfold sweep_row.
    destruct (x_range l) as [|n]; [lia|].
    cbn [seq fold_left bind]. apply counted_loop_stuck.
    intros st'. unfold cell_step. cbn [Nat.eqb].
    destruct (cpu_implementation_cell s _ fuel) as [r| | |] eqn:E;
      try discriminate.
    now destruct (Stuck r). }
  assert (Plane : forall st, sweep_plane s l R fuel 0 st0 <> Returns st).
  { intros st. unfold sweep_plane.
    destruct (y_range l) as [|n]; [lia|].
    cbn [seq fold_left bind]. now apply counted_loop_stuck. }
  destruct (z_range l) as [|n]; [lia|].
  cbn [seq fold_left bind].
  destruct (fold_left _ _ _) as [st| | |] eqn:E; try discriminate.
  exfalso. revert E. now apply counted_loop_stuck.
Qed.
End SweepEdges.

(** X10.  With more than one moment the sweep of a chunk never returns as
    soon as the chunk has a cell: its first cell hangs in the moment loop of
    the angular source.  On a chunk without cells (an extent of 0 on some
    axis) the task returns without a store, whatever the number of
    moments. *)
Theorem chunk_sweep_with_moments
        {D : Type} {ops : DoubleOps D}
        (s : Sweep.Snap (D := D)) (l : Sweep.Launch (D := D))
        (R : Sweep.Regions (D := D)) (fuel : nat) (junk : list D) :
  (Sweep.num_dims l = 3)%Z ->
  (Sweep.x_range l = 0%nat \/ Sweep.y_range l = 0%nat \/
   Sweep.z_range l = 0%nat ->
   Sweep.cpu_implementation s l R fuel junk = Returns []) /\
  ((1 < Sweep.num_moments s)%Z ->
   (0 < Sweep.x_range l)%nat -> (0 < Sweep.y_range l)%nat ->
   (0 < Sweep.z_range l)%nat ->
   forall sts, Sweep.cpu_implementation s l R fuel junk <> Returns sts).
Proof.
  intros H3. split.
  - now apply empty_chunk_returns.
  - intros HM Hx Hy Hz. apply first_cell_stuck; auto.
    now apply cpu_cell_stuck.
Qed.

Lemma chunk_sweep_with_moments_witness :
  let s := Inputs.snap4 2 true true in
  let l := Inputs.launch_2x2x2 in
  (Sweep.num_dims l = 3)%Z /\ (1 < Sweep.num_moments s)%Z /\
  (forall sts,
     Sweep.cpu_implementation s l Inputs.regions_uniform 50 []
     <> Returns sts).
Proof.
  cbv zeta. split; [reflexivity|]. split; [reflexivity|].
  destruct (@chunk_sweep_with_moments float binary64
              (Inputs.snap4 2 true true) Inputs.launch_2x2x2
              Inputs.regions_uniform 50 [] eq_refl) as [_ H].
  apply H; vm_compute; [reflexivity | lia | lia | lia].
Defined.

Section FluxFolds.
Context {D : Type} {ops : DoubleOps D}.
Variable l : Sweep.Launch (D := D).
Import Sweep.

Local Abbreviation xr := (x_range l).
Local Abbreviation yr := (y_range l).
Local Abbreviation zr := (z_range l).
Local Abbreviation at_cell :=
  (fun c : nat * nat * nat => local_point l (fst (fst c)) (snd (fst c)) (snd c)).

Lemma flux_folds_app (a b : list (store (D := D))) :
  flux_folds (a ++ b) = flux_folds a ++ flux_folds b.
Proof. apply flat_map_app. Qed.

Lemma flux_folds_flat_map {A : Type} (f : A -> list (store (D := D)))
      (idx : list A) :
  flux_folds (flat_map f idx) = flat_map (fun a => flux_folds (f a)) idx.
Proof.
  induction idx as [|a idx IH]; [reflexivity|].
  simpl. now rewrite flux_folds_app, IH.
Qed.

(** A cell folds into [flux] once, at its own point. *)
Lemma flux_folds_cell (x y z : nat) (r : CellResult (D := D)) :
  flux_folds (cell_stores l x y z r) = [(local_point l x y z, flux_total r)].
Proof.
  unfold cell_stores. rewrite !flux_folds_app.
  destruct (time_flux_out r), (fluxm_total r),
    (Z.of_nat x =? nx_per_chunk l - 1)%Z,
    (Z.of_nat y =? ny_per_chunk l - 1)%Z,
    (Z.of_nat z =? nz_per_chunk l - 1)%Z; reflexivity.
Qed.

Lemma flux_folds_chunk (res : nat -> nat -> nat -> CellResult (D := D)) :
  map fst (flux_folds (chunk_stores l res)) = map at_cell (sweep_order l).
Proof.
  unfold chunk_stores, sweep_order.
  rewrite flux_folds_flat_map, !map_flat_map_comm.
  apply flat_map_ext_in. intros z _.
  rewrite flux_folds_flat_map, !map_flat_map_comm.
  apply flat_map_ext_in. intros y _.
  rewrite flux_folds_flat_map, map_flat_map_comm, map_map.
  induction (seq 0 xr) as [|x xs IH]; [reflexivity|].
  simpl. now rewrite flux_folds_cell, IH.
Qed.

Lemma in_sweep_order (x y z : nat) :
  In (x, y, z) (sweep_order l) <->
  (x < xr)%nat /\ (y < yr)%nat /\ (z < zr)%nat.
Proof.
  unfold sweep_order. rewrite in_flat_map. split.
  - intros (z' & Hz & H). apply in_flat_map in H as (y' & Hy & H).
    apply in_map_iff in H as (x' & E & Hx). injection E as <- <- <-.
    apply in_seq in Hx, Hy, Hz. lia.
  - intros (Hx & Hy & Hz). exists z. split; [apply in_seq; lia|].
    apply in_flat_map. exists y. split; [apply in_seq; lia|].
    apply in_map_iff. exists x. split; [reflexivity | apply in_seq; lia].
Qed.

Lemma sweep_order_NoDup : NoDup (sweep_order l).
Proof.
  unfold sweep_order.
  apply (NoDup_flat_map_tagged _ (fun c : nat * nat * nat => snd c));
    [apply seq_NoDup | |].
  2:{ intros z c _ H. apply in_flat_map in H as (y & _ & H).
      apply in_map_iff in H as (x & <- & _). reflexivity. }
  intros z _.
  apply (NoDup_flat_map_tagged _ (fun c : nat * nat * nat => snd (fst c)));
    [apply seq_NoDup | |].
  2:{ intros y c _ H. apply in_map_iff in H as (x & <- & _). reflexivity. }
  intros y _. apply NoDup_map_inj; [|apply seq_NoDup].
  intros a b _ _ E. now injection E.
Qed.

Lemma axis_point_injective (positive : bool) (lo hi : Z) (k k' : nat) :
  axis_point positive lo hi k = axis_point positive lo hi k' -> k = k'.
Proof. unfold axis_point. destruct positive; lia. Qed.

Lemma axis_point_range (positive : bool) (lo hi p : Z) :
  (lo <= p <= hi)%Z <->
  exists k, (k < Z.to_nat (hi - lo + 1))%nat /\
            axis_point positive lo hi k = p.
Proof.
  unfold axis_point. split.
  - intros H. destruct positive.
    + exists (Z.to_nat (p - lo)). split; lia.
    + exists (Z.to_nat (hi - p)). split; lia.
  - intros (k & Hk & <-). destruct positive; lia.
Qed.

Lemma local_point_injective (c c' : nat * nat * nat) :
  at_cell c = at_cell c' -> c = c'.
Proof.
  destruct c as [[x y] z], c' as [[x' y'] z']. unfold local_point. simpl.
  destruct (bounds_lo l) as [[lo0 lo1] lo2],
           (bounds_hi l) as [[hi0 hi1] hi2].
  intros E. injection E as E0 E1 E2.
  apply axis_point_injective in E0, E1, E2. congruence.
Qed.

Lemma swept_points (p : point) :
  In p (map at_cell (sweep_order l)) <-> in_subgrid l p.
Proof.
  rewrite in_map_iff. destruct p as [[p0 p1] p2].
  unfold in_subgrid, local_point.
  pose proof in_sweep_order as O.
  unfold x_range, y_range, z_range in O.
  destruct (bounds_lo l) as [[lo0 lo1] lo2],
           (bounds_hi l) as [[hi0 hi1] hi2].
  cbn [fst snd] in *.
  rewrite (axis_point_range (stride_x_positive l) lo0 hi0 p0),
          (axis_point_range (stride_y_positive l) lo1 hi1 p1),
          (axis_point_range (stride_z_positive l) lo2 hi2 p2).
  split.
  - intros ([[x y] z] & E & H). apply O in H. destruct H as (Hx & Hy & Hz).
    cbn [fst snd] in E. injection E as E0 E1 E2. eauto 10.
  - intros ((x & Hx & E0) & (y & Hy & E1) & (z & Hz & E2)).
    exists (x, y, z). split; [cbn [fst snd]; congruence|].
    apply O. auto.
Qed.
End FluxFolds.

(** X11.  With one moment, on a subgrid no larger than a chunk in y and
    z, the sweep of a chunk folds a total into [flux] exactly once for
    every point of its subgrid and for no other point, in the order of the
    loops from the corner the sweep starts in. *)
Theorem sweep_folds_flux_once
        {D : Type} {ops : DoubleOps D}
        (s : Sweep.Snap (D := D)) (l : Sweep.Launch (D := D))
        (R : Sweep.Regions (D := D)) (fuel : nat) (junk : list D) :
  (Sweep.num_dims l = 3)%Z ->
  (Sweep.num_moments s <= 1)%Z ->
  (4 * Sweep.num_angles s + 2 < fuel)%nat ->
  (Z.of_nat (Sweep.y_range l) <= Sweep.ny_per_chunk l)%Z ->
  (Z.of_nat (Sweep.z_range l) <= Sweep.nz_per_chunk l)%Z ->
  exists sts,
    Sweep.cpu_implementation s l R fuel junk = Returns sts /\
    let points := map fst (Sweep.flux_folds sts) in
    points =
    map (fun c : nat * nat * nat =>
           Sweep.local_point l (fst (fst c)) (snd (fst c)) (snd c))
        (Sweep.sweep_order l) /\
    NoDup points /\
    (forall p, In p points <-> Sweep.in_subgrid l p).
Proof.
  intros H3 HM HF HY HZ.
  destruct (chunk_sweep_runs s l R HM HF HY HZ junk H3) as (res & _ & Run).
  exists (Sweep.chunk_stores l res). split; [exact Run|].
  cbv zeta. rewrite flux_folds_chunk.
  split; [reflexivity|]. split.
  - apply NoDup_map_inj; [|apply sweep_order_NoDup].
    intros a b _ _. apply local_point_injective.
  - apply swept_points.
Qed.

Lemma sweep_folds_flux_once_witness :
  let s := Inputs.snap4 1 true true in
  let l := Inputs.launch_2x2x2 in
  exists sts,
    Sweep.cpu_implementation s l Inputs.regions_uniform 19 [] = Returns sts /\
    map fst (Sweep.flux_folds sts) =
    [(5, 0, 0); (4, 0, 0); (5, 1, 0); (4, 1, 0);
     (5, 0, 1); (4, 0, 1); (5, 1, 1); (4, 1, 1)]%Z.
Proof.
  cbv zeta.
  destruct (@sweep_folds_flux_once float binary64
              (Inputs.snap4 1 true true) Inputs.launch_2x2x2
              Inputs.regions_uniform 19 [])
    as (sts & Run & E & _).
  - reflexivity.
  - simpl. lia.
  - simpl. lia.
  - vm_compute. discriminate.
  - vm_compute. discriminate.
  - exists sts. split; [exact Run|]. rewrite E. reflexivity.
Defined.

(* ------------------------------------------------------------------ *)
(** ** The fixup across a chunk, in exact arithmetic *)
(* ------------------------------------------------------------------ *)

Section FixupResult.
Context {D : Type} {ops : DoubleOps D} (laws : SignLaws ops).
Variable s : Sweep.Snap (D := D).
Variable c : Sweep.Cell (D := D).
Import Sweep.
Local Open Scope dbl_scope.

(** The state the fixup loop returns: no outgoing face flux is
    negative, and [pc] is not negative where the flux entering through
    the x face is [>= 0.0]. *)
Lemma fixup_result_signs (psi pc0 : list D) (fuel : nat) :
  (4 * Z.of_nat (num_angles s) < 4294967296)%Z ->
  (4 * num_angles s + 2 < fuel)%nat ->
  exists st,
    fixup_loop s c fuel psi (fixup_init s pc0) = Returns st /\
    forall a, (a < num_angles s)%nat ->
      (get (fst (fst (fst (fixup_faces s c st)))) a <? d_0) = false /\
      (get (snd (fst (fst (fixup_faces s c st)))) a <? d_0) = false /\
      (get (snd (fst (fixup_faces s c st))) a <? d_0) = false /\
      ((d_0 <=? get (psii c) a) = true -> (get (pc st) a <? d_0) = false).
Proof.
  intros HN Hfuel.
  destruct (break_exists s c psi pc0) as (k & Hk & Bk & Min).
  pose proof (fun n => @fixup_loop_runs _ _ s c psi k
                         (fixup_init s pc0) n Min Bk) as Run.
  set (stk := state_before_pass s c psi k (fixup_init s pc0)) in *.
  exists (fst (count_pass s c stk)).
  split; [apply Run; lia|].
  assert (F : all_flags_01 s stk).
  { apply state_before_pass_flags_01, fixup_init_flags_01. }
  destruct F as (Fx & Fy & Fz & Ft).
  intros a Ha. unfold fixup_faces. cbn [fst snd].
  repeat split.
  - rewrite get_tabulate by assumption. simpl.
    now apply cleared_product_not_negative.
  - rewrite get_tabulate by assumption. simpl.
    now apply cleared_product_not_negative.
  - rewrite get_tabulate by assumption. simpl.
    now apply cleared_product_not_negative.
  - intros Hin. simpl. destruct k as [|k].
    + pose proof (first_pass_break s c pc0 HN Ha Bk) as L.
      exact (half_not_negative _ _ Hin L).
    + pose proof (state_before_pass_succ_recomputed s c psi k
                    (fixup_init s pc0)) as Rc.
      fold stk in Rc. unfold recomputed in Rc. rewrite Rc.
      now apply recompute_pc_not_negative.
Qed.
End FixupResult.

Section ExactCell.
Variable s : Sweep.Snap (D := Q).
Import Sweep.

Local Abbreviation N := (num_angles s).

Lemma sum_loop_nonnegative (n : nat) (f : nat -> Q) :
  (forall a, (a < n)%nat -> (0 <= f a)%Q) -> (0 <= sum_loop n f)%Q.
Proof.
  unfold sum_loop. intros H.
  assert (G : forall idx acc, (0 <= acc)%Q ->
              (forall a, In a idx -> (0 <= f a)%Q) ->
              (0 <= fold_left (fun total a => (total + f a)%dbl) idx acc)%Q).
  { induction idx as [|a idx IH]; intros acc Ha Hf; [exact Ha|].
    simpl. apply IH.
    - pose proof (Hf a (or_introl eq_refl)). simpl. lra.
    - intros b Hb. apply Hf. now right. }
  apply G; [apply Qle_refl|].
  intros a Ha. apply in_seq in Ha. apply H. lia.
Qed.

(** In exact arithmetic a cell with fixup hands on fluxes [>= 0], and
    folds a total [>= 0] into [flux] when the flux entering through its x
    face and the weights are [>= 0]. *)
Lemma cell_fixup_exact (c : Cell (D := Q)) (fuel : nat) (r : CellResult) :
  flux_fixup s = true -> (num_moments s <= 1)%Z ->
  (4 * Z.of_nat N < 4294967296)%Z -> (4 * N + 2 < fuel)%nat ->
  cpu_implementation_cell s c fuel = Returns r ->
  (forall a, (a < N)%nat ->
     (0 <= get (out_psii r) a)%Q /\ (0 <= get (out_psij r) a)%Q /\
     (0 <= get (out_psik r) a)%Q) /\
  ((forall a, (a < N)%nat -> (0 <= get (psii c) a)%Q) ->
   (forall a, (a < N)%nat -> (0 <= get (w s) a)%Q) ->
   (0 <= flux_total r)%Q).
Proof.
  intros HF HM HN Hfuel. unfold cpu_implementation_cell.
  rewrite cpu_angular_source_one_moment by assumption. cbn [bind].
  rewrite HF. set (psi := add_mms_source s c _).
  destruct (fixup_result_signs exactQ_sign_laws s c psi
              (initial_solution s c psi) HN Hfuel) as (st & Run & Sg).
  rewrite Run. cbn [bind].
  destruct (fixup_faces s c st) as [[[oi oj] ok] tfo] eqn:Ef.
  cbn [fst snd] in Sg.
  destruct (cpu_flux_total s (pc st)) as [wpsi total] eqn:Et.
  rewrite cpu_fluxm_total_one_moment by assumption. cbn [bind].
  intros E. injection E as <-. cbn [out_psii out_psij out_psik flux_total].
  split.
  - intros a Ha. destruct (Sg a Ha) as (S1 & S2 & S3 & _).
    apply exactQ_lt_false in S1, S2, S3. auto.
  - intros Hin Hw. unfold cpu_flux_total in Et. injection Et as _ <-.
    apply sum_loop_nonnegative. intros a Ha.
    rewrite get_tabulate by assumption.
    destruct (Sg a Ha) as (_ & _ & _ & Spc).
    assert (P : (0 <= get (pc st) a)%Q).
    { apply exactQ_lt_false, Spc. simpl. apply Qle_bool_iff.
      now apply Hin. }
    pose proof (Hw a Ha) as W. simpl.
    apply Qmult_le_0_compat; assumption.
Qed.
End ExactCell.

Section StoresOfCells.
Context {D : Type} {ops : DoubleOps D}.
Variable l : Sweep.Launch (D := D).
Import Sweep.

(** Every store of the chunk is a store of one of its cells. *)
Lemma in_chunk_stores (res : nat -> nat -> nat -> CellResult (D := D))
      (st : store (D := D)) :
  In st (chunk_stores l res) ->
  exists x y z,
    (x < x_range l)%nat /\ (y < y_range l)%nat /\ (z < z_range l)%nat /\
    In st (cell_stores l x y z (res x y z)).
Proof.
  unfold chunk_stores. intros H.
  apply in_flat_map in H as (z & Hz & H).
  apply in_flat_map in H as (y & Hy & H).
  apply in_flat_map in H as (x & Hx & H).
  apply in_seq in Hx, Hy, Hz. exists x, y, z.
  repeat split; try lia. exact H.
Qed.

(** What a cell stores into the ghost regions and into [flux]. *)
Lemma in_cell_stores (x y z : nat) (r : CellResult (D := D))
      (st : store (D := D)) :
  In st (cell_stores l x y z r) ->
  match st with
  | write_ghostx_out _ v => v = out_psii r
  | write_ghosty_out _ v => v = out_psij r
  | write_ghostz_out _ v => v = out_psik r
  | fold_flux _ total => total = flux_total r
  | _ => True
  end.
Proof.
  unfold cell_stores. rewrite !in_app_iff.
  destruct (time_flux_out r), (fluxm_total r),
    (Z.of_nat x =? nx_per_chunk l - 1)%Z,
    (Z.of_nat y =? ny_per_chunk l - 1)%Z,
    (Z.of_nat z =? nz_per_chunk l - 1)%Z; simpl;
    intuition (subst; auto).
Qed.
End StoresOfCells.




